(* ===== verification/_CoqProject ===== *)
-Q . S2P
KvPrelude.v
LogName.v
Codec.v
Index.v
PosIO.v
Engine.v
EngineInv.v
Replay.v
Durable.v
MemStore.v
Refine.v
Cli.v
Session.v
ThreadPool.v
Serialize.v
