(* ===== verification/KvPrelude.v ===== *)
(** * A verification development for the [kvs] log-structured key/value store

    The program ([src/courses/rust/projects/project-2-self]) is a
    Bitcask-style store: [KvStore] ([src/kv.rs]) appends every mutation as a
    serde_json record to the active log file [<gen>.log] of its directory,
    keeps in memory a [BTreeMap] from each live key to the position of its
    latest [Set] record, reads values back through one positioned reader per
    generation, and compacts (copies the live records into a fresh
    generation and unlinks the older files) once more than 1 MiB of dead
    records has accumulated.  The command line ([src/bin/kvs.rs]) opens the
    store in the current directory and runs one [get], [set] or [rm].
    Project 1 ([project-1-self/src/kv.rs]) is the in-memory [HashMap] store
    the course starts from; here it is the specification.  The building
    block [bb_4_threadpool/src/main.rs] is a round-robin thread pool whose
    [main] dispatches 1000 printing jobs to 4 worker threads; the
    serialization building blocks push a [struct Move] through
    serde_json, RON and BSON.

    ** Files, in dependency order

    - [KvPrelude] (this file): byte strings ([bytes = list ascii]), the
      [u64] bound and [checked_add], the error type and the [result] monad
      with Rust's [?] as [let?] (lib.rs's [Result<T>] alias of
      [anyhow::Result]), slices of files, the hint databases [kvs]
      and [kvs_rw].
    - [LogName] (Module [LogName]): [log_path] ([log_name]) and
      [sorted_gen_list], with the standard library routines they call
      ([format!] of a [u64], [str::parse::<u64>], [trim_end_matches],
      [Path::extension]) written out.
    - [Codec] (Module [Codec]): [enum Operation] and its serde_json encoding
      ([encode_op]); the decoder [from_slice] ([serde_json::from_reader]) and
      the stream decoder [stream_next]/[log_ops]
      ([Deserializer::from_reader(..).into_iter()], with its [byte_offset]).
    - [Index] (Module [Index]): [BTreeMap] as its ascending entry list
      ([bt_get], [bt_insert], [bt_remove], [bt_values_mut]), refined to
      stdpp's [gmap].
    - [PosIO] (Module [PosIO]): the directory as a map from file names to
      contents, [BufReaderWithPos] and [BufWriterWithPos] with their
      [new]/[read]/[seek]/[write]/[flush] and the writer's [seek]
      ([writer_seek], which no caller uses); the writer's buffer is
      explicit and reaches the end of the file on [flush] (append mode).
    - [Engine] (Module [KvStore]): the record [KvStore] and [CommandPos],
      [load] (replay of one file), [new_log_file], [open], [set], [get],
      [remove] and [compact], each a function from the state and the
      directory to a [result]; panics ([expect], [u64] overflow) are errors.
    - [EngineInv] (Module [EngineInv]): the abstraction [view] (each index
      entry read back from the bytes it points at) and the invariant
      [store_inv]; the behaviour of each operation on it.
    - [Replay] (Module [Replay]): what a directory stands for ([dir_view]:
      the records of its files replayed generation by generation) and
      [open] on any directory with canonical log names.
    - [Durable] (Module [Durable]): the invariant [durable] (the files
      replay to the store's [view]) that every operation keeps, and
      persistence across reopening.
    - [MemStore] (Module [MemStore]): project 1's [KvStore].
    - [Refine] (Module [Refine]): a client's requests run on both stores,
      and the simulation between them.
    - [Cli] (Module [Cli]): [main] of [src/bin/kvs.rs] after argument
      parsing, and project 1's binary ([main_p1]).
    - [Session] (Module [Session]): the binary run once per command on one
      directory, compared with project 1's map.
    - [ThreadPool] (Module [ThreadPool]): the thread pool: [new], [spawn]
      (its two statements [spawn_send], [spawn_incr]), [wait] ([clear],
      [join_last]), the worker loop as the step relation [wstep], and
      [main] as the relation [step] over a program counter [Pc], worker
      steps interleaved anywhere; [run_main] is one schedule of it.
    - [Serialize] (Module [Serialize]): the three serialization demos,
      their [main]s and the serde back ends as they write and read [Move]
      (JSON text, RON text, UTF-8 validation, BSON documents with
      little-endian [i32]s), and the BSON read loop [read_moves].

    ** What the theorems show

    - Codec: a log of encoded records decodes to exactly those records
      ([log_ops_app]); one record's bytes decode to it ([from_slice_encode]);
      a record cut short at the end is ignored ([log_ops_truncated]); the
      byte range the stream reports for a record decodes on its own
      ([stream_next_chunk]) and concatenated chunks decode in order
      ([log_ops_chunk]); the decoding loop stops within [length] steps
      ([stream_ops_fuel]).
    - LogName: every [log_path] name is recognised as its generation
      ([gen_of_log_name]); padded names such as [07.log] are accepted too
      ([gen_of_name_padded], a finding).  [sorted_gen_list_elem] (a lemma)
      gives the ascending generation list its meaning.
    - PosIO: the position a writer shadows is where its next byte lands
      through [write] and [flush], and a [seek] keeps it so only when it
      seeks to that same position ([writer_pos_synced], a latent finding:
      the file is in append mode).
    - Index: [BTreeMap]'s operations are lookup, insert and delete on the map
      and keep the entries sorted; [values_mut] keeps the keys.
    - EngineInv: under [store_inv], [get] returns [view]'s binding
      ([get_view]); [set] inserts into [view] and keeps the invariant,
      compacting exactly when the dead bytes pass the threshold
      ([set_view]); [remove] of a present key appends the tombstone and
      deletes the key ([remove_view]) or, for an absent key, fails with
      ["UH"] ([remove_absent]); [compact] cannot fail while the
      generations fit in [u64], copies the live records into the
      compaction file, starts an empty active file, unlinks the older
      generations and keeps [view] ([compact_view]).
    - Refine: each request keeps the relation "invariant and [view] equals
      project 1's map" and answers as project 1 does, except that removing
      an absent key is an error ([log_step_refines]); hence any run of
      requests does ([log_run_refines]).  A workload of [set k v; rm k]
      rounds never compacts ([set_rm_cycle_no_compaction], a finding).
    - Replay: [open] on a directory with canonical log names succeeds, and
      the store it builds satisfies the invariant and stands for the
      replay of the files ([open_view]).
    - Durable: [set], [remove], [get], [compact] and [open] keep the files
      replaying to the store's contents ([durable]); so after opening a
      directory and running any [set]s and [remove]s on it, reopening the
      directory gives the original contents with those requests applied
      ([reopen_view], L4, over the client run [run_ops]), and opening twice
      gives the same contents twice ([open_twice], L5).
    - Cli and Session: what [kvs get], [kvs set] and [kvs rm] print and
      their exit status on a directory [open] accepts; a sequence of such
      processes on one directory prints what project 1's map says and
      leaves a directory that replays to it ([session_refines]).
    - ThreadPool: under every interleaving, [main] never panics
      ([main_never_panics]), can always run on to its end
      ([main_completes]) and takes at most [2n + 2k + 2] steps
      ([main_steps_bounded]); when it returns it has printed each job once,
      each worker its own jobs in order ([main_output]).  The spawning loop
      alone sends job [i] to worker [i mod n] ([spawn_round_robin]).
    - Serialize: the JSON demo reads back the [Move] it wrote, for all
      [i32] coordinates ([json_main_output]); the BSON read loop returns
      the moves written, in order ([read_all_roundtrip]), and stops
      quietly at a truncated document ([read_all_truncated]).

    ** Bounds and fuel

    Generations are [u64] ([N] below [U64_MAX]); the theorems on [set] and
    [compact] assume [current_gen + 2 <= U64_MAX], which [compact] needs for
    its two new generations, and a run of [n] requests assumes
    [current_gen + 2 n <= U64_MAX].  [durable] needs the active
    generation below [U64_MAX] (one more [open] must fit), so [set] under
    [durable] assumes [current_gen + 3 <= U64_MAX]; a session of [n]
    processes moves the last generation on by at most [3 n] (one for
    [open], two for a compaction).  The thread pool's [index] is a
    [usize] of 64 bits; [main] is proved for [k] jobs with
    [k <= usize::MAX].  [i32] values are [Z]s between [I32_MIN] and
    [I32_MAX]; the BSON read loop runs on fuel the length of the buffer,
    enough since each document takes at least five bytes
    ([read_all_roundtrip] uses one unit per document).  [reopen_view]
    assumes [last + 2 n + 4 <= U64_MAX] for a run of [n] requests after
    the first [open] (one generation for each [open], two for each
    compaction).  Offsets and
    lengths are [N]: a file
    longer than [2^64] bytes is not modelled.  The stream decoder's loop
    ([stream_ops]) and [load_loop] run on fuel [length] of the file: each
    record consumes at least one byte, and [stream_ops_fuel] shows that
    fuel is enough.  [dec_digits] runs on fuel [N.size n + 1], more than
    the number of decimal digits.

    ** Not modelled

    File-system failures other than a missing file (permissions, a full
    disk, short writes) and directory entries that are not regular files;
    [fs::create_dir_all]; clap's argument parsing ([Cli::parse],
    [--version]); the order in which [HashMap] yields the stale
    generations (the model removes them in ascending order, which does not
    change the result).  In the serialization demos, JSON with whitespace
    inside the object, BSON elements other than [int32], and the [{:#?}]
    formatting of what they print (a printed line carries the value).
    In the thread pool, a failure of
    [thread::spawn] and the wrap-around of [index] in a release build
    (the model panics, as a debug build does).  The serde_json decoder is
    modelled on the compact form the encoder writes, with surrounding
    whitespace and [\u] escapes below [0x80]; other JSON a hand-edited
    log could hold is not modelled. *)

From Stdlib Require Export Ascii String NArith Lia.
From stdpp Require Export base list gmap strings sorting.

Declare Scope kvs_scope.
Delimit Scope kvs_scope with kvs.
Open Scope kvs_scope.

(** ** Bytes

    Rust [String]s, file names and file contents are byte sequences.  A Rocq
    [ascii] is eight bits, so [list ascii] is a byte string. *)

Abbreviation bytes := (list ascii).

Definition bstr (s : string) : bytes := list_ascii_of_string s.

(** Length of a byte string as the [u64] the Rust code computes with. *)
Definition blen (b : bytes) : N := N.of_nat (length b).

(** The bytes [pos .. pos+len) of a file, as [reader.take(len)] returns them
    after a seek to [pos]: fewer when the file ends first. *)
Definition slice (f : bytes) (pos len : N) : bytes :=
  take (N.to_nat len) (drop (N.to_nat pos) f).

(** ** Machine integers

    Generation numbers are [u64]: an addition that leaves the range panics
    in a debug build ([attempt to add with overflow]). *)

Definition U64_MAX : N := 18446744073709551615.

Definition checked_add (a b : N) : option N :=
  if (a + b <=? U64_MAX)%N then Some (a + b)%N else None.

(** ** Errors and the result monad

    [anyhow::Result]: the errors the modelled code can produce.  A panic
    ([expect], arithmetic overflow) is an error value too, so that the
    model says where the program aborts. *)

Inductive error :=
| IoNotFound (path : bytes)   (* io::ErrorKind::NotFound from the file system *)
| JsonError                   (* serde_json::Error *)
| Msg (m : string)            (* anyhow::anyhow!(m) *)
| Panic (m : string).         (* expect(m) failed, or an overflow *)

Inductive result (A : Type) :=
| Ok (a : A)
| Err (e : error).
Arguments Ok {A} a.
Arguments Err {A} e.

Definition res_bind {A B} (m : result A) (f : A -> result B) : result B :=
  match m with Ok a => f a | Err e => Err e end.

Definition of_option {A} (e : error) (o : option A) : result A :=
  match o with Some a => Ok a | None => Err e end.

(** Rust's [?] operator. *)
Notation "'let?' x ':=' m 'in' k" := (res_bind m (fun x => k))
  (at level 10, x name, m at level 100, k at level 200) : kvs_scope.
Notation "'let?' ' p ':=' m 'in' k" :=
  (res_bind m (fun x => match x with p => k end))
  (at level 10, p pattern, m at level 100, k at level 200) : kvs_scope.

Lemma res_bind_Ok {A B} (m : result A) (f : A -> result B) b :
  res_bind m f = Ok b <-> exists a, m = Ok a /\ f a = Ok b.
Proof. destruct m; simpl; split; [eauto| |discriminate|]; naive_solver. Qed.

Lemma res_bind_Err {A B} (m : result A) (f : A -> result B) e :
  res_bind m f = Err e <-> m = Err e \/ exists a, m = Ok a /\ f a = Err e.
Proof. destruct m; simpl; split; naive_solver. Qed.

(** ** Generic lemmas on byte strings and slices *)

Lemma blen_app a b : blen (a ++ b) = (blen a + blen b)%N.
Proof. unfold blen. rewrite length_app. lia. Qed.

Lemma blen_cons c a : blen (c :: a) = N.succ (blen a).
Proof. unfold blen. simpl. lia. Qed.

Lemma blen_nil : blen [] = 0%N.
Proof. reflexivity. Qed.

Lemma slice_app_exact a b c : slice (a ++ b ++ c) (blen a) (blen b) = b.
Proof.
  unfold slice, blen. rewrite !Nat2N.id, drop_app_length. apply take_app_length.
Qed.

Lemma slice_app_end a b : slice (a ++ b) (blen a) (blen b) = b.
Proof. rewrite <- (app_nil_r b) at 1. apply slice_app_exact. Qed.

Lemma slice_app_l a c pos len :
  (pos + len <= blen a)%N -> slice (a ++ c) pos len = slice a pos len.
Proof.
  unfold slice, blen. intros H. rewrite drop_app_le by lia.
  rewrite take_app_le; [done|]. rewrite length_drop. lia.
Qed.

Lemma slice_length f pos len :
  (pos + len <= blen f)%N -> blen (slice f pos len) = len.
Proof.
  unfold slice, blen. intros H. rewrite length_take, length_drop. lia.
Qed.

Lemma checked_add_Some a b c : checked_add a b = Some c <-> c = (a + b)%N /\ (a + b <= U64_MAX)%N.
Proof.
  unfold checked_add. destruct (N.leb_spec (a + b) U64_MAX); split; intros; naive_solver lia.
Qed.

(** ** Automation shared by the components *)

(** ** Sorted lists of generations *)

(** The last element of an ascending list is its largest ([0] for the
    empty list, as [gen_list.last().unwrap_or(&0)]). *)
Lemma sorted_last_max (l : list N) x :
  Sorted (≤)%N l -> x ∈ l -> (x <= default 0 (last l))%N.
Proof.
  intros Hs Hx. apply (Sorted_StronglySorted _) in Hs.
  destruct (last l) as [m|] eqn:Hm; [|apply last_None in Hm as ->; set_solver].
  apply last_Some in Hm as [l' ->]. cbn [default id].
  apply elem_of_app in Hx as [Hx|Hx%list_elem_of_singleton]; [|subst; lia].
  eapply (StronglySorted_app_1_elem_of _ l' [m]); [done|done|set_solver].
Qed.

Create HintDb kvs discriminated.
Create Rewrite HintDb kvs_rw.
#[export] Hint Rewrite blen_app blen_cons blen_nil : kvs_rw.
#[export] Hint Rewrite slice_app_exact slice_app_end : kvs_rw.

(** Split the hypotheses [res_bind m f = Ok b] that the Rust [?] produces. *)
Ltac res_inv :=
  repeat match goal with
  | H : res_bind _ _ = Ok _ |- _ =>
      apply res_bind_Ok in H; destruct H as (? & ? & ?)
  | H : Ok _ = Ok _ |- _ => injection H as H
  | H : Err _ = Ok _ |- _ => discriminate H
  | H : of_option _ ?o = Ok _ |- _ => destruct o eqn:?; simpl in H; [|discriminate H]
  end.
