(* ===== verification/LogName.v ===== *)
(** * Log file naming and enumeration ([kv.rs]: [log_path], [sorted_gen_list])

    A generation [g] lives in the file [<dir>/<g>.log].  Opening the store
    enumerates the directory, keeps the names whose extension is [log] and
    whose stem parses as a [u64], and sorts the numbers.  The standard
    library routines the code calls ([format!], [str::parse::<u64>],
    [str::trim_end_matches], [Path::extension]) are written out as the
    standard library implements them. *)

From S2P Require Import KvPrelude.

Module LogName.

(** ** Printing: [format!("{gen}.log")] *)

Definition digit_char (d : N) : ascii := ascii_of_N (48 + d).

(** Decimal digits of [n], most significant first, in front of [acc]. *)
Fixpoint dec_digits (fuel : nat) (n : N) (acc : bytes) : bytes :=
  match fuel with
  | O => acc
  | S f =>
      if (n <? 10)%N then digit_char n :: acc
      else dec_digits f (n / 10)%N (digit_char (n mod 10)%N :: acc)
  end.

(** [Display for u64]: [n] has at most [N.size n] (its bit count) decimal
    digits, so the fuel never runs out. *)
Definition dec_u64 (n : N) : bytes := dec_digits (S (N.to_nat (N.size n))) n [].

(** [log_path(dir, gen)] inside the store's directory. *)
Definition log_name (gen : N) : bytes := dec_u64 gen ++ bstr ".log".

(** ** Parsing: [str::parse::<u64>] *)

(** [char::to_digit(10)] on one byte. *)
Definition digit_value (c : ascii) : option N :=
  let n := N_of_ascii c in
  if (48 <=? n)%N && (n <=? 57)%N then Some (n - 48)%N else None.

Definition checked_mul (a b : N) : option N :=
  if (a * b <=? U64_MAX)%N then Some (a * b)%N else None.

(** The digit loop of [from_str_radix]: [acc.checked_mul(10)], then
    [checked_add(d)]; any non-digit or overflow is an error. *)
Fixpoint parse_digits (s : bytes) (acc : N) : option N :=
  match s with
  | [] => Some acc
  | c :: s' =>
      match digit_value c with
      | None => None
      | Some d =>
          match checked_mul acc 10 with
          | None => None
          | Some m =>
              match checked_add m d with
              | None => None
              | Some acc' => parse_digits s' acc'
              end
          end
      end
  end.

(** [u64::from_str]: empty is an error, a lone sign is an error, a leading
    [+] is skipped, and for an unsigned type a [-] is an invalid digit. *)
Definition parse_u64 (src : bytes) : option N :=
  match src with
  | [] => None
  | [c] => if Ascii.eqb c "+" || Ascii.eqb c "-" then None else parse_digits src 0
  | c :: rest => if Ascii.eqb c "+" then parse_digits rest 0 else parse_digits src 0
  end.

(** ** [trim_end_matches(".log")] and [Path::extension] *)

(** Strip every trailing [".log"] (the reversed string loses ["gol."]). *)
Fixpoint strip_rev_log (r : bytes) : bytes :=
  match r with
  | a :: b :: c :: d :: r' =>
      if decide ([a; b; c; d] = bstr "gol.") then strip_rev_log r' else r
  | _ => r
  end.

Definition trim_end_log (s : bytes) : bytes := rev (strip_rev_log (rev s)).

(** [rsplitn(2, '.')] on a reversed name: the part before the last dot and
    the part after it, or [None] when there is no dot. *)
Fixpoint rsplit_dot_rev (r : bytes) (after : bytes) : option (bytes * bytes) :=
  match r with
  | [] => None
  | c :: r' =>
      if Ascii.eqb c "." then Some (rev r', after) else rsplit_dot_rev r' (c :: after)
  end.

(** [Path::extension] of a file name ([rsplit_file_at_dot]): [".."] and names
    whose only dot is the first byte have no extension. *)
Definition path_extension (name : bytes) : option bytes :=
  if decide (name = bstr "..") then None
  else
    match rsplit_dot_rev (rev name) [] with
    | None => None
    | Some ([], _) => None
    | Some (_, after) => Some after
    end.

(** The body of the [filter] and [flat_map] closures of [sorted_gen_list]
    for one directory entry. *)
Definition gen_of_name (name : bytes) : option N :=
  match path_extension name with
  | Some ext => if decide (ext = bstr "log") then parse_u64 (trim_end_log name) else None
  | None => None
  end.

(** [sorted_gen_list(path)]: the directory is the finite map from file
    names to contents; [read_dir] order is unspecified and the list is
    sorted afterwards ([sort_unstable]). *)
Definition sorted_gen_list (dir : gmap bytes bytes) : list N :=
  merge_sort (≤)%N (omap gen_of_name (fst <$> map_to_list dir)).

(** ** Lemmas *)

(** The value of a digit string read left to right, as the digit loop
    computes it when nothing overflows. *)
Fixpoint digits_val (s : bytes) (acc : N) : N :=
  match s with
  | [] => acc
  | c :: s' => digits_val s' (acc * 10 + default 0%N (digit_value c))%N
  end.

Definition is_digit (c : ascii) : Prop := is_Some (digit_value c).

Lemma digit_value_char d : (d < 10)%N -> digit_value (digit_char d) = Some d.
Proof.
  intros Hd. unfold digit_value, digit_char.
  rewrite N_ascii_embedding by lia.
  replace ((48 <=? 48 + d)%N && (48 + d <=? 57)%N) with true
    by (symmetry; apply andb_true_intro; split; apply N.leb_le; lia).
  f_equal. lia.
Qed.

Lemma digit_value_lt c d : digit_value c = Some d -> (d < 10)%N.
Proof.
  unfold digit_value. destruct (_ && _) eqn:E; [|done].
  apply andb_prop in E as [_ E%N.leb_le]. intros [= <-]. lia.
Qed.

Lemma digits_val_mono s a : (a <= digits_val s a)%N.
Proof.
  revert a. induction s as [|c s IH]; intros a; simpl; [lia|].
  etrans; [|apply IH]. lia.
Qed.

Lemma parse_digits_val s a :
  Forall is_digit s -> (digits_val s a <= U64_MAX)%N ->
  parse_digits s a = Some (digits_val s a).
Proof.
  revert a. induction s as [|c s IH]; intros a Hs Hmax; simpl in *; [done|].
  apply Forall_cons in Hs as [[d Hd] Hs]. rewrite Hd in Hmax |- *. simpl in Hmax.
  pose proof (digits_val_mono s (a * 10 + d)).
  unfold checked_mul. rewrite (proj2 (N.leb_le _ _)) by lia.
  rewrite (proj2 (checked_add_Some _ _ _)) by (split; [done|lia]).
  by apply IH.
Qed.

Lemma parse_digits_Some s a n :
  (a <= U64_MAX)%N -> parse_digits s a = Some n ->
  n = digits_val s a /\ (n <= U64_MAX)%N.
Proof.
  revert a. induction s as [|c s IH]; intros a Ha; simpl; [naive_solver|].
  destruct (digit_value c) as [d|]; [|done]. simpl.
  destruct (checked_mul a 10) as [m|] eqn:Hm; [|done].
  unfold checked_mul in Hm. case_match; simplify_eq.
  destruct (checked_add (a * 10) d) as [a'|] eqn:Ha'; [|done].
  apply checked_add_Some in Ha' as [-> ?]. by apply IH.
Qed.

Lemma dec_digits_val fuel n acc :
  (n < 10 ^ N.of_nat fuel)%N -> digits_val (dec_digits fuel n acc) 0 = digits_val acc n.
Proof.
  revert n acc. induction fuel as [|fuel IH]; intros n acc Hn; simpl.
  - replace n with 0%N by lia. done.
  - destruct (N.ltb_spec n 10).
    + simpl. rewrite digit_value_char by done. done.
    + rewrite IH.
      * simpl. rewrite digit_value_char by (apply N.mod_lt; lia). simpl.
        f_equal. pose proof (N.div_mod n 10). lia.
      * rewrite Nat2N.inj_succ, N.pow_succ_r' in Hn.
        apply N.Div0.div_lt_upper_bound. lia.
Qed.

Lemma dec_digits_digits fuel n acc :
  Forall is_digit acc -> Forall is_digit (dec_digits fuel n acc).
Proof.
  revert n acc. induction fuel as [|fuel IH]; intros n acc Hacc; simpl; [done|].
  destruct (N.ltb_spec n 10).
  - constructor; [|done]. red. rewrite digit_value_char by done. eauto.
  - apply IH. constructor; [|done]. red.
    rewrite digit_value_char by (apply N.mod_lt; lia). eauto.
Qed.

Lemma dec_digits_not_nil fuel n acc : dec_digits (S fuel) n acc <> [].
Proof.
  revert n acc. induction fuel as [|fuel IH]; intros n acc; simpl;
    [by case_match|].
  case_match; [done|]. apply IH.
Qed.

Lemma dec_fuel_bound n : (n < 10 ^ N.of_nat (S (N.to_nat (N.size n))))%N.
Proof.
  rewrite Nat2N.inj_succ, N2Nat.id, N.pow_succ_r'. pose proof (N.size_gt n).
  assert (2 ^ N.size n <= 10 ^ N.size n)%N by (apply N.pow_le_mono_l; lia).
  lia.
Qed.

Lemma digit_not_sign c : is_digit c -> Ascii.eqb c "+" = false /\ Ascii.eqb c "-" = false.
Proof.
  intros [d Hd]. split;
    [destruct (Ascii.eqb_spec c "+")|destruct (Ascii.eqb_spec c "-")]; subst; done.
Qed.

Lemma parse_u64_digits s :
  s <> [] -> Forall is_digit s -> parse_u64 s = parse_digits s 0.
Proof.
  intros Hne Hs. destruct s as [|c [|c' s]]; [done| |];
    apply Forall_cons in Hs as [Hc _]; unfold parse_u64;
    destruct (digit_not_sign c Hc) as [H1 H2]; rewrite ?H1, ?H2; done.
Qed.

Lemma strip_rev_log_nodot r : Forall (fun c => c <> "."%char) r -> strip_rev_log r = r.
Proof.
  intros Hr. destruct r as [|a [|b [|c [|d r']]]]; simpl; [done..|].
  case_decide as Heq; [|done]. cbn in Heq. simplify_eq.
  repeat apply Forall_cons in Hr as [? Hr]. done.
Qed.

Lemma digits_nodot s : Forall is_digit s -> Forall (fun c => c <> "."%char) s.
Proof. intros Hs. eapply Forall_impl; [exact Hs|]. intros c [d Hd] ->. discriminate. Qed.

Lemma dec_u64_digits g : dec_u64 g <> [] /\ Forall is_digit (dec_u64 g).
Proof. split; [apply dec_digits_not_nil | apply dec_digits_digits; constructor]. Qed.

Lemma rsplit_dot_rev_log r : rsplit_dot_rev (bstr "gol." ++ r) [] = Some (rev r, bstr "log").
Proof. reflexivity. Qed.

Lemma dec_u64_val g : digits_val (dec_u64 g) 0 = g.
Proof. unfold dec_u64. rewrite dec_digits_val by apply dec_fuel_bound. done. Qed.

(** The decimal name of a generation parses back to it: [str::parse]
    inverts [format!] on every [u64]. *)
Theorem parse_u64_dec_u64 g : (g <= U64_MAX)%N -> parse_u64 (dec_u64 g) = Some g.
Proof.
  intros Hg. destruct (dec_u64_digits g) as [Hne Hd]. pose proof (dec_u64_val g) as Hv.
  rewrite parse_u64_digits, parse_digits_val, Hv by (rewrite ?Hv; done). done.
Qed.

(** A name [<stem>.log] whose stem has no dot denotes the generation its
    stem parses to. *)
Lemma gen_of_name_stem p :
  p <> [] -> Forall (fun c => c <> "."%char) p -> gen_of_name (p ++ bstr ".log") = parse_u64 p.
Proof.
  intros Hne Hp. unfold gen_of_name, path_extension.
  rewrite decide_False; last first.
  { intros Heq. apply (f_equal length) in Heq. rewrite length_app in Heq.
    destruct p; simpl in *; [done|lia]. }
  rewrite rev_app_distr. change (rev (bstr ".log")) with (bstr "gol.").
  rewrite rsplit_dot_rev_log, rev_involutive.
  destruct p as [|a l] eqn:E; [done|]. rewrite <- E in *. clear E.
  rewrite decide_True by done. unfold trim_end_log.
  rewrite rev_app_distr. change (rev (bstr ".log")) with (bstr "gol."). simpl.
  by rewrite strip_rev_log_nodot, rev_involutive by (by apply Forall_rev).
Qed.

(** The enumeration recognises every file the store names: the entry
    [log_path(dir, g)] yields generation [g]. *)
Lemma gen_of_log_name_spec g : (g <= U64_MAX)%N -> gen_of_name (log_name g) = Some g.
Proof.
  intros Hg. destruct (dec_u64_digits g) as [Hne Hd]. unfold log_name.
  rewrite gen_of_name_stem by auto using digits_nodot. by apply parse_u64_dec_u64.
Qed.

(** C28: The enumeration recognises every file the store names: the entry
    [log_path(dir, g)] yields generation [g]. *)
Theorem gen_of_log_name g : (g <= U64_MAX)%N -> gen_of_name (log_name g) = Some g.
Proof. exact (gen_of_log_name_spec g). Qed.

Lemma parse_u64_bound s g : parse_u64 s = Some g -> (g <= U64_MAX)%N.
Proof.
  assert (H0 : (0 <= U64_MAX)%N) by done.
  unfold parse_u64. repeat case_match; try done;
    intros Hp; by destruct (parse_digits_Some _ _ _ H0 Hp).
Qed.

(** C29: Names that are not the store's own still count: the stem is parsed
    as a number, so [0<g>.log] (and [+<g>.log], [<g>.log.log]) denotes
    generation [g] although [log_path] names it [<g>.log]. *)
Theorem gen_of_name_padded g :
  (g <= U64_MAX)%N ->
  gen_of_name (bstr "0" ++ log_name g) = Some g /\ bstr "0" ++ log_name g <> log_name g.
Proof.
  intros Hg. destruct (dec_u64_digits g) as [Hne Hd]. pose proof (dec_u64_val g) as Hv.
  assert (Hz : Forall is_digit (bstr "0" ++ dec_u64 g)) by (constructor; [eexists|]; done).
  split.
  - unfold log_name. rewrite app_assoc, gen_of_name_stem by auto using digits_nodot.
    assert (H0 : digits_val (bstr "0" ++ dec_u64 g) 0 = g) by exact Hv.
    rewrite parse_u64_digits, parse_digits_val, H0 by (rewrite ?H0; done). done.
  - intros Heq. apply (f_equal length) in Heq. simpl in Heq. lia.
Qed.

(** Every generation the enumeration reports fits in a [u64]; a stem that
    overflows is an [Err] that [flatten] drops. *)
Lemma gen_of_name_bound name g : gen_of_name name = Some g -> (g <= U64_MAX)%N.
Proof.
  unfold gen_of_name. repeat case_match; try done. apply parse_u64_bound.
Qed.

(** [sorted_gen_list] returns an ascending list holding exactly the
    generations denoted by the log names of the directory. *)
Lemma sorted_gen_list_elem dir :
  Sorted (≤)%N (sorted_gen_list dir) /\
  forall g, g ∈ sorted_gen_list dir <->
    exists name c, dir !! name = Some c /\ gen_of_name name = Some g.
Proof.
  split; [apply Sorted_merge_sort; apply _|].
  intros g. unfold sorted_gen_list.
  rewrite merge_sort_Permutation, list_elem_of_omap.
  setoid_rewrite list_elem_of_fmap. setoid_rewrite elem_of_map_to_list'.
  split.
  - intros (name & ([? c] & -> & Hin) & Hg). eauto.
  - intros (name & c & Hin & Hg). exists name. split; [|done]. by exists (name, c).
Qed.

(** ** Witnesses *)

Lemma parse_u64_dec_u64_witness : parse_u64 (dec_u64 1234) = Some 1234%N.
Proof. apply parse_u64_dec_u64. unfold U64_MAX. lia. Defined.

Lemma gen_of_log_name_witness : gen_of_name (log_name 42) = Some 42%N.
Proof. apply gen_of_log_name. unfold U64_MAX. lia. Defined.

Lemma gen_of_name_padded_witness :
  gen_of_name (bstr "0" ++ log_name 7) = Some 7%N /\ bstr "0" ++ log_name 7 <> log_name 7.
Proof. apply gen_of_name_padded. unfold U64_MAX. lia. Defined.

End LogName.
