(* ===== verification/Codec.v ===== *)
(** * Record codec: [Operation] and its serde_json encoding

    [kv.rs] declares [enum Operation { Set{k,v}, Rm{k} }] with
    [#[derive(Serialize, Deserialize)]] and writes records with
    [serde_json::to_writer]; [load] reads a log with
    [serde_json::Deserializer::from_reader(..).into_iter()] and [get] reads one
    record with [serde_json::from_reader].  serde_json is a library, not code
    of this repository: its encoder is modelled from its documented output
    (compact JSON, externally tagged enum, the escape table of
    [format_escaped_str]) and its decoder from the JSON grammar, restricted to
    the shapes a log written by this program contains (see the root header). *)

From S2P Require Import KvPrelude.

Module Codec.

(** [enum Operation] (the Rust variant [Set] is [OpSet]: [Set] is a Rocq
    keyword). *)
Inductive Operation :=
| OpSet (k v : bytes)
| OpRm (k : bytes).

#[export] Instance Operation_eq_dec : EqDecision Operation.
Proof. solve_decision. Defined.

Definition QUOTE : ascii := ascii_of_N 34.
Definition BSLASH : ascii := ascii_of_N 92.

(** ** Encoder: [serde_json::to_writer] *)

Definition hex_digit (n : N) : ascii :=
  if (n <? 10)%N then ascii_of_N (48 + n) else ascii_of_N (87 + n).

(** [format_escaped_str]: the [ESCAPE] table and [write_char_escape]. *)
Definition escape_byte (c : ascii) : bytes :=
  let n := N_of_ascii c in
  if (n =? 34)%N then [BSLASH; QUOTE]
  else if (n =? 92)%N then [BSLASH; BSLASH]
  else if (n =? 8)%N then [BSLASH; "b"%char]
  else if (n =? 12)%N then [BSLASH; "f"%char]
  else if (n =? 10)%N then [BSLASH; "n"%char]
  else if (n =? 13)%N then [BSLASH; "r"%char]
  else if (n =? 9)%N then [BSLASH; "t"%char]
  else if (n <? 32)%N then [BSLASH; "u"%char; "0"%char; "0"%char; hex_digit (n / 16); hex_digit (n mod 16)]
  else [c].

Definition json_string (s : bytes) : bytes :=
  QUOTE :: (s ≫= escape_byte) ++ [QUOTE].

(** [{"Set":{"k":..,"v":..}}] and [{"Rm":{"k":..}}]: serde's externally
    tagged struct variants through the compact formatter. *)
Definition encode_op (op : Operation) : bytes :=
  match op with
  | OpSet k v =>
      bstr "{" ++ json_string (bstr "Set") ++ bstr ":{" ++
      json_string (bstr "k") ++ bstr ":" ++ json_string k ++ bstr "," ++
      json_string (bstr "v") ++ bstr ":" ++ json_string v ++ bstr "}}"
  | OpRm k =>
      bstr "{" ++ json_string (bstr "Rm") ++ bstr ":{" ++
      json_string (bstr "k") ++ bstr ":" ++ json_string k ++ bstr "}}"
  end.

(** ** Decoder *)

(** [parse_whitespace]: space, newline, tab, carriage return. *)
Definition is_ws (c : ascii) : bool :=
  let n := N_of_ascii c in ((n =? 32) || (n =? 10) || (n =? 9) || (n =? 13))%N.

Fixpoint skip_ws (s : bytes) : bytes :=
  match s with
  | c :: s' => if is_ws c then skip_ws s' else s
  | [] => []
  end.

Fixpoint strip_prefix (lit s : bytes) : option bytes :=
  match lit, s with
  | [], _ => Some s
  | a :: lit', b :: s' => if Ascii.eqb a b then strip_prefix lit' s' else None
  | _ :: _, [] => None
  end.

Definition hex_value (c : ascii) : option N :=
  let n := N_of_ascii c in
  if (48 <=? n)%N && (n <=? 57)%N then Some (n - 48)%N
  else if (97 <=? n)%N && (n <=? 102)%N then Some (n - 87)%N
  else if (65 <=? n)%N && (n <=? 70)%N then Some (n - 55)%N
  else None.

Definition hex4 (a b c d : ascii) : option N :=
  x1 ← hex_value a; x2 ← hex_value b; x3 ← hex_value c; x4 ← hex_value d;
  Some (((x1 * 16 + x2) * 16 + x3) * 16 + x4)%N.

(** The one-letter escapes of [parse_escape]. *)
Definition unescape (e : ascii) : option ascii :=
  let n := N_of_ascii e in
  if (n =? 34)%N then Some QUOTE
  else if (n =? 92)%N then Some BSLASH
  else if (n =? 47)%N then Some "/"%char
  else if (n =? 98)%N then Some (ascii_of_N 8)
  else if (n =? 102)%N then Some (ascii_of_N 12)
  else if (n =? 110)%N then Some (ascii_of_N 10)
  else if (n =? 114)%N then Some (ascii_of_N 13)
  else if (n =? 116)%N then Some (ascii_of_N 9)
  else None.

Definition prepend (c : ascii) (o : option (bytes * bytes)) : option (bytes * bytes) :=
  '(a, r) ← o; Some (c :: a, r).

(** The body of a JSON string up to its closing quote: escapes are decoded,
    a raw control byte or the end of input is an error.  [\uXXXX] is
    decoded for code points below 0x80, the ones the encoder writes. *)
Fixpoint parse_str_body (s : bytes) : option (bytes * bytes) :=
  match s with
  | [] => None
  | c :: s' =>
      if Ascii.eqb c QUOTE then Some ([], s')
      else if Ascii.eqb c BSLASH then
        match s' with
        | [] => None
        | e :: s'' =>
            if Ascii.eqb e "u"%char then
              match s'' with
              | h1 :: h2 :: h3 :: h4 :: rest =>
                  match hex4 h1 h2 h3 h4 with
                  | Some cp =>
                      if (cp <? 128)%N then prepend (ascii_of_N cp) (parse_str_body rest)
                      else None
                  | None => None
                  end
              | _ => None
              end
            else
              match unescape e with
              | Some b => prepend b (parse_str_body s'')
              | None => None
              end
        end
      else if (N_of_ascii c <? 32)%N then None
      else prepend c (parse_str_body s')
  end.

Definition parse_string (s : bytes) : option (bytes * bytes) :=
  match s with
  | c :: s' => if Ascii.eqb c QUOTE then parse_str_body s' else None
  | [] => None
  end.

(** An object key followed by its colon. *)
Definition parse_key (name s : bytes) : option bytes :=
  '(f, s) ← parse_string s;
  if decide (f = name) then strip_prefix (bstr ":") s else None.

(** [Operation::deserialize] on a compact record: the variant tag, then the
    fields [k] (and [v] for [Set]) in the order the encoder writes them. *)
Definition parse_op (s : bytes) : option (Operation * bytes) :=
  s ← strip_prefix (bstr "{") s;
  '(tag, s) ← parse_string s;
  s ← strip_prefix (bstr ":{") s;
  s ← parse_key (bstr "k") s;
  '(k, s) ← parse_string s;
  if decide (tag = bstr "Set") then
    s ← strip_prefix (bstr ",") s;
    s ← parse_key (bstr "v") s;
    '(v, s) ← parse_string s;
    s ← strip_prefix (bstr "}}") s;
    Some (OpSet k v, s)
  else if decide (tag = bstr "Rm") then
    s ← strip_prefix (bstr "}}") s;
    Some (OpRm k, s)
  else None.

(** [serde_json::from_reader]: one value, then only whitespace up to the end
    of the input ([Deserializer::end]). *)
Definition from_slice (s : bytes) : result Operation :=
  match parse_op (skip_ws s) with
  | Some (op, rest) => if decide (skip_ws rest = []) then Ok op else Err JsonError
  | None => Err JsonError
  end.

(** [StreamDeserializer::next]: [None] when only whitespace is left,
    [Some None] on a decoding error, [Some (Some (op, rest))] on a record. *)
Definition stream_next (s : bytes) : option (option (Operation * bytes)) :=
  match skip_ws s with
  | [] => None
  | s1 => Some (parse_op s1)
  end.

(** The records [while let Some(Ok(cmd)) = stream.next()] visits; [fuel]
    bounds the iterations, [length s] of them suffice. *)
Fixpoint stream_ops (fuel : nat) (s : bytes) : list Operation :=
  match fuel with
  | O => []
  | S f =>
      match stream_next s with
      | Some (Some (op, rest)) => op :: stream_ops f rest
      | _ => []
      end
  end.

(** The records of a whole log file. *)
Definition log_ops (s : bytes) : list Operation := stream_ops (length s) s.

(** ** Encoder/decoder lemmas *)

(** Each of the 256 bytes: its escape sequence decodes back to it. *)
Lemma parse_escape_byte c t :
  parse_str_body (escape_byte c ++ t) = prepend c (parse_str_body t).
Proof. destruct c as [[] [] [] [] [] [] [] []]; reflexivity. Qed.

Lemma parse_str_body_escaped s t :
  parse_str_body ((s ≫= escape_byte) ++ QUOTE :: t) = Some (s, t).
Proof.
  induction s as [|c s IH]; [reflexivity|].
  rewrite bind_cons, <- app_assoc, parse_escape_byte, IH. reflexivity.
Qed.

Lemma parse_string_json s t : parse_string (json_string s ++ t) = Some (s, t).
Proof.
  unfold json_string. simpl. rewrite <- app_assoc. apply parse_str_body_escaped.
Qed.

Lemma strip_prefix_app lit t : strip_prefix lit (lit ++ t) = Some t.
Proof. induction lit as [|a lit IH]; simpl; [done|]. by rewrite Ascii.eqb_refl. Qed.

Lemma parse_key_json name t : parse_key name (json_string name ++ bstr ":" ++ t) = Some t.
Proof.
  unfold parse_key. rewrite parse_string_json. simpl.
  by rewrite decide_True.
Qed.

Ltac parse_steps :=
  repeat (first [ rewrite strip_prefix_app | rewrite parse_string_json
                | rewrite parse_key_json | rewrite decide_True by done
                | rewrite decide_False by done ];
          cbn [mbind option_bind]).

Lemma parse_op_encode op t : parse_op (encode_op op ++ t) = Some (op, t).
Proof.
  destruct op; unfold encode_op, parse_op; rewrite <- !app_assoc; parse_steps; done.
Qed.

(** ** Prefix stability: a decoder that succeeds has read a non-empty
    prefix [p] of its input, and reads [p] the same whatever follows it. *)

Definition consumes {A} (P : bytes -> option (A * bytes)) (s : bytes) (a : A) (r : bytes) :=
  exists p, s = p ++ r /\ p <> [] /\ forall x, P (p ++ x) = Some (a, x).

Lemma prepend_Some c o a r :
  prepend c o = Some (a, r) <-> exists a', o = Some (a', r) /\ a = c :: a'.
Proof. unfold prepend. destruct o as [[??]|]; simpl; naive_solver. Qed.

Lemma strip_prefix_Some lit s r : strip_prefix lit s = Some r -> s = lit ++ r.
Proof.
  revert s. induction lit as [|c lit IH]; intros [|b s] H; simpl in *; try congruence.
  destruct (Ascii.eqb_spec c b); [subst|done]. by rewrite (IH s H).
Qed.

(** One decoded byte, read from the bytes [pre], in front of a shorter
    suffix; [Es] are the branch conditions of [parse_str_body]. *)
Ltac str_step IH Hn H pre :=
  apply prepend_Some in H as (a' & Ht & ->);
  apply IH in Ht as (p & -> & _ & Hp); [|simpl in Hn; rewrite ?length_app in Hn; lia];
  exists (pre ++ p); split; [done|]; split; [done|];
  intros x; cbn [app parse_str_body];
  repeat match goal with E : _ = ?b |- context [?t] =>
    lazymatch type of E with t = b => rewrite E end end;
  cbn iota; rewrite Hp; reflexivity.

Lemma parse_str_body_consumes n s a r :
  length s < n -> parse_str_body s = Some (a, r) -> consumes parse_str_body s a r.
Proof.
  revert s a r. induction n as [|n IH]; intros s a r Hn H; [lia|].
  destruct s as [|c s']; [done|]. cbn [parse_str_body] in H.
  destruct (Ascii.eqb c QUOTE) eqn:E1.
  { injection H as <- <-. exists [c]. split; [done|]. split; [done|].
    intros x. cbn [app parse_str_body]. rewrite E1. done. }
  destruct (Ascii.eqb c BSLASH) eqn:E2.
  - destruct s' as [|e s'']; [done|].
    destruct (Ascii.eqb e "u"%char) eqn:E3.
    + destruct s'' as [|h1 [|h2 [|h3 [|h4 rest]]]]; try done.
      destruct (hex4 h1 h2 h3 h4) as [cp|] eqn:E4; [|done].
      destruct (cp <? 128)%N eqn:E5; [|done]. str_step IH Hn H [c; e; h1; h2; h3; h4].
    + destruct (unescape e) as [b|] eqn:E4; [|done]. str_step IH Hn H [c; e].
  - destruct (N_of_ascii c <? 32)%N eqn:E3; [done|]. str_step IH Hn H [c].
Qed.

Lemma parse_string_consumes s a r :
  parse_string s = Some (a, r) -> consumes parse_string s a r.
Proof.
  destruct s as [|c s']; [done|]. cbn [parse_string].
  destruct (Ascii.eqb c QUOTE) eqn:E; [|done]. intros H.
  apply (parse_str_body_consumes (S (length s'))) in H as (p & -> & _ & Hp); [|lia].
  exists (c :: p). split; [done|]. split; [done|].
  intros x. cbn [app parse_string]. rewrite E. apply Hp.
Qed.

Lemma parse_key_consumes name s r :
  parse_key name s = Some r ->
  exists p, s = p ++ r /\ p <> [] /\ forall x, parse_key name (p ++ x) = Some x.
Proof.
  unfold parse_key. destruct (parse_string s) as [[f s1]|] eqn:E; [|done].
  cbn [mbind option_bind]. case_decide as Hf; [|done]. intros Hk. subst f.
  apply parse_string_consumes in E as (p & -> & Hne & Hp).
  apply strip_prefix_Some in Hk as ->.
  exists (p ++ bstr ":"). rewrite <- app_assoc. split; [done|]. split.
  { intros Hn. apply app_eq_nil in Hn as [-> _]. done. }
  intros x. rewrite <- app_assoc, Hp. cbn [mbind option_bind].
  rewrite decide_True by done. apply strip_prefix_app.
Qed.

(** Destruct one step [m ≫= f] of a decoder in hypothesis [H], keeping the
    facts about the step in [E]. *)
Ltac dec_step H E :=
  match type of H with
  | mbind _ ?m = _ =>
      let y := fresh "y" in
      destruct m as [y|] eqn:E; [|discriminate H]; cbn [mbind option_bind] in H;
      lazymatch type of y with (_ * _)%type => destruct y | _ => idtac end
  end.

(** Replay a decoder run on the prefix it consumed, from the step facts. *)
Ltac replay_steps :=
  rewrite <- ?app_assoc;
  repeat (first [ rewrite strip_prefix_app
                | match goal with X : forall x, _ (_ ++ x) = _ |- _ => rewrite X end
                | rewrite decide_True by done | rewrite decide_False by done ];
          cbn [mbind option_bind]);
  try done.

Ltac consumed_prefix :=
  eexists; split; [rewrite ?app_assoc; reflexivity|];
  split; [intros Hn; apply (f_equal length) in Hn; rewrite ?length_app in Hn; simpl in Hn; lia|].

(** The record decoder is prefix-stable: when it reads a record it has
    read a non-empty prefix of its input, and it reads that prefix as the
    same record whatever bytes follow. *)
Lemma parse_op_consumes s op r : parse_op s = Some (op, r) -> consumes parse_op s op r.
Proof.
  unfold parse_op. intros H.
  dec_step H E1. dec_step H E2. dec_step H E3. dec_step H E4. dec_step H E5.
  apply strip_prefix_Some in E1, E3.
  apply parse_string_consumes in E2 as (p2 & ? & _ & X2).
  apply parse_key_consumes in E4 as (p4 & ? & _ & X4).
  apply parse_string_consumes in E5 as (p5 & ? & _ & X5). subst.
  case_decide.
  - dec_step H E6. dec_step H E7. dec_step H E8. dec_step H E9. injection H as <- <-.
    apply strip_prefix_Some in E6, E9.
    apply parse_key_consumes in E7 as (p7 & ? & _ & X7).
    apply parse_string_consumes in E8 as (p8 & ? & _ & X8). subst.
    consumed_prefix. intros x. unfold parse_op. replay_steps.
  - case_decide; [|done].
    dec_step H E6. injection H as <- <-. apply strip_prefix_Some in E6. subst.
    consumed_prefix. intros x. unfold parse_op. replay_steps.
Qed.

Lemma parse_op_Some s op r :
  parse_op s = Some (op, r) ->
  length r < length s /\ forall x, parse_op (s ++ x) = Some (op, r ++ x).
Proof.
  intros (p & -> & Hne & Hp)%parse_op_consumes. split.
  - rewrite length_app. destruct p; [done|simpl; lia].
  - intros x. by rewrite <- app_assoc, Hp.
Qed.

(** A record read from [v ++ rest] is read from [v] alone. *)
Lemma parse_op_restrict v rest op :
  parse_op (v ++ rest) = Some (op, rest) -> parse_op v = Some (op, []).
Proof.
  intros (p & Hp & _ & Hx)%parse_op_consumes. apply app_inv_tail in Hp as ->.
  by rewrite <- (app_nil_r p), Hx.
Qed.

Lemma encode_op_head op t : exists s, encode_op op ++ t = "{"%char :: s.
Proof. destruct op; eexists; reflexivity. Qed.

Lemma skip_ws_length s : length (skip_ws s) <= length s.
Proof. induction s as [|c s IH]; simpl; [lia|]. destruct (is_ws c); simpl; lia. Qed.

Lemma stream_next_encode op t : stream_next (encode_op op ++ t) = Some (Some (op, t)).
Proof.
  destruct (encode_op_head op t) as [s Hs]. unfold stream_next.
  rewrite Hs. cbn [skip_ws]. change (is_ws "{"%char) with false. cbn iota.
  rewrite <- Hs. f_equal. apply parse_op_encode.
Qed.

(** The decoding loop terminates within [length s] iterations: any
    larger fuel gives the same records. *)
Theorem stream_ops_fuel f1 f2 s :
  length s <= f1 -> length s <= f2 -> stream_ops f1 s = stream_ops f2 s.
Proof.
  revert f2 s. induction f1 as [|f1 IH]; intros [|f2] s H1 H2; simpl.
  - done.
  - destruct s; [|simpl in H1; lia]. done.
  - destruct s; [|simpl in H2; lia]. done.
  - unfold stream_next. destruct (skip_ws s) as [|c s1] eqn:Hs; [done|].
    destruct (parse_op (c :: s1)) as [[op r]|] eqn:Hp; [|done]. f_equal.
    apply parse_op_Some in Hp as [Hlen _].
    pose proof (skip_ws_length s) as Hl. rewrite Hs in Hl.
    apply IH; lia.
Qed.

Lemma log_ops_cons op t : log_ops (encode_op op ++ t) = op :: log_ops t.
Proof.
  unfold log_ops. destruct (encode_op_head op t) as [s Hs].
  rewrite Hs. cbn [length stream_ops]. rewrite <- Hs, stream_next_encode. f_equal.
  apply stream_ops_fuel; [|done].
  pose proof (parse_op_Some _ _ _ (parse_op_encode op t)) as [Hl _].
  rewrite Hs in Hl. simpl in Hl. lia.
Qed.

(** Decoding a log made of encoded records gives those records back, in
    order, followed by whatever the rest of the file decodes to. *)
Lemma log_ops_app_spec ops t : log_ops ((ops ≫= encode_op) ++ t) = ops ++ log_ops t.
Proof.
  induction ops as [|op ops IH]; [done|].
  rewrite bind_cons, <- app_assoc, log_ops_cons, IH. done.
Qed.

(** C19: Decoding a log made of encoded records gives those records back, in
    order, followed by whatever the rest of the file decodes to. *)
Theorem log_ops_app ops t : log_ops ((ops ≫= encode_op) ++ t) = ops ++ log_ops t.
Proof. exact (log_ops_app_spec ops t). Qed.

(** ** Whitespace and record chunks *)

Lemma skip_ws_split s : exists w, s = w ++ skip_ws s /\ skip_ws w = [].
Proof.
  induction s as [|c s (w & Hw & Hw')]; [by exists []|]. simpl.
  destruct (is_ws c) eqn:E.
  - exists (c :: w). simpl. rewrite E. split; [by f_equal|done].
  - by exists [].
Qed.

Lemma skip_ws_nil_app w t : skip_ws w = [] -> skip_ws (w ++ t) = skip_ws t.
Proof.
  induction w as [|c w IH]; [done|]. simpl. destruct (is_ws c); [done|discriminate].
Qed.

Lemma skip_ws_head s c s' : skip_ws s = c :: s' -> is_ws c = false.
Proof.
  induction s as [|d s IH]; simpl; [done|].
  destruct (is_ws d) eqn:E; [done|]. by intros [= <- _].
Qed.

Lemma skip_ws_nonws c t : is_ws c = false -> skip_ws (c :: t) = c :: t.
Proof. simpl. by intros ->. Qed.

Lemma parse_op_nil : parse_op [] = None.
Proof. reflexivity. Qed.

Lemma stream_ops_next f s1 s2 : stream_next s1 = stream_next s2 -> stream_ops f s1 = stream_ops f s2.
Proof. destruct f; simpl; [done|]. by intros ->. Qed.

(** The bytes of one record of the stream, from where the previous
    record ended to the stream's [byte_offset] after it, decode on their
    own ([from_reader] on [take(len)]) to the record the stream read. *)
Lemma stream_next_chunk_spec s op rest :
  stream_next s = Some (Some (op, rest)) -> exists c, s = c ++ rest /\ from_slice c = Ok op.
Proof.
  unfold stream_next. destruct (skip_ws_split s) as (w & Hs & Hw).
  destruct (skip_ws s) as [|c1 s1] eqn:E; [done|]. intros [= Hp].
  pose proof (skip_ws_head _ _ _ E) as Hc1.
  apply parse_op_consumes in Hp as ([|c2 p] & Hp & Hne & Hx); [done|].
  injection Hp as -> ->. exists (w ++ c2 :: p). split; [by rewrite Hs, <- app_assoc|].
  unfold from_slice. rewrite skip_ws_nil_app, skip_ws_nonws by done.
  rewrite <- (app_nil_r (c2 :: p)), Hx. done.
Qed.

(** C26: The bytes of one record of the stream, from where the previous
    record ended to the stream's [byte_offset] after it, decode on their
    own ([from_reader] on [take(len)]) to the record the stream read. *)
Theorem stream_next_chunk s op rest :
  stream_next s = Some (Some (op, rest)) -> exists c, s = c ++ rest /\ from_slice c = Ok op.
Proof. exact (stream_next_chunk_spec s op rest). Qed.

(** A chunk that [from_reader] reads as a record is read as that one
    record by the stream decoder, whatever follows it. *)
Lemma log_ops_chunk_spec c t op : from_slice c = Ok op -> log_ops (c ++ t) = op :: log_ops t.
Proof.
  unfold from_slice. destruct (skip_ws_split c) as (w & Hc & Hw).
  destruct (parse_op (skip_ws c)) as [[op' r]|] eqn:Hp; [|done].
  case_decide as Hr; [|done]. intros [= <-].
  destruct (skip_ws c) as [|c1 s1] eqn:E; [by rewrite parse_op_nil in Hp|].
  pose proof (skip_ws_head _ _ _ E) as Hc1.
  apply parse_op_consumes in Hp as ([|c2 p] & Hp & Hne & Hx); [done|].
  injection Hp as -> ->. rewrite Hc, <- !app_assoc.
  unfold log_ops. rewrite !length_app. simpl. rewrite Nat.add_succ_r. simpl.
  unfold stream_next at 1. rewrite skip_ws_nil_app, skip_ws_nonws by done.
  rewrite <- app_assoc, app_comm_cons, Hx. f_equal. rewrite (stream_ops_next _ _ t).
  - apply stream_ops_fuel; rewrite ?length_app; lia.
  - unfold stream_next. by rewrite skip_ws_nil_app.
Qed.

(** C27: A chunk that [from_reader] reads as a record is read as that one
    record by the stream decoder, whatever follows it. *)
Theorem log_ops_chunk c t op : from_slice c = Ok op -> log_ops (c ++ t) = op :: log_ops t.
Proof. exact (log_ops_chunk_spec c t op). Qed.

Lemma log_ops_chunks (cs : list (bytes * Operation)) t :
  Forall (fun c => from_slice c.1 = Ok c.2) cs ->
  log_ops ((cs ≫= fst) ++ t) = (snd <$> cs) ++ log_ops t.
Proof.
  induction cs as [|[c op] cs IH]; intros Hcs; [done|].
  apply Forall_cons in Hcs as [Hc Hcs]. simpl in Hc.
  rewrite bind_cons, fmap_cons, <- app_assoc, (log_ops_chunk_spec _ _ _ Hc), IH by done. done.
Qed.

(** C25: A record cut short by a crash ends the log: the records written
    before it are read and nothing after it. *)
Theorem log_ops_truncated ops op p x :
  p ++ x = encode_op op -> x <> [] -> log_ops ((ops ≫= encode_op) ++ p) = ops.
Proof.
  intros Hp Hx. rewrite log_ops_app_spec. rewrite <- (app_nil_r ops) at 2. f_equal.
  destruct p as [|c p']; [done|].
  destruct (encode_op_head op []) as [s Hs]. rewrite app_nil_r in Hs.
  rewrite Hs in Hp. injection Hp as -> Hp.
  unfold log_ops. cbn [length stream_ops]. unfold stream_next. cbn [skip_ws].
  change (is_ws "{"%char) with false. cbn iota.
  destruct (parse_op ("{"%char :: p')) as [[op' r]|] eqn:E; [|done].
  exfalso. apply parse_op_Some in E as [_ E]. specialize (E x).
  rewrite <- app_comm_cons, Hp, <- Hs, <- (app_nil_r (encode_op op)), parse_op_encode in E.
  injection E as _ E. apply Hx. symmetry in E. by apply app_eq_nil in E as [_ ->].
Qed.

(** [serde_json::from_reader] on exactly the bytes of an encoded record
    returns that record. *)
Lemma from_slice_encode_spec op : from_slice (encode_op op) = Ok op.
Proof.
  unfold from_slice. destruct (encode_op_head op []) as [s Hs]. rewrite app_nil_r in Hs.
  rewrite Hs. cbn [skip_ws]. change (is_ws "{"%char) with false. cbn iota.
  rewrite <- Hs, <- (app_nil_r (encode_op op)), parse_op_encode. done.
Qed.

(** C20: [serde_json::from_reader] on exactly the bytes of an encoded record
    returns that record. *)
Theorem from_slice_encode op : from_slice (encode_op op) = Ok op.
Proof. exact (from_slice_encode_spec op). Qed.

(** ** Witnesses *)

Lemma stream_ops_fuel_witness :
  stream_ops 100 (encode_op (OpRm (bstr "a"))) = stream_ops 20 (encode_op (OpRm (bstr "a"))).
Proof. apply stream_ops_fuel; vm_compute; lia. Defined.

Lemma log_ops_truncated_witness :
  log_ops (([OpSet (bstr "a") (bstr "1")] ≫= encode_op) ++ take 5 (encode_op (OpRm (bstr "a"))))
  = [OpSet (bstr "a") (bstr "1")].
Proof.
  apply (log_ops_truncated _ (OpRm (bstr "a")) _ (drop 5 (encode_op (OpRm (bstr "a"))))).
  - apply take_drop.
  - vm_compute. discriminate.
Defined.

Lemma stream_next_chunk_witness :
  exists c, bstr " " ++ encode_op (OpRm (bstr "a")) ++ bstr "x" = c ++ bstr "x" /\
            from_slice c = Ok (OpRm (bstr "a")).
Proof. apply stream_next_chunk. vm_compute. reflexivity. Defined.

Lemma log_ops_chunk_witness :
  log_ops ((bstr " " ++ encode_op (OpRm (bstr "a")) ++ bstr " ") ++ []) = [OpRm (bstr "a")].
Proof. apply log_ops_chunk. vm_compute. reflexivity. Defined.

End Codec.
