(* ===== verification/Index.v ===== *)
(** * The in-memory index: [BTreeMap<String, CommandPos>]

    [KvStore.index] maps each live key to the position of its latest [Set]
    record.  The model keeps a [BTreeMap] as its list of entries in
    ascending key order, which is everything the code observes of it:
    [get], [insert] and [remove] returning the previous value, and
    [values_mut] visiting the entries in key order (compaction lays the
    records out in that order).  The abstract specification is stdpp's
    [gmap]: the refinement lemmas [bt_get_spec], [bt_insert_spec] and
    [bt_remove_spec] show that each operation behaves as lookup, insert and
    delete on the map of entries, and keeps the entries sorted. *)

From S2P Require Import KvPrelude.

Module Index.

(** [Ord for str]: byte-wise lexicographic comparison. *)
Fixpoint bytes_compare (a b : bytes) : comparison :=
  match a, b with
  | [], [] => Eq
  | [], _ :: _ => Lt
  | _ :: _, [] => Gt
  | x :: a', y :: b' =>
      match Ascii.compare x y with
      | Eq => bytes_compare a' b'
      | c => c
      end
  end.

Definition key_lt (a b : bytes) : Prop := bytes_compare a b = Lt.

(** ** The key order *)

Lemma ascii_compare_refl x : Ascii.compare x x = Eq.
Proof. apply N.compare_refl. Qed.

Lemma bytes_compare_eq a b : bytes_compare a b = Eq <-> a = b.
Proof.
  split; [|intros <-; induction a; simpl; rewrite ?ascii_compare_refl; done].
  revert b. induction a as [|x a IH]; intros [|y b]; simpl; try done.
  destruct (Ascii.compare x y) eqn:E; try done.
  apply Ascii.compare_eq_iff in E as ->. intros ->%IH. done.
Qed.

Lemma bytes_compare_antisym a b : bytes_compare b a = CompOpp (bytes_compare a b).
Proof.
  revert b. induction a as [|x a IH]; intros [|y b]; simpl; try done.
  rewrite (Ascii.compare_antisym y x). destruct (Ascii.compare x y); simpl; auto.
Qed.

Lemma bytes_compare_lt_trans a b c :
  key_lt a b -> key_lt b c -> key_lt a c.
Proof.
  unfold key_lt. revert b c. induction a as [|x a IH]; intros [|y b] [|z c]; simpl; try done.
  unfold Ascii.compare.
  destruct (N.compare_spec (N_of_ascii x) (N_of_ascii y)),
    (N.compare_spec (N_of_ascii y) (N_of_ascii z)),
    (N.compare_spec (N_of_ascii x) (N_of_ascii z)); try done; try lia.
  eauto.
Qed.

Lemma key_lt_irrefl a : ~ key_lt a a.
Proof. unfold key_lt. rewrite (proj2 (bytes_compare_eq a a)); done. Qed.

Lemma key_lt_ne a b : key_lt a b -> a <> b.
Proof. intros H ->. by apply (key_lt_irrefl b). Qed.

Lemma key_lt_ne' a b : key_lt a b -> b <> a.
Proof. intros H ->. by apply (key_lt_irrefl a). Qed.

(** Two keys in the order are distinct, whichever way round. *)
Ltac key_ne := first [ by apply key_lt_ne | by apply key_lt_ne' ].

Section BTree.
Context {V : Type}.

(** [BTreeMap::get]: the search stops at the first larger key. *)
Fixpoint bt_get (k : bytes) (m : list (bytes * V)) : option V :=
  match m with
  | [] => None
  | (k', v) :: m' =>
      match bytes_compare k k' with
      | Lt => None
      | Eq => Some v
      | Gt => bt_get k m'
      end
  end.

(** [BTreeMap::insert]: the new map and the value it replaced. *)
Fixpoint bt_insert (k : bytes) (v : V) (m : list (bytes * V)) : list (bytes * V) * option V :=
  match m with
  | [] => ([(k, v)], None)
  | (k', v') :: m' =>
      match bytes_compare k k' with
      | Lt => ((k, v) :: m, None)
      | Eq => ((k', v) :: m', Some v')
      | Gt => let '(m'', o) := bt_insert k v m' in ((k', v') :: m'', o)
      end
  end.

(** [BTreeMap::remove]: the new map and the value it held for [k]. *)
Fixpoint bt_remove (k : bytes) (m : list (bytes * V)) : list (bytes * V) * option V :=
  match m with
  | [] => ([], None)
  | (k', v') :: m' =>
      match bytes_compare k k' with
      | Lt => (m, None)
      | Eq => (m', Some v')
      | Gt => let '(m'', o) := bt_remove k m' in ((k', v') :: m'', o)
      end
  end.

(** [for v in map.values_mut() { body }] with a body that can fail ([?]):
    the entries in key order, each value replaced by the body's result,
    [S] the state the body threads. *)
Fixpoint bt_values_mut {S} (body : S -> V -> result (S * V)) (s : S)
    (m : list (bytes * V)) : result (S * list (bytes * V)) :=
  match m with
  | [] => Ok (s, [])
  | (k, v) :: m' =>
      let? '(s1, v1) := body s v in
      let? '(s2, m2) := bt_values_mut body s1 m' in
      Ok (s2, (k, v1) :: m2)
  end.

(** Entries in strictly ascending key order: the shape of a B-tree's
    in-order traversal. *)
Definition bt_wf (m : list (bytes * V)) : Prop :=
  StronglySorted (fun e1 e2 => key_lt e1.1 e2.1) m.

(** The abstraction function to the specification. *)
Definition bt_to_map (m : list (bytes * V)) : gmap bytes V := list_to_map m.

(** ** Refinement of the specification [gmap] *)

Lemma bt_to_map_cons k v (m : list (bytes * V)) :
  bt_to_map ((k, v) :: m) = <[k:=v]> (bt_to_map m).
Proof. reflexivity. Qed.

Lemma bt_wf_cons k v (m : list (bytes * V)) :
  bt_wf ((k, v) :: m) <-> Forall (fun e => key_lt k e.1) m /\ bt_wf m.
Proof.
  split; [intros H; apply StronglySorted_inv in H; tauto|].
  intros [? ?]. by constructor.
Qed.

(** A key below every key of [m] is absent from it. *)
Lemma bt_lookup_none k (m : list (bytes * V)) :
  Forall (fun e => key_lt k e.1) m -> bt_to_map m !! k = None.
Proof.
  induction m as [|[k'' v''] m IH]; intros Hm; [done|].
  apply Forall_cons in Hm as [H1 Hm]. rewrite bt_to_map_cons, lookup_insert_ne by key_ne.
  by apply IH.
Qed.

Lemma bt_lookup_below k k' (m : list (bytes * V)) :
  Forall (fun e => key_lt k' e.1) m -> key_lt k k' -> bt_to_map m !! k = None.
Proof.
  intros Hm Hk. apply bt_lookup_none. eapply Forall_impl; [exact Hm|].
  intros e. by apply bytes_compare_lt_trans.
Qed.

(** [insert] and [remove] only use the keys already there and [k]. *)
Lemma bt_insert_keys (P : bytes -> Prop) k v (m : list (bytes * V)) :
  P k -> Forall (fun e => P e.1) m -> Forall (fun e => P e.1) (bt_insert k v m).1.
Proof.
  intros Hk Hm. induction m as [|[k' v'] m IH]; simpl; [by constructor|].
  apply Forall_cons in Hm as [H1 Hm].
  destruct (bytes_compare k k'); simpl; [by repeat constructor..|].
  destruct (bt_insert k v m) eqn:E. simpl in *. constructor; auto.
Qed.

Lemma bt_remove_keys (P : bytes -> Prop) k (m : list (bytes * V)) :
  Forall (fun e => P e.1) m -> Forall (fun e => P e.1) (bt_remove k m).1.
Proof.
  intros Hm. induction m as [|[k' v'] m IH]; simpl; [done|].
  apply Forall_cons in Hm as [H1 Hm].
  destruct (bytes_compare k k'); simpl; [done|by constructor|].
  destruct (bt_remove k m) eqn:E. simpl in *. constructor; auto.
Qed.

(** Case analysis on the comparison of the searched key with an entry's. *)
Ltac key_cases k k' :=
  destruct (bytes_compare k k') eqn:Hc;
  [ apply bytes_compare_eq in Hc as <-
  | idtac
  | assert (key_lt k' k) by (unfold key_lt; rewrite bytes_compare_antisym, Hc; done) ].

(** [BTreeMap::get] is lookup in the map of entries. *)
Lemma bt_get_spec k (m : list (bytes * V)) : bt_wf m -> bt_get k m = bt_to_map m !! k.
Proof.
  induction m as [|[k' v] m IH]; intros Hwf; [done|].
  apply bt_wf_cons in Hwf as [Hlt Hwf]. cbn [bt_get]. rewrite bt_to_map_cons.
  key_cases k k'.
  - by rewrite lookup_insert_eq.
  - rewrite lookup_insert_ne by key_ne. by erewrite bt_lookup_below.
  - rewrite lookup_insert_ne by key_ne. auto.
Qed.

(** [BTreeMap::insert] keeps the entries sorted, behaves as [insert]
    on the map, and returns the value the key had. *)
Lemma bt_insert_spec k v (m : list (bytes * V)) :
  bt_wf m ->
  bt_wf (bt_insert k v m).1 /\
  bt_to_map (bt_insert k v m).1 = <[k:=v]> (bt_to_map m) /\
  (bt_insert k v m).2 = bt_to_map m !! k.
Proof.
  induction m as [|[k' v'] m IH]; intros Hwf.
  { split; [repeat constructor|done]. }
  pose proof Hwf as Hwf'. apply bt_wf_cons in Hwf as [Hlt Hwf]. cbn [bt_insert].
  key_cases k k'; cbn [fst snd].
  - split; [by apply bt_wf_cons|].
    rewrite !bt_to_map_cons, insert_insert_eq, lookup_insert_eq. done.
  - split; [apply bt_wf_cons; split; [|done]|].
    + constructor; [done|]. eapply Forall_impl; [exact Hlt|].
      intros e. apply bytes_compare_lt_trans. done.
    + split; [done|]. rewrite bt_to_map_cons, lookup_insert_ne by key_ne.
      by erewrite bt_lookup_below.
  - destruct (IH Hwf) as (Hwf2 & Hmap & Hold).
    destruct (bt_insert k v m) as [m'' o] eqn:E. simpl in *.
    split; [apply bt_wf_cons; split; [|done]|].
    + replace m'' with (bt_insert k v m).1 by (by rewrite E).
      by apply bt_insert_keys.
    + rewrite ?bt_to_map_cons, Hmap, lookup_insert_ne by key_ne.
      split; [|done]. apply insert_insert_ne. key_ne.
Qed.

(** [BTreeMap::remove] keeps the entries sorted, behaves as [delete]
    on the map, and returns the value the key had. *)
Lemma bt_remove_spec k (m : list (bytes * V)) :
  bt_wf m ->
  bt_wf (bt_remove k m).1 /\
  bt_to_map (bt_remove k m).1 = delete k (bt_to_map m) /\
  (bt_remove k m).2 = bt_to_map m !! k.
Proof.
  induction m as [|[k' v'] m IH]; intros Hwf.
  { split; [done|]. change (bt_to_map []) with (∅ : gmap bytes V). by rewrite delete_empty. }
  pose proof Hwf as Hwf'. apply bt_wf_cons in Hwf as [Hlt Hwf]. cbn [bt_remove].
  key_cases k k'; cbn [fst snd].
  - rewrite bt_to_map_cons, delete_insert_eq, lookup_insert_eq, delete_id; [done|].
    by apply bt_lookup_none.
  - assert (bt_to_map ((k', v') :: m) !! k = None).
    { rewrite bt_to_map_cons, lookup_insert_ne by key_ne.
      by erewrite bt_lookup_below. }
    by rewrite delete_id.
  - destruct (IH Hwf) as (Hwf2 & Hmap & Hold).
    destruct (bt_remove k m) as [m'' o] eqn:E. simpl in *.
    split; [apply bt_wf_cons; split; [|done]|].
    + replace m'' with (bt_remove k m).1 by (by rewrite E). by apply bt_remove_keys.
    + rewrite ?bt_to_map_cons, Hmap, lookup_insert_ne by key_ne.
      split; [|done]. rewrite delete_insert_ne; [done|]. key_ne.
Qed.

Lemma bt_wf_NoDup (m : list (bytes * V)) : bt_wf m -> NoDup m.*1.
Proof.
  induction m as [|[k v] m IH]; intros Hwf; [constructor|].
  apply bt_wf_cons in Hwf as [Hlt Hwf]. cbn [fmap list_fmap fst]. constructor; [|by apply IH].
  intros Hin. apply list_elem_of_fmap in Hin as ([k' v'] & -> & Hin).
  rewrite Forall_forall in Hlt. apply (key_lt_irrefl k'), (Hlt (k', v') Hin).
Qed.

(** An entry of a sorted list is what the map finds for its key. *)
Lemma bt_wf_elem (m : list (bytes * V)) k v :
  bt_wf m -> (k, v) ∈ m -> bt_to_map m !! k = Some v.
Proof. intros Hwf Hin. apply elem_of_list_to_map_1; [by apply bt_wf_NoDup|done]. Qed.

(** ** [values_mut]: the keys stay, each value is replaced in place *)

(** Two maps with the same keys in the same order, values related by [Q]. *)
Definition bt_rel (Q : V -> V -> Prop) : list (bytes * V) -> list (bytes * V) -> Prop :=
  Forall2 (fun e e' => e.1 = e'.1 /\ Q e.2 e'.2).

Lemma bt_rel_wf Q m m' : bt_rel Q m m' -> bt_wf m -> bt_wf m'.
Proof.
  unfold bt_rel, bt_wf. induction 1 as [|[k v] [k' v'] m m' [Hk _] Hrest IH]; intros Hs;
    [constructor|]. cbn in Hk. subst k'.
  apply StronglySorted_inv in Hs as [Hs Hlt]. constructor; [by apply IH|].
  clear IH Hs. induction Hrest as [|e e' l l' [He _] _ IH2]; [constructor|].
  inversion Hlt; subst. constructor; [by rewrite <- He|]. by apply IH2.
Qed.

Lemma bt_rel_lookup Q m m' k :
  bt_rel Q m m' -> option_Forall2 Q (bt_to_map m !! k) (bt_to_map m' !! k).
Proof.
  unfold bt_rel. induction 1 as [|[k0 v] [k0' v'] m m' [Hk HQ] _ IH];
    [constructor|]. cbn in Hk, HQ. subst k0'. rewrite !bt_to_map_cons.
  destruct (decide (k = k0)) as [->|Hne].
  - rewrite !lookup_insert_eq. by constructor.
  - by rewrite !lookup_insert_ne.
Qed.

Lemma bt_rel_impl (Q Q' : V -> V -> Prop) m m' :
  bt_rel Q m m' -> (forall k x y, (k, x) ∈ m -> Q x y -> Q' x y) -> bt_rel Q' m m'.
Proof.
  unfold bt_rel. induction 1 as [|[k x] [k' y] m m' [Hk HQ] _ IH]; intros H; constructor.
  - split; [done|]. apply (H k); [by left|done].
  - apply IH. intros k1 x1 y1 Hin. apply (H k1). by right.
Qed.

End BTree.

End Index.
