(* ===== verification/PosIO.v ===== *)
(** * Positioned buffered I/O over the store's directory

    [kv.rs] wraps [BufReader<File>] and [BufWriter<File>] in
    [BufReaderWithPos] and [BufWriterWithPos], which shadow the stream
    position in a [pos] field.  The directory is a finite map from file
    names to contents.  A reader is the name of the file its handle was
    opened on and its position; reads go to the file's current contents.
    A writer is opened in append mode: its buffered bytes go to the end of
    the file when it is flushed, whatever [pos] says; [writer_synced]
    states when [pos] is right, and [writer_pos_synced] which operations
    keep it so. *)

From S2P Require Import KvPrelude.

Module PosIO.

(** The store's directory: file name to contents. *)
Abbreviation Dir := (gmap bytes bytes).

Record BufReaderWithPos := {
  reader_path : bytes;
  reader_pos : N;
}.

Record BufWriterWithPos := {
  writer_path : bytes;
  writer_buf : bytes;
  writer_pos : N;
}.

(** [File::open(p)]: the file must exist. *)
Definition file_open (d : Dir) (p : bytes) : result bytes :=
  of_option (IoNotFound p) (d !! p).

(** [BufReaderWithPos::new(File::open(p)?)]: [inner.seek(Start(0))], so
    the position starts at 0. *)
Definition reader_new (d : Dir) (p : bytes) : result BufReaderWithPos :=
  let? _ := file_open d p in
  Ok {| reader_path := p; reader_pos := 0 |}.

(** [Seek for BufReaderWithPos] with [SeekFrom::Start(pos)]. *)
Definition reader_seek (r : BufReaderWithPos) (pos : N) : BufReaderWithPos :=
  {| reader_path := reader_path r; reader_pos := pos |}.

(** [reader.take(len)] read to its end ([io::copy] or a decoder reading the
    whole of it): at most [len] bytes from [pos], fewer at the end of the
    file; [Read for BufReaderWithPos] adds the count to [pos]. *)
Definition reader_read_take (d : Dir) (r : BufReaderWithPos) (len : N)
    : result (bytes * BufReaderWithPos) :=
  let? f := file_open d (reader_path r) in
  let data := slice f (reader_pos r) len in
  Ok (data, {| reader_path := reader_path r; reader_pos := reader_pos r + blen data |}).

(** [File::options().create(true).append(true).write(true).open(p)]. *)
Definition file_create_append (d : Dir) (p : bytes) : Dir :=
  match d !! p with
  | Some _ => d
  | None => <[p := []]> d
  end.

(** [BufWriterWithPos::new(inner)]: [inner.seek(Start(0))] returns 0 (in
    append mode the seek does not move where writes go). *)
Definition writer_new (p : bytes) : BufWriterWithPos :=
  {| writer_path := p; writer_buf := []; writer_pos := 0 |}.

(** [Write::write] (and [write_all]) on [BufWriterWithPos]. *)
Definition writer_write (w : BufWriterWithPos) (bs : bytes) : BufWriterWithPos :=
  {| writer_path := writer_path w; writer_buf := writer_buf w ++ bs;
     writer_pos := writer_pos w + blen bs |}.

(** [flush]: the buffer is appended to the file (an unlinked file keeps
    accepting writes that no name shows). *)
Definition writer_flush (d : Dir) (w : BufWriterWithPos) : Dir * BufWriterWithPos :=
  let d' := match d !! writer_path w with
            | Some f => <[writer_path w := f ++ writer_buf w]> d
            | None => d
            end in
  (d', {| writer_path := writer_path w; writer_buf := []; writer_pos := writer_pos w |}).

(** [Seek for BufWriterWithPos] with [SeekFrom::Start(pos)]:
    [BufWriter::seek] writes out its buffer, then the file's cursor moves
    and [pos] takes the offset the seek returns.  The file was opened in
    append mode, so the cursor does not say where the next write goes. *)
Definition writer_seek (d : Dir) (w : BufWriterWithPos) (pos : N)
    : Dir * BufWriterWithPos * N :=
  let '(d, w) := writer_flush d w in
  (d, {| writer_path := writer_path w; writer_buf := writer_buf w; writer_pos := pos |}, pos).

(** The shadowed position is where the next byte lands: the length of the
    file plus what is still buffered. *)
Definition writer_synced (d : Dir) (w : BufWriterWithPos) : Prop :=
  exists f, d !! writer_path w = Some f /\ writer_pos w = (blen f + blen (writer_buf w))%N.

(** [fs::remove_file(p)]. *)
Definition remove_file (d : Dir) (p : bytes) : result Dir :=
  match d !! p with
  | Some _ => Ok (delete p d)
  | None => Err (IoNotFound p)
  end.

(** ** The position a writer shadows *)

Lemma writer_write_synced d w bs :
  writer_synced d w -> writer_synced d (writer_write w bs).
Proof. intros (f & Hf & Hp). exists f. cbn. rewrite blen_app. split; [done|lia]. Qed.

Lemma writer_flush_synced d w :
  writer_synced d w -> writer_synced (writer_flush d w).1 (writer_flush d w).2.
Proof.
  intros (f & Hf & Hp). unfold writer_flush. rewrite Hf. cbn.
  exists (f ++ writer_buf w). rewrite lookup_insert_eq, blen_app. split; [done|cbn; rewrite blen_nil; lia].
Qed.

Lemma writer_seek_flush d w pos :
  writer_synced d w ->
  exists f, (writer_seek d w pos).1.1 !! writer_path w = Some f /\ blen f = writer_pos w /\
    writer_path (writer_seek d w pos).1.2 = writer_path w /\
    writer_buf (writer_seek d w pos).1.2 = [] /\ writer_pos (writer_seek d w pos).1.2 = pos.
Proof.
  intros (f & Hf & Hp). unfold writer_seek, writer_flush. rewrite Hf. cbn.
  exists (f ++ writer_buf w). rewrite lookup_insert_eq, blen_app. split_and!; [done|lia|done..].
Qed.

(** C31: The position [BufWriterWithPos] shadows stays where the next
    byte lands through [write] and [flush]; a [seek] keeps it so only
    when it seeks to the end: the file is in append mode, so after a seek
    anywhere else [pos], and every [CommandPos] taken from it, is wrong. *)
Theorem writer_pos_synced d w bs pos :
  writer_synced d w ->
  writer_synced d (writer_write w bs) /\
  writer_synced (writer_flush d w).1 (writer_flush d w).2 /\
  (writer_synced (writer_seek d w pos).1.1 (writer_seek d w pos).1.2 <-> pos = writer_pos w).
Proof.
  intros Hs. split_and!; [by apply writer_write_synced|by apply writer_flush_synced|].
  destruct (writer_seek_flush d w pos Hs) as (f & Hf & Hl & Hp & Hb & Hq).
  unfold writer_synced. rewrite Hp, Hb, Hq, Hf, blen_nil.
  split; [intros (? & [= <-] & ->); lia|intros ->; exists f; split; [done|lia]].
Qed.

(** A writer at the end of a two-byte file holding one more byte. *)
Lemma writer_pos_synced_witness :
  writer_synced {[bstr "1.log" := bstr "ab"]}
    {| writer_path := bstr "1.log"; writer_buf := bstr "c"; writer_pos := 3 |} /\
  ~ writer_synced (writer_seek {[bstr "1.log" := bstr "ab"]}
                     {| writer_path := bstr "1.log"; writer_buf := bstr "c"; writer_pos := 3 |} 0).1.1
                  (writer_seek {[bstr "1.log" := bstr "ab"]}
                     {| writer_path := bstr "1.log"; writer_buf := bstr "c"; writer_pos := 3 |} 0).1.2.
Proof.
  assert (Hs : writer_synced {[bstr "1.log" := bstr "ab"]}
                 {| writer_path := bstr "1.log"; writer_buf := bstr "c"; writer_pos := 3 |}).
  { exists (bstr "ab"). split; [apply lookup_singleton_eq|reflexivity]. }
  split; [exact Hs|]. intros H.
  apply (proj2 (proj2 (writer_pos_synced _ _ [] 0 Hs))) in H. discriminate.
Defined.

End PosIO.
