(* ===== verification/Engine.v ===== *)
(** * The storage engine: [KvStore] and its operations ([kv.rs] lines 85-271)

    The store's state is the record [KvStore]; the directory it owns is
    passed alongside ([Dir]).  Each public method is a function from the
    state and the directory to a [result]: an [Err] is an error the method
    returns with [?] (or a panic), after which the model keeps no state.
    [load] is the replay loop of one log file, [open] enumerates and replays
    the generations, [set] / [remove] append a record and update the index,
    [get] reads one record back, and [compact] copies the live records into
    a fresh generation and deletes the older ones. *)

From S2P Require Import KvPrelude LogName Codec Index PosIO.
Import LogName Codec Index PosIO.

Module KvStore.

Local Open Scope N_scope.

(** [const COMPACTION_THRESHOLD: u64 = 1024 * 1024]. *)
Definition COMPACTION_THRESHOLD : N := 1048576.

(** [struct CommandPos { id, pos, len }]: generation, offset and length of
    a record. *)
Record CommandPos := {
  cp_id : N;
  cp_pos : N;
  cp_len : N;
}.

(** [struct KvStore] (the [path] field is the directory passed beside). *)
Record KvStore := {
  readers : gmap N BufReaderWithPos;
  writer : BufWriterWithPos;
  current_gen : N;
  index : list (bytes * CommandPos);
  uncompacted : N;
}.

Definition with_readers (st : KvStore) (rs : gmap N BufReaderWithPos) : KvStore :=
  {| readers := rs; writer := writer st; current_gen := current_gen st;
     index := index st; uncompacted := uncompacted st |}.

Definition overflow : error := Panic "attempt to add with overflow".

(** The length of a replaced entry, added to [uncompacted]
    ([if let Some(old_cmd) = ... { uncompacted += old_cmd.len }]). *)
Definition old_len (o : option CommandPos) : N :=
  match o with Some c => cp_len c | None => 0 end.

(** ** [load]: replay one generation *)

(** The body of [while let Some(Ok(cmd)) = stream.next()]: [f] is the whole
    file (the stream's [byte_offset] is [blen f - blen rest]), [s] what is
    left of it, [pos] the offset where the record starts. *)
Fixpoint load_loop (fuel : nat) (gen : N) (f s : bytes) (pos : N)
    (idx : list (bytes * CommandPos)) (unc : N) : list (bytes * CommandPos) * N :=
  match fuel with
  | O => (idx, unc)
  | S fuel' =>
      match stream_next s with
      | Some (Some (cmd, rest)) =>
          let new_pos := (blen f - blen rest)%N in
          match cmd with
          | OpSet k _ =>
              let '(idx', old) :=
                bt_insert k {| cp_id := gen; cp_pos := pos; cp_len := new_pos - pos |} idx in
              load_loop fuel' gen f rest new_pos idx' (unc + old_len old)
          | OpRm k =>
              let '(idx', old) := bt_remove k idx in
              load_loop fuel' gen f rest new_pos idx' (unc + old_len old + (new_pos - pos))
          end
      | _ => (idx, unc)
      end
  end.

(** [load(gen, reader, index)]: seek to 0, replay, return the dead bytes
    found.  The deserializer reads a well-formed log to its end, so the
    reader is left at the end of the file. *)
Definition load (gen : N) (d : Dir) (reader : BufReaderWithPos)
    (idx : list (bytes * CommandPos))
    : result (list (bytes * CommandPos) * N * BufReaderWithPos) :=
  let reader := reader_seek reader 0 in
  let? f := file_open d (reader_path reader) in
  let '(idx', unc) := load_loop (length f) gen f f 0 idx 0 in
  Ok (idx', unc, reader_seek reader (blen f)).

(** ** [new_log_file] and [open] *)

(** [new_log_file(path, gen, readers)]: create (or open) [<gen>.log] for
    appending and register a reader on it. *)
Definition new_log_file (d : Dir) (gen : N) (rs : gmap N BufReaderWithPos)
    : result (BufWriterWithPos * gmap N BufReaderWithPos * Dir) :=
  let p := log_name gen in
  let d := file_create_append d p in
  let w := writer_new p in
  let? r := reader_new d (log_name gen) in
  Ok (w, <[gen := r]> rs, d).

(** The [for &gen in &gen_list] loop of [open]. *)
Fixpoint open_loop (d : Dir) (gens : list N) (rs : gmap N BufReaderWithPos)
    (idx : list (bytes * CommandPos)) (unc : N)
    : result (gmap N BufReaderWithPos * list (bytes * CommandPos) * N) :=
  match gens with
  | [] => Ok (rs, idx, unc)
  | gen :: gens' =>
      let? reader := reader_new d (log_name gen) in
      let? '(idx, u, reader) := load gen d reader idx in
      open_loop d gens' (<[gen := reader]> rs) idx (unc + u)
  end.

(** [KvStore::open(path)] ([create_dir_all]: the directory exists). *)
Definition open (d : Dir) : result (KvStore * Dir) :=
  let gen_list := sorted_gen_list d in
  let? '(rs, idx, unc) := open_loop d gen_list ∅ [] 0 in
  let? cur := of_option overflow (checked_add (default 0%N (last gen_list)) 1) in
  let? '(w, rs, d) := new_log_file d cur rs in
  Ok ({| readers := rs; writer := w; current_gen := cur; index := idx;
         uncompacted := unc |}, d).

(** ** [compact] *)

(** The body of [for cmd_pos in index.values_mut()]: seek unless the reader
    is already there, copy [len] bytes into the compaction writer, point the
    entry at the copy. *)
Definition compact_entry (d : Dir) (compaction_gen : N)
    (acc : gmap N BufReaderWithPos * BufWriterWithPos * N) (cp : CommandPos)
    : result ((gmap N BufReaderWithPos * BufWriterWithPos * N) * CommandPos) :=
  let '(rs, cw, new_pos) := acc in
  let? reader := of_option (Panic "sdasd") (rs !! cp_id cp) in
  let reader := if decide (cp_pos cp <> reader_pos reader)
                then reader_seek reader (cp_pos cp) else reader in
  let? '(data, reader) := reader_read_take d reader (cp_len cp) in
  let cw := writer_write cw data in
  let len := blen data in
  Ok ((<[cp_id cp := reader]> rs, cw, new_pos + len),
      {| cp_id := compaction_gen; cp_pos := new_pos; cp_len := len |}).

(** The [for stale_gen in stale_gens] loop: drop the reader, unlink the file. *)
Fixpoint remove_stale (gens : list N) (rs : gmap N BufReaderWithPos) (d : Dir)
    : result (gmap N BufReaderWithPos * Dir) :=
  match gens with
  | [] => Ok (rs, d)
  | g :: gens' =>
      let rs := delete g rs in
      let? d := remove_file d (log_name g) in
      remove_stale gens' rs d
  end.

(** [KvStore::compact]: the new active writer ([current_gen + 2]) is created
    first and the old writer dropped (flushed); then the compaction file
    ([current_gen + 1]) receives the live records in key order.  The stale
    generations are the readers below [compaction_gen]; [HashMap] key order
    is unspecified and the model removes them in ascending order. *)
Definition compact (st : KvStore) (d : Dir) : result (KvStore * Dir) :=
  let? compaction_gen := of_option overflow (checked_add (current_gen st) 1) in
  let? cur := of_option overflow (checked_add (current_gen st) 2) in
  let? '(w, rs, d) := new_log_file d cur (readers st) in
  let '(d, _) := writer_flush d (writer st) in
  let? '(cw, rs, d) := new_log_file d compaction_gen rs in
  let? '((rs, cw, _), idx) := bt_values_mut (compact_entry d compaction_gen) (rs, cw, 0%N) (index st) in
  let '(d, _) := writer_flush d cw in
  let stale := filter (fun g => (g < compaction_gen)%N) (elements (dom rs)) in
  let? '(rs, d) := remove_stale stale rs d in
  Ok ({| readers := rs; writer := w; current_gen := cur; index := idx; uncompacted := 0 |}, d).

(** ** [set], [get], [remove] *)

(** [KvStore::set(key, value)]. *)
Definition set (st : KvStore) (d : Dir) (key value : bytes) : result (KvStore * Dir) :=
  let cmd := OpSet key value in
  let pos := writer_pos (writer st) in
  let w := writer_write (writer st) (encode_op cmd) in
  let '(d, w) := writer_flush d w in
  let len := (writer_pos w - pos)%N in
  let '(idx, old) :=
    bt_insert key {| cp_id := current_gen st; cp_pos := pos; cp_len := len |} (index st) in
  let st := {| readers := readers st; writer := w; current_gen := current_gen st;
               index := idx; uncompacted := uncompacted st + old_len old |} in
  if (COMPACTION_THRESHOLD <? uncompacted st)%N then compact st d else Ok (st, d).

(** [KvStore::get(key)]: the reader of the record's generation is moved. *)
Definition get (st : KvStore) (d : Dir) (key : bytes) : result (option bytes * KvStore) :=
  match bt_get key (index st) with
  | Some cp =>
      let? r := of_option (Panic "SDSD") (readers st !! cp_id cp) in
      let r := reader_seek r (cp_pos cp) in
      let? '(data, r) := reader_read_take d r (cp_len cp) in
      let st := with_readers st (<[cp_id cp := r]> (readers st)) in
      let? cmd := from_slice data in
      match cmd with
      | OpSet _ v => Ok (Some v, st)
      | OpRm _ => Ok (None, st)
      end
  | None => Ok (None, st)
  end.

(** [KvStore::remove(key)]: a missing key is the error ["UH"]. *)
Definition remove (st : KvStore) (d : Dir) (key : bytes) : result (KvStore * Dir) :=
  match bt_get key (index st) with
  | Some _ =>
      let w := writer_write (writer st) (encode_op (OpRm key)) in
      let '(d, w) := writer_flush d w in
      let '(idx, old) := bt_remove key (index st) in
      let? _ := of_option (Panic "ADSD") old in
      Ok ({| readers := readers st; writer := w; current_gen := current_gen st;
             index := idx; uncompacted := uncompacted st |}, d)
  | None => Err (Msg "UH")
  end.

End KvStore.
