(* ===== verification/EngineInv.v ===== *)
(** * The engine's invariant and the behaviour of [get], [set] and [remove]

    [view st d] is the key/value map the store stands for: every index entry
    read back from the bytes it points at.  [store_inv] is the invariant of
    [KvStore]: the index is sorted, every entry points at a whole [Set]
    record of its own key inside a live file (I1 of the design), the writer
    targets the active generation with an empty buffer and knows the file's
    length, every reader reads the file of its generation, and no file
    exists yet for a generation above the active one.  The theorems show
    that [get] returns what [view] says, and that [set] and [remove] keep the
    invariant and change [view] as insert and delete do. *)

From S2P Require Import KvPrelude LogName Codec Index PosIO Engine.
Import LogName Codec Index PosIO KvStore.

Module EngineInv.

Local Open Scope N_scope.

(** The value an entry points at, read as [get] reads it. *)
Definition entry_value (d : Dir) (cp : CommandPos) : option bytes :=
  f ← d !! log_name (cp_id cp);
  match from_slice (slice f (cp_pos cp) (cp_len cp)) with
  | Ok (OpSet _ v) => Some v
  | _ => None
  end.

(** The abstraction function: the map the store stands for. *)
Definition view (st : KvStore) (d : Dir) : gmap bytes bytes :=
  omap (entry_value d) (bt_to_map (index st)).

(** I1: the entry of key [k] points inside a file of the directory, at
    bytes that decode to a [Set] record of [k]. *)
Definition entry_at (d : Dir) (k : bytes) (cp : CommandPos) : Prop :=
  exists f v, d !! log_name (cp_id cp) = Some f /\
    cp_pos cp + cp_len cp <= blen f /\
    from_slice (slice f (cp_pos cp) (cp_len cp)) = Ok (OpSet k v).

(** ... and the store holds a reader on that file. *)
Definition entry_ok (d : Dir) (rs : gmap N BufReaderWithPos) (k : bytes) (cp : CommandPos) : Prop :=
  is_Some (rs !! cp_id cp) /\ entry_at d k cp.

Record store_inv (st : KvStore) (d : Dir) : Prop := {
  inv_wf : bt_wf (index st);
  inv_gen_max : current_gen st <= U64_MAX;
  inv_writer_path : writer_path (writer st) = log_name (current_gen st);
  inv_writer_buf : writer_buf (writer st) = [];
  inv_active : exists f, d !! log_name (current_gen st) = Some f /\ writer_pos (writer st) = blen f;
  inv_active_reader : is_Some (readers st !! current_gen st);
  inv_readers : forall g r, readers st !! g = Some r ->
    reader_path r = log_name g /\ is_Some (d !! log_name g) /\ g <= current_gen st;
  inv_fresh : forall g, current_gen st < g <= U64_MAX -> d !! log_name g = None;
  inv_entries : forall k cp, bt_to_map (index st) !! k = Some cp -> entry_ok d (readers st) k cp;
}.

(** ** The compaction loop's state *)

(** The compaction writer holding [buf], its position the buffer's length. *)
Definition cw_of (cg : N) (buf : bytes) : BufWriterWithPos :=
  {| writer_path := log_name cg; writer_buf := buf; writer_pos := blen buf |}.

(** The new entry [cp'] reads, in the compaction file [B], the bytes the
    old entry [cp] read in its own file. *)
Definition copied (d : Dir) (cg : N) (B : bytes) (cp cp' : CommandPos) : Prop :=
  cp_id cp' = cg /\ cp_pos cp' + cp_len cp' <= blen B /\
  exists f, d !! log_name (cp_id cp) = Some f /\
    slice B (cp_pos cp') (cp_len cp') = slice f (cp_pos cp) (cp_len cp).

(** The bytes an entry points at, as [compact] copies them. *)
Definition chunk (d : Dir) (cp : CommandPos) : bytes :=
  slice (default [] (d !! log_name (cp_id cp))) (cp_pos cp) (cp_len cp).

(** What [compact] leaves on disk: the live records copied into
    generation [cur + 1] in key order, an empty active file [cur + 2], the
    files of the old readers unlinked, every other file as it was, and
    readers on the two new generations only. *)
Record compacted (st : KvStore) (d : Dir) (st' : KvStore) (d' : Dir) : Prop := {
  cmp_copy : d' !! log_name (current_gen st + 1) = Some (index st ≫= (fun e => chunk d e.2));
  cmp_active : d' !! log_name (current_gen st + 2) = Some [];
  cmp_stale : forall g, is_Some (readers st !! g) -> d' !! log_name g = None;
  cmp_other : forall n, n <> log_name (current_gen st + 1) -> n <> log_name (current_gen st + 2) ->
    (forall g, is_Some (readers st !! g) -> n <> log_name g) -> d' !! n = d !! n;
  cmp_readers : forall g, is_Some (readers st' !! g) <->
    g = current_gen st + 1 \/ g = current_gen st + 2;
}.

(** Readers that read the same files as [rs0], at any positions. *)
Definition same_files (rs0 rs : gmap N BufReaderWithPos) : Prop :=
  reader_path <$> rs = reader_path <$> rs0.

(** The store [open] builds in an empty directory: generation 1, one
    empty log file, no entries. *)
Definition fresh_store : KvStore :=
  {| readers := {[1 := {| reader_path := log_name 1; reader_pos := 0 |}]};
     writer := writer_new (log_name 1); current_gen := 1; index := [];
     uncompacted := 0 |}.

Definition fresh_dir : Dir := {[log_name 1 := []]}.

(** The fresh store after [set "a" "1"]. *)
Definition one_state : KvStore * Dir :=
  match set fresh_store fresh_dir (bstr "a") (bstr "1") with
  | Ok s => s
  | Err _ => (fresh_store, fresh_dir)
  end.

(** ** Lemmas on files, entries and the view *)

Lemma log_name_inj g1 g2 :
  g1 <= U64_MAX -> g2 <= U64_MAX -> log_name g1 = log_name g2 -> g1 = g2.
Proof.
  intros H1 H2 E. pose proof (gen_of_log_name_spec g1 H1) as G.
  rewrite E, gen_of_log_name_spec in G by done. congruence.
Qed.

Lemma entry_ok_value d rs k cp :
  entry_ok d rs k cp -> exists v, entry_value d cp = Some v.
Proof.
  intros [_ (f & v & Hf & _ & Hs)]. exists v. unfold entry_value.
  rewrite Hf. cbn [mbind option_bind]. by rewrite Hs.
Qed.

(** Appending to a file keeps every entry and what it reads. *)
Lemma entry_ok_append d rs n f x k cp :
  d !! n = Some f -> entry_ok d rs k cp ->
  entry_ok (<[n := f ++ x]> d) rs k cp /\
  entry_value (<[n := f ++ x]> d) cp = entry_value d cp.
Proof.
  intros Hn [Hr (f' & v & Hf' & Hb & Hs)]. unfold entry_value.
  destruct (decide (n = log_name (cp_id cp))) as [E|Hne].
  - rewrite <- E in Hf' |- *. rewrite Hn in Hf'. injection Hf' as <-. rewrite lookup_insert_eq, Hn.
    cbn [mbind option_bind]. rewrite slice_app_l by done.
    split; [|done]. split; [done|]. exists (f ++ x), v.
    rewrite <- E, lookup_insert_eq, slice_app_l, blen_app by done. split_and!; [done|lia|done].
  - rewrite lookup_insert_ne by done. split; [|done]. split; [done|].
    exists f', v. by rewrite lookup_insert_ne.
Qed.

Lemma writer_flush_some d w f :
  d !! writer_path w = Some f ->
  writer_flush d w = (<[writer_path w := f ++ writer_buf w]> d,
    {| writer_path := writer_path w; writer_buf := []; writer_pos := writer_pos w |}).
Proof. intros H. unfold writer_flush. by rewrite H. Qed.

(** The record appended at the end of a file decodes to itself. *)
Lemma entry_ok_appended d rs n f k v gen :
  log_name gen = n -> is_Some (rs !! gen) ->
  let cp := {| cp_id := gen; cp_pos := blen f; cp_len := blen (encode_op (OpSet k v)) |} in
  entry_ok (<[n := f ++ encode_op (OpSet k v)]> d) rs k cp /\
  entry_value (<[n := f ++ encode_op (OpSet k v)]> d) cp = Some v.
Proof.
  intros <- Hr cp. unfold entry_ok, entry_at, entry_value. cbn [cp_id cp_pos cp_len cp].
  rewrite lookup_insert_eq. cbn [mbind option_bind].
  rewrite slice_app_end, from_slice_encode_spec.
  split; [|done]. split; [done|]. exists (f ++ encode_op (OpSet k v)), v.
  rewrite blen_app, slice_app_end, from_slice_encode_spec. split_and!; [done|lia|done].
Qed.

(** Moving a reader (same file, another position) keeps the invariant. *)
Lemma store_inv_move_reader st d g r r' :
  store_inv st d -> readers st !! g = Some r -> reader_path r' = reader_path r ->
  store_inv (with_readers st (<[g := r']> (readers st))) d.
Proof.
  intros [] Hr Hp. split; cbn [readers index writer current_gen with_readers]; try done.
  - rewrite lookup_insert_is_Some'. by right.
  - intros g' r''. rewrite lookup_insert_Some.
    intros [[<- <-]|[_ H]]; [rewrite Hp|]; eauto.
  - intros k cp Hk. destruct (inv_entries0 k cp Hk) as [Hr' He].
    split; [|done]. rewrite lookup_insert_is_Some'. by right.
Qed.

(** ** [get] *)

(** [get] reads back what [view] says the key is bound to; it moves one
    reader and keeps the invariant and the index. *)
Lemma get_view_spec st d k :
  store_inv st d ->
  exists st', get st d k = Ok (view st d !! k, st') /\
    store_inv st' d /\ index st' = index st /\ current_gen st' = current_gen st /\
    (forall g, is_Some (readers st !! g) -> is_Some (readers st' !! g)).
Proof.
  intros Hinv. pose proof Hinv as [Hwf _ _ _ _ _ Hrd _ Hent].
  unfold get, view. rewrite bt_get_spec, lookup_omap by done.
  destruct (bt_to_map (index st) !! k) as [cp|] eqn:Hk; [|by exists st].
  destruct (Hent k cp Hk) as [[r Hr] (f & v & Hf & Hb & Hs)].
  destruct (Hrd _ _ Hr) as [Hp _].
  cbn [mbind option_bind]. unfold entry_value, reader_read_take, file_open, reader_seek.
  rewrite Hr, Hf. cbn [res_bind of_option reader_path reader_pos mbind option_bind].
  rewrite Hp, Hf. cbn [res_bind of_option]. rewrite Hs.
  eexists. split; [reflexivity|]. split_and!; [by eapply store_inv_move_reader|done|done|].
  intros g. cbn [readers with_readers]. rewrite lookup_insert_is_Some'. by right.
Qed.

(** C8: [get] reads back what [view] says the key is bound to; it moves one
    reader and keeps the invariant and the index. *)
Theorem get_view st d k :
  store_inv st d ->
  exists st', get st d k = Ok (view st d !! k, st') /\
    store_inv st' d /\ index st' = index st /\ current_gen st' = current_gen st.
Proof. intros Hinv. destruct (get_view_spec st d k Hinv) as (st' & ? & ? & ? & ? & _). by exists st'. Qed.

(** ** Appending to the active file *)

Section Append.
Context (st : KvStore) (d : Dir) (f : bytes).
Hypothesis Hinv : store_inv st d.
Hypothesis Hf : d !! log_name (current_gen st) = Some f.

(** The active file after [x] is appended to it. *)
Let d' x := <[log_name (current_gen st) := f ++ x]> d.

(** Writing [x] through the store's writer and flushing appends [x] to
    the active file; the writer's position is the file's new length. *)
Lemma flush_active x :
  writer_flush d (writer_write (writer st) x) =
  (d' x, {| writer_path := log_name (current_gen st); writer_buf := [];
            writer_pos := blen f + blen x |}).
Proof.
  destruct Hinv as [_ _ Hwp Hwb [f' [Hf' Hpos]] _ _ _ _].
  rewrite Hf in Hf'. injection Hf' as <-.
  rewrite (writer_flush_some d _ f); cbn [writer_path writer_buf writer_pos writer_write];
    rewrite ?Hwb, ?Hwp, ?Hpos; done.
Qed.

(** The entries of the index read the same values after the append. *)
Lemma view_append x : omap (entry_value (d' x)) (bt_to_map (index st)) = view st d.
Proof.
  apply omap_ext. intros k cp Hk.
  eapply entry_ok_append; [done|]. by apply (inv_entries _ _ Hinv).
Qed.

Lemma entries_append x k cp :
  bt_to_map (index st) !! k = Some cp -> entry_ok (d' x) (readers st) k cp.
Proof. intros Hk. eapply entry_ok_append; [done|]. by apply (inv_entries _ _ Hinv). Qed.

(** The invariant after an append, for a new index whose entries hold. *)
Lemma store_inv_append x idx u :
  bt_wf idx ->
  (forall k cp, bt_to_map idx !! k = Some cp -> entry_ok (d' x) (readers st) k cp) ->
  store_inv {| readers := readers st;
               writer := {| writer_path := log_name (current_gen st); writer_buf := [];
                            writer_pos := blen f + blen x |};
               current_gen := current_gen st; index := idx; uncompacted := u |} (d' x).
Proof.
  destruct Hinv as [_ Hmax _ _ _ Har Hrd Hfr _]. intros Hwf Hent.
  split; cbn [readers index writer current_gen uncompacted writer_path writer_buf writer_pos];
    try done.
  - exists (f ++ x). unfold d'. by rewrite lookup_insert_eq, blen_app.
  - intros g r Hg. destruct (Hrd g r Hg) as (? & ? & ?). split_and!; [done| |done].
    unfold d'. rewrite lookup_insert_is_Some'. by right.
  - intros g Hg. unfold d'. rewrite lookup_insert_ne; [by apply Hfr|].
    intros E. apply log_name_inj in E; lia.
Qed.

End Append.

(** ** [set] *)

(** The append step of [set]: the record is written and flushed to the
    active file, the index points the key at it; the invariant holds, the
    view binds the key to the value, and the dead bytes grow by the
    length of the entry replaced.  What remains is the threshold test. *)
Lemma set_append st d k v :
  store_inv st d ->
  exists st1 d1,
    set st d k v = (if (COMPACTION_THRESHOLD <? uncompacted st1)%N
                    then compact st1 d1 else Ok (st1, d1)) /\
    store_inv st1 d1 /\ view st1 d1 = <[k:=v]> (view st d) /\
    current_gen st1 = current_gen st /\ readers st1 = readers st /\
    uncompacted st1 = uncompacted st + old_len (bt_to_map (index st) !! k) /\
    exists f, d !! log_name (current_gen st) = Some f /\
      d1 = <[log_name (current_gen st) := f ++ encode_op (OpSet k v)]> d.
Proof.
  intros Hinv. pose proof Hinv as [Hwf _ _ _ [f [Hf Hpos]] Har _ _ _].
  unfold set. rewrite Hpos, (flush_active st d f) by done. cbn [writer_pos].
  replace (blen f + blen (encode_op (OpSet k v)) - blen f)
    with (blen (encode_op (OpSet k v))) by lia.
  set (cp := {| cp_id := current_gen st; cp_pos := blen f;
               cp_len := blen (encode_op (OpSet k v)) |}).
  destruct (bt_insert_spec k cp (index st) Hwf) as (Hwf' & Hmap & Hold).
  destruct (bt_insert k cp (index st)) as [idx old] eqn:Ei. cbn [fst snd] in Hwf', Hmap, Hold.
  destruct (entry_ok_appended d (readers st) _ f k v (current_gen st) eq_refl Har) as [Hnew Hval].
  eexists _, _. split; [reflexivity|]. cbn [readers index current_gen uncompacted].
  rewrite Hold. split_and!; try done.
  - apply store_inv_append; [done|done|]. intros j cp' Hj. rewrite Hmap in Hj.
    apply lookup_insert_Some in Hj as [[<- <-]|[Hne Hj]]; [done|].
    by apply entries_append.
  - unfold view. cbn [index]. rewrite Hmap, (omap_insert_Some _ _ _ _ v) by done.
    by rewrite (view_append st d f).
  - by exists f.
Qed.

(** ** [remove] *)

(** Under the invariant a key is in the view exactly when it is indexed. *)
Lemma view_lookup_index st d k :
  store_inv st d -> is_Some (view st d !! k) <-> is_Some (bt_to_map (index st) !! k).
Proof.
  intros Hinv. unfold view. rewrite lookup_omap.
  destruct (bt_to_map (index st) !! k) as [cp|] eqn:Hk; cbn [mbind option_bind]; [|done].
  split; [done|]. intros _.
  destruct (entry_ok_value _ _ _ _ (inv_entries _ _ Hinv k cp Hk)) as [v ->]. done.
Qed.

(** [remove] of a present key appends the tombstone and deletes the key
    from the view, keeping the invariant; it leaves [uncompacted]
    unchanged. *)
Lemma remove_view_spec st d k :
  store_inv st d -> is_Some (view st d !! k) ->
  exists st' d', remove st d k = Ok (st', d') /\ store_inv st' d' /\
    view st' d' = delete k (view st d) /\
    current_gen st' = current_gen st /\ uncompacted st' = uncompacted st /\
    readers st' = readers st /\
    exists f, d !! log_name (current_gen st) = Some f /\
      d' = <[log_name (current_gen st) := f ++ encode_op (OpRm k)]> d.
Proof.
  intros Hinv Hv. apply view_lookup_index in Hv as [cp Hk]; [|done].
  pose proof Hinv as [Hwf _ _ _ [f [Hf _]] _ _ _ _].
  unfold remove. rewrite bt_get_spec, Hk by done.
  rewrite (flush_active st d f) by done.
  destruct (bt_remove_spec k (index st) Hwf) as (Hwf' & Hmap & Hold).
  destruct (bt_remove k (index st)) as [idx old] eqn:Ei. cbn [fst snd] in Hwf', Hmap, Hold.
  rewrite Hold, Hk. cbn [res_bind of_option].
  eexists _, _. split; [reflexivity|]. cbn [index current_gen uncompacted].
  split_and!; try done.
  - apply store_inv_append; [done|done|]. intros j cp' Hj. rewrite Hmap in Hj.
    apply lookup_delete_Some in Hj as [_ Hj]. by apply entries_append.
  - unfold view. cbn [index]. by rewrite Hmap, omap_delete, (view_append st d f).
  - by exists f.
Qed.

(** C9: [remove] of a present key deletes the key from the view, keeping
    the invariant, by appending the tombstone [Rm k] to the active log
    file and nothing else; it leaves the generation and [uncompacted]
    unchanged. *)
Theorem remove_view st d k :
  store_inv st d -> is_Some (view st d !! k) ->
  exists st' d', remove st d k = Ok (st', d') /\ store_inv st' d' /\
    view st' d' = delete k (view st d) /\
    current_gen st' = current_gen st /\ uncompacted st' = uncompacted st /\
    exists f, d !! log_name (current_gen st) = Some f /\
      d' = <[log_name (current_gen st) := f ++ encode_op (OpRm k)]> d.
Proof.
  intros Hinv Hk. destruct (remove_view_spec st d k Hinv Hk) as (st' & d' & ? & ? & ? & ? & ? & _ & ?).
  by exists st', d'.
Qed.

(** [remove] of an absent key is the error ["UH"] and changes nothing. *)
Lemma remove_absent_spec st d k :
  store_inv st d -> view st d !! k = None -> remove st d k = Err (Msg "UH").
Proof.
  intros Hinv Hv. unfold remove. rewrite bt_get_spec by apply Hinv.
  destruct (bt_to_map (index st) !! k) eqn:Hk; [|done].
  assert (is_Some (view st d !! k)) as [? H] by (apply view_lookup_index; eauto).
  by rewrite Hv in H.
Qed.

(** C18: [remove] of an absent key is the error ["UH"] and changes nothing. *)
Theorem remove_absent st d k :
  store_inv st d -> view st d !! k = None -> remove st d k = Err (Msg "UH").
Proof. exact (remove_absent_spec st d k). Qed.

(** ** The copy loop of [compact] *)

Section CopyLoop.
Context (d : Dir) (cg : N) (rs0 : gmap N BufReaderWithPos).
Hypothesis Hpaths : forall g r, rs0 !! g = Some r -> reader_path r = log_name g.

Lemma same_files_lookup rs g r :
  same_files rs0 rs -> rs !! g = Some r -> reader_path r = log_name g.
Proof.
  intros Hs Hr. apply (f_equal (.!! g)) in Hs. rewrite !lookup_fmap, Hr in Hs.
  destruct (rs0 !! g) as [r0|] eqn:Hr0; [|done]. injection Hs as ->. eauto.
Qed.

(** One turn of the loop: the record is copied to the end of the buffer. *)
Lemma compact_entry_step rs buf cp f :
  same_files rs0 rs -> is_Some (rs0 !! cp_id cp) -> d !! log_name (cp_id cp) = Some f ->
  exists rs',
    compact_entry d cg (rs, cw_of cg buf, blen buf) cp =
      Ok ((rs', cw_of cg (buf ++ slice f (cp_pos cp) (cp_len cp)),
           blen (buf ++ slice f (cp_pos cp) (cp_len cp))),
          {| cp_id := cg; cp_pos := blen buf;
             cp_len := blen (slice f (cp_pos cp) (cp_len cp)) |}) /\
    same_files rs0 rs'.
Proof.
  intros Hs [r0 Hr0] Hf.
  assert (is_Some (rs !! cp_id cp)) as [r Hr].
  { apply (f_equal (.!! cp_id cp)) in Hs. rewrite !lookup_fmap, Hr0 in Hs.
    by destruct (rs !! cp_id cp). }
  pose proof (same_files_lookup _ _ _ Hs Hr) as Hp.
  set (r' := if decide (cp_pos cp <> reader_pos r) then reader_seek r (cp_pos cp) else r).
  assert (reader_path r' = log_name (cp_id cp) /\ reader_pos r' = cp_pos cp) as [Hp' Hq'].
  { subst r'. case_decide; [split; cbn [reader_path reader_pos reader_seek]; done|].
    split; [done|]. destruct (decide (reader_pos r = cp_pos cp)); [done|]. congruence. }
  eexists. split; [unfold compact_entry; rewrite Hr; cbn [res_bind of_option]; fold r'|].
  - unfold reader_read_take, file_open. rewrite Hp', Hf, Hq'. cbn [res_bind of_option].
    unfold writer_write, cw_of. cbn [writer_path writer_buf writer_pos].
    by rewrite blen_app.
  - unfold same_files. rewrite fmap_insert. cbn [reader_path].
    rewrite <- Hp, insert_id; [done|]. by rewrite lookup_fmap, Hr.
Qed.

(** The whole loop: the records of [m] are copied, in key order, after
    [buf], and every new entry reads what the old one read. *)
Lemma compact_loop m :
  Forall (fun e => is_Some (rs0 !! cp_id e.2) /\ is_Some (d !! log_name (cp_id e.2))) m ->
  forall rs buf, same_files rs0 rs ->
  exists rs' buf' m',
    bt_values_mut (compact_entry d cg) (rs, cw_of cg buf, blen buf) m =
      Ok ((rs', cw_of cg (buf ++ buf'), blen (buf ++ buf')), m') /\
    same_files rs0 rs' /\ bt_rel (copied d cg (buf ++ buf')) m m' /\
    buf' = m ≫= (fun e => chunk d e.2).
Proof.
  induction m as [|[k cp] m IH]; intros Hm rs buf Hs.
  { exists rs, [], []. rewrite app_nil_r. split_and!; [done|done|constructor|done]. }
  apply Forall_cons in Hm as [[Hr [f Hf]] Hm]. cbn [snd] in Hr, Hf.
  destruct (compact_entry_step rs buf cp f Hs Hr Hf) as [rs1 [Hstep Hs1]].
  set (data := slice f (cp_pos cp) (cp_len cp)) in *.
  destruct (IH Hm rs1 (buf ++ data) Hs1) as (rs' & buf' & m' & Hloop & Hs' & Hrel & Hbuf).
  exists rs', (data ++ buf'),
    ((k, {| cp_id := cg; cp_pos := blen buf; cp_len := blen data |}) :: m').
  rewrite (app_assoc buf data buf'). cbn [bt_values_mut]. rewrite Hstep.
  cbn [res_bind]. rewrite Hloop. cbn [res_bind].
  split_and!; [done|done| |].
  2: { rewrite Hbuf, bind_cons. unfold chunk. cbn [snd]. by rewrite Hf. }
  constructor; [|done].
  split; [done|]. unfold copied. cbn [snd cp_id cp_pos cp_len]. split_and!; [done| |].
  - rewrite !blen_app. lia.
  - exists f. split; [done|]. by rewrite <- app_assoc, slice_app_exact.
Qed.

End CopyLoop.

(** The stale loop: each generation's reader is dropped and its file
    unlinked; it succeeds when the files exist and are distinct. *)
Lemma remove_stale_ok gens rs d :
  NoDup gens -> Forall (fun g => g <= U64_MAX /\ is_Some (d !! log_name g)) gens ->
  exists rs' d', remove_stale gens rs d = Ok (rs', d') /\
    (forall g, rs' !! g = if decide (g ∈ gens) then None else rs !! g) /\
    (forall n, d' !! n = if decide (n ∈ log_name <$> gens) then None else d !! n).
Proof.
  revert rs d. induction gens as [|g gens IH]; intros rs d Hnd Hex.
  { exists rs, d. split_and!; [done| |]; intros; by rewrite decide_False by set_solver. }
  apply NoDup_cons in Hnd as [Hg Hnd]. apply Forall_cons in Hex as [[Hmax [f Hf]] Hex].
  destruct (IH (delete g rs) (delete (log_name g) d)) as (rs' & d' & Hrun & Hrs & Hd);
    [done| |].
  { rewrite Forall_forall in Hex |- *. intros g' Hin. destruct (Hex g' Hin) as [Hm' Hs'].
    split; [done|]. rewrite lookup_delete_ne; [done|].
    intros E. apply log_name_inj in E; [|done..]. by subst g'. }
  exists rs', d'. cbn [remove_stale]. unfold remove_file. rewrite Hf.
  cbn [res_bind]. split_and!; [done| |].
  - intros x. rewrite Hrs. destruct (decide (x = g)) as [->|Hne].
    + rewrite lookup_delete_eq. repeat case_decide; set_solver.
    + rewrite lookup_delete_ne by done. repeat case_decide; set_solver.
  - intros n. rewrite Hd. destruct (decide (n = log_name g)) as [->|Hne].
    + rewrite lookup_delete_eq. repeat case_decide; set_solver.
    + rewrite lookup_delete_ne by done. rewrite fmap_cons. repeat case_decide; set_solver.
Qed.

(** ** [compact] *)

Lemma log_name_ne g h : g <= U64_MAX -> h <= U64_MAX -> g <> h -> log_name g <> log_name h.
Proof. intros Hg Hh Hne E. by apply Hne, log_name_inj. Qed.

(** [new_log_file] on a generation with no file yet. *)
Lemma new_log_file_fresh d g rs :
  d !! log_name g = None ->
  new_log_file d g rs =
    Ok (writer_new (log_name g),
        <[g := {| reader_path := log_name g; reader_pos := 0 |}]> rs,
        <[log_name g := []]> d).
Proof.
  intros H. unfold new_log_file, file_create_append, reader_new, file_open.
  by rewrite H, lookup_insert_eq.
Qed.

(** Flushing a writer whose buffer is empty leaves the files as they are. *)
Lemma writer_flush_clean d w f :
  d !! writer_path w = Some f -> writer_buf w = [] ->
  writer_flush d w = (d, {| writer_path := writer_path w; writer_buf := [];
                            writer_pos := writer_pos w |}).
Proof.
  intros Hf Hb. rewrite (writer_flush_some d w f Hf), Hb, app_nil_r.
  by rewrite insert_id.
Qed.

(** The stale loop of [compact]: with readers for the old generations
    and the two new ones, it drops exactly the old ones and unlinks
    exactly their files. *)
Lemma compact_stale (cur : N) (old rs : gmap N BufReaderWithPos) (d : Dir) :
  cur + 1 <= U64_MAX ->
  (forall g, is_Some (old !! g) -> g <= cur /\ is_Some (d !! log_name g)) ->
  (forall g, is_Some (rs !! g) <-> g = cur + 1 \/ g = cur + 2 \/ is_Some (old !! g)) ->
  exists rs' d',
    remove_stale (filter (fun g => g < cur + 1) (elements (dom rs))) rs d = Ok (rs', d') /\
    (forall g, is_Some (old !! g) -> d' !! log_name g = None) /\
    (forall n, (forall g, is_Some (old !! g) -> n <> log_name g) -> d' !! n = d !! n) /\
    (forall g r, rs' !! g = Some r <-> (g = cur + 1 \/ g = cur + 2) /\ rs !! g = Some r).
Proof.
  intros Hmax Hold Hin.
  set (stale := filter (fun g => g < cur + 1) (elements (dom rs))).
  assert (Hstale : forall g, g ∈ stale <-> is_Some (old !! g)).
  { intros g. subst stale. rewrite list_elem_of_filter, elem_of_elements, elem_of_dom, Hin.
    split; [intros [? [?|[?|?]]]; [lia|lia|done]|].
    intros H. pose proof (Hold g H). naive_solver lia. }
  destruct (remove_stale_ok stale rs d) as (rs' & d' & Hrun & Hrs & Hd).
  { apply NoDup_filter, NoDup_elements. }
  { apply Forall_forall. intros g Hg%Hstale. pose proof (Hold g Hg). split; [lia|tauto]. }
  exists rs', d'. split_and!; [done| | |].
  - intros g Hg. rewrite Hd, decide_True; [done|]. apply list_elem_of_fmap. exists g.
    split; [done|]. by apply Hstale.
  - intros n Hn. rewrite Hd, decide_False; [done|].
    intros (g' & -> & Hg')%list_elem_of_fmap. by apply (Hn g'); [apply Hstale|].
  - intros g r. rewrite Hrs. case_decide as Hg; rewrite Hstale in Hg.
    + split; [done|]. intros [[-> | ->] _]; apply Hold in Hg; lia.
    + split; [|by intros [_ ?]]. intros Hr. split; [|done].
      destruct (proj1 (Hin g) (mk_is_Some _ _ Hr)) as [?|[?|?]]; tauto.
Qed.

(** A copied entry reads, in the compaction file, what the old entry read. *)
Lemma copied_entry_ok d d' rs' cg B k cp cp' :
  d' !! log_name cg = Some B -> is_Some (rs' !! cg) ->
  copied d cg B cp cp' -> (exists rs, entry_ok d rs k cp) ->
  entry_ok d' rs' k cp' /\ entry_value d' cp' = entry_value d cp.
Proof.
  intros HB Hr (Hid & Hb & f0 & Hf0 & Hsl) [rs [_ (f1 & v & Hf1 & _ & Hs1)]].
  rewrite Hf1 in Hf0. injection Hf0 as <-.
  unfold entry_ok, entry_at, entry_value. rewrite Hid, HB, Hf1.
  cbn [mbind option_bind]. rewrite Hsl, Hs1. split; [|done].
  split; [done|]. exists B, v. split_and!; [done|done|]. by rewrite Hsl.
Qed.

(** The copy phase of [compact]: the live entries are copied, in order,
    into the compaction file, whose readers are the fresh ones. *)
Section CompactCopy.
Context (st : KvStore) (d : Dir).
Hypothesis Hinv : store_inv st d.
Hypothesis Hmax : current_gen st + 2 <= U64_MAX.

Lemma compact_old_files g :
  is_Some (readers st !! g) -> g <= current_gen st /\ is_Some (d !! log_name g).
Proof. intros [r Hr]. pose proof Hinv as [_ _ _ _ _ _ Hrd _ _]. by apply Hrd in Hr as (_ & ? & ?). Qed.

Lemma compact_index_gen k cp : (k, cp) ∈ index st -> cp_id cp <= current_gen st.
Proof.
  intros Hin. pose proof Hinv as [Hwf _ _ _ _ _ _ _ Hent].
  apply compact_old_files, (Hent k cp (bt_wf_elem _ _ _ Hwf Hin)).
Qed.

Lemma compact_fresh_paths g r :
  <[current_gen st + 1 := {| reader_path := log_name (current_gen st + 1); reader_pos := 0 |}]>
    (<[current_gen st + 2 := {| reader_path := log_name (current_gen st + 2); reader_pos := 0 |}]>
       (readers st)) !! g = Some r -> reader_path r = log_name g.
Proof.
  pose proof Hinv as [_ _ _ _ _ _ Hrd _ _]. rewrite !lookup_insert_Some.
  intros [[<- <-]|[_ [[<- <-]|[_ H]]]]; [done|done|]. by apply Hrd in H as [? _].
Qed.

Lemma compact_copy :
  let cur := current_gen st in
  let d4 := <[log_name (cur + 1):=[]]> (<[log_name (cur + 2):=[]]> d) in
  let rs3 := <[cur + 1 := {| reader_path := log_name (cur + 1); reader_pos := 0 |}]>
               (<[cur + 2 := {| reader_path := log_name (cur + 2); reader_pos := 0 |}]>
                  (readers st)) in
  let B := index st ≫= (fun e => chunk d e.2) in
  exists rs' m',
    bt_values_mut (compact_entry d4 (cur + 1)) (rs3, cw_of (cur + 1) [], blen (@nil ascii)) (index st)
      = Ok ((rs', cw_of (cur + 1) B, blen B), m') /\
    same_files rs3 rs' /\ bt_rel (copied d (cur + 1) B) (index st) m'.
Proof.
  intros cur d4 rs3 B. pose proof Hinv as [Hwf _ _ _ _ _ _ _ Hent].
  assert (Hd4 : forall g, g <= cur -> d4 !! log_name g = d !! log_name g).
  { intros g Hg. subst d4. by rewrite !lookup_insert_ne by (apply log_name_ne; lia). }
  destruct (compact_loop d4 (cur + 1) rs3 compact_fresh_paths (index st)) with (rs := rs3) (buf := @nil ascii)
    as (rs' & B' & m' & Hloop & Hs' & Hrel & HBc); [|done|].
  { apply Forall_forall. intros [k cp] Hin. cbn [snd].
    destruct (Hent k cp (bt_wf_elem _ _ _ Hwf Hin)) as [[r Hr] _].
    pose proof (compact_index_gen k cp Hin).
    rewrite Hd4 by done. split; [|by apply compact_old_files; eexists].
    subst rs3. rewrite !lookup_insert_ne by lia. eauto. }
  assert (HBd : B' = B).
  { rewrite HBc. apply Forall_bind_ext, Forall_forall. intros [k cp] Hin.
    unfold chunk. cbn [snd]. by rewrite Hd4 by (by eapply compact_index_gen). }
  cbn [app] in Hloop, Hrel. rewrite HBd in Hloop, Hrel. exists rs', m'. split_and!; [done|done|].
  eapply bt_rel_impl; [exact Hrel|]. intros k cp cp' Hk (Hid & Hb & f0 & Hf0 & Hsl).
  rewrite Hd4 in Hf0 by (by eapply compact_index_gen). split_and!; eauto.
Qed.

(** The run of [compact]: the state and the files it leaves. *)
Lemma compact_run :
  let cur := current_gen st in
  exists rs m' d',
    compact st d = Ok ({| readers := rs; writer := writer_new (log_name (cur + 2));
                          current_gen := cur + 2; index := m'; uncompacted := 0 |}, d') /\
    bt_rel (copied d (cur + 1) (index st ≫= (fun e => chunk d e.2))) (index st) m' /\
    d' !! log_name (cur + 1) = Some (index st ≫= (fun e => chunk d e.2)) /\
    d' !! log_name (cur + 2) = Some [] /\
    (forall g, is_Some (readers st !! g) -> d' !! log_name g = None) /\
    (forall n, n <> log_name (cur + 1) -> n <> log_name (cur + 2) ->
       (forall g, is_Some (readers st !! g) -> n <> log_name g) -> d' !! n = d !! n) /\
    (forall g r, rs !! g = Some r -> (g = cur + 1 \/ g = cur + 2) /\ reader_path r = log_name g) /\
    (forall g, g = cur + 1 \/ g = cur + 2 -> is_Some (rs !! g)).
Proof.
  intros cur. pose proof Hinv as [_ _ Hwp Hwb [f [Hf Hpos]] _ _ Hfr _].
  destruct compact_copy as (rs' & m' & Hloop & Hs' & Hrel). fold cur in Hloop, Hs', Hrel.
  unfold compact, checked_add. fold cur.
  rewrite (proj2 (N.leb_le (cur + 1) U64_MAX)), (proj2 (N.leb_le (cur + 2) U64_MAX)) by lia.
  cbn [of_option res_bind].
  rewrite new_log_file_fresh by (apply Hfr; lia). cbn [res_bind].
  rewrite (writer_flush_clean _ _ f);
    [|by rewrite Hwp, lookup_insert_ne by (apply log_name_ne; lia)|done].
  rewrite new_log_file_fresh
    by (rewrite lookup_insert_ne by (apply log_name_ne; lia); apply Hfr; lia).
  cbn [res_bind].
  change (_, writer_new (log_name (cur + 1)), 0) with
    (<[cur + 1 := {| reader_path := log_name (cur + 1); reader_pos := 0 |}]>
       (<[cur + 2 := {| reader_path := log_name (cur + 2); reader_pos := 0 |}]> (readers st)),
     cw_of (cur + 1) [], blen (@nil ascii)).
  rewrite Hloop. cbn [res_bind].
  rewrite (writer_flush_some _ _ []) by apply lookup_insert_eq.
  cbn [writer_path writer_buf cw_of app].
  set (B := index st ≫= (fun e => chunk d e.2)) in *.
  assert (Hin : forall g, is_Some (rs' !! g) <->
                g = cur + 1 \/ g = cur + 2 \/ is_Some (readers st !! g)).
  { intros g. rewrite <- !elem_of_dom, <- (dom_fmap_L reader_path rs'), Hs', dom_fmap_L.
    rewrite !elem_of_dom, !lookup_insert_is_Some'. naive_solver. }
  destruct (compact_stale cur (readers st) rs'
              (<[log_name (cur + 1):=B]> (<[log_name (cur + 1):=[]]> (<[log_name (cur + 2):=[]]> d))))
    as (rs'' & d6 & Hrun & Hgone & Hkeep & Hrs); [lia| |done|].
  { intros g Hg. destruct (compact_old_files g Hg) as [Hle Hfile]. split; [done|].
    rewrite !lookup_insert_ne by (apply log_name_ne; lia). done. }
  rewrite Hrun. cbn [res_bind].
  assert (Hnot_old : forall g, cur < g <= U64_MAX ->
                     forall g', is_Some (readers st !! g') -> log_name g <> log_name g').
  { intros g Hg g' Hg'. pose proof (proj1 (compact_old_files g' Hg')). apply log_name_ne; lia. }
  exists rs'', m', d6. split_and!; [done|done| | |done| | |].
  - rewrite Hkeep by (by apply Hnot_old; lia). by rewrite lookup_insert_eq.
  - rewrite Hkeep by (by apply Hnot_old; lia).
    rewrite !lookup_insert_ne by (apply log_name_ne; lia). by rewrite lookup_insert_eq.
  - intros n H1 H2 H3. rewrite Hkeep by done. by rewrite !lookup_insert_ne.
  - intros g r [Hg Hr]%Hrs. split; [done|].
    eapply same_files_lookup; [exact compact_fresh_paths|exact Hs'|exact Hr].
  - intros g Hg. destruct (proj2 (Hin g)) as [r Hr]; [tauto|]. exists r. by apply Hrs.
Qed.

End CompactCopy.

Section CompactResult.
Context (st : KvStore) (d : Dir) (rs : gmap N BufReaderWithPos)
        (m' : list (bytes * CommandPos)) (d' : Dir).
Hypothesis Hinv : store_inv st d.
Hypothesis Hmax : current_gen st + 2 <= U64_MAX.
Hypothesis Hrel :
  bt_rel (copied d (current_gen st + 1) (index st ≫= (fun e => chunk d e.2))) (index st) m'.
Hypothesis HB :
  d' !! log_name (current_gen st + 1) = Some (index st ≫= (fun e => chunk d e.2)).
Hypothesis HA : d' !! log_name (current_gen st + 2) = Some [].
Hypothesis Hother : forall n, n <> log_name (current_gen st + 1) ->
  n <> log_name (current_gen st + 2) ->
  (forall g, is_Some (readers st !! g) -> n <> log_name g) -> d' !! n = d !! n.
Hypothesis Hrs : forall g r, rs !! g = Some r ->
  (g = current_gen st + 1 \/ g = current_gen st + 2) /\ reader_path r = log_name g.
Hypothesis Hlive : forall g, g = current_gen st + 1 \/ g = current_gen st + 2 -> is_Some (rs !! g).

(** Each new entry is a valid entry of the compaction file reading the
    value of the old one. *)
Lemma compact_entry_ok k cp' :
  bt_to_map m' !! k = Some cp' ->
  exists cp, bt_to_map (index st) !! k = Some cp /\
    entry_ok d' rs k cp' /\ entry_value d' cp' = entry_value d cp.
Proof.
  intros Hk'. pose proof (bt_rel_lookup _ _ _ k Hrel) as Hk. rewrite Hk' in Hk.
  destruct (bt_to_map (index st) !! k) as [cp|] eqn:Hkold; inversion Hk as [? ? Hc|]; subst.
  exists cp. split; [done|].
  eapply copied_entry_ok; [exact HB|by apply Hlive; left|exact Hc|].
  exists (readers st). by apply (inv_entries _ _ Hinv).
Qed.

(** The state [compact] returns satisfies the invariant and has the same view. *)
Lemma compact_result :
  let st' := {| readers := rs; writer := writer_new (log_name (current_gen st + 2));
                current_gen := current_gen st + 2; index := m'; uncompacted := 0 |} in
  store_inv st' d' /\ view st' d' = view st d.
Proof.
  intros st'. subst st'. destruct Hinv as [Hwf _ _ _ _ _ Hrd Hfr _].
  split; [split|]; cbn [index current_gen uncompacted readers writer writer_new
    writer_path writer_buf writer_pos]; try done.
  - by apply (bt_rel_wf _ _ _ Hrel).
  - by exists [].
  - apply Hlive. by right.
  - intros g r [Hg Hr]%Hrs. split_and!; [done| |lia].
    destruct Hg as [-> | ->]; [rewrite HB|rewrite HA]; by eexists.
  - intros g Hg. rewrite Hother; [by apply Hfr; lia|apply log_name_ne; lia..|].
    intros g' [r Hr]. apply Hrd in Hr as (_ & _ & ?). apply log_name_ne; lia.
  - intros k cp' Hk. by destruct (compact_entry_ok k cp' Hk) as (? & ? & ? & ?).
  - apply map_eq. intros k. unfold view. rewrite !lookup_omap. cbn [index].
    destruct (bt_to_map m' !! k) as [cp'|] eqn:Hk'.
    + destruct (compact_entry_ok k cp' Hk') as (cp & -> & _ & ?). done.
    + pose proof (bt_rel_lookup _ _ _ k Hrel) as Hk. rewrite Hk' in Hk. by inversion Hk.
Qed.

End CompactResult.

(** [compact] keeps the invariant and the view; it cannot fail while the
    generation numbers fit in [u64]; on disk it leaves [compacted]. *)
Lemma compact_view_spec st d :
  store_inv st d -> current_gen st + 2 <= U64_MAX ->
  exists st' d', compact st d = Ok (st', d') /\ store_inv st' d' /\
    view st' d' = view st d /\
    current_gen st' = current_gen st + 2 /\ uncompacted st' = 0 /\ compacted st d st' d'.
Proof.
  intros Hinv Hmax.
  destruct (compact_run st d Hinv Hmax) as (rs & m' & d' & Hrun & Hrel & HB & HA & Hgone & Hother & Hrs & Hlive).
  destruct (compact_result st d rs m' d') as [Hinv' Hv]; try done.
  eexists _, d'. split; [exact Hrun|]. split_and!; try done.
  split; cbn [current_gen readers]; try done.
  intros g. split; [intros [r [Hg _]%Hrs]; done|apply Hlive].
Qed.

(** C10: [compact] cannot fail while the generation numbers fit in
    [u64]; it writes the bytes of every live entry, in key order, into
    the compaction file [cur + 1], starts an empty active file [cur + 2],
    unlinks the file of every older generation, resets [uncompacted] and
    keeps the invariant and the view. *)
Theorem compact_view st d :
  store_inv st d -> current_gen st + 2 <= U64_MAX ->
  exists st' d', compact st d = Ok (st', d') /\ store_inv st' d' /\
    view st' d' = view st d /\
    current_gen st' = current_gen st + 2 /\ uncompacted st' = 0 /\
    d' !! log_name (current_gen st + 1) = Some (index st ≫= (fun e => chunk d e.2)) /\
    d' !! log_name (current_gen st + 2) = Some [] /\
    (forall g, is_Some (readers st !! g) -> d' !! log_name g = None).
Proof.
  intros Hinv Hmax. destruct (compact_view_spec st d Hinv Hmax) as (st' & d' & ? & ? & ? & ? & ? & Hc).
  exists st', d'. split_and!; try done; apply Hc.
Qed.

(** [set] binds the key in the view and keeps the invariant, compacting
    when the dead bytes pass the threshold (then [uncompacted] is reset
    and the generation advances by two). *)
Lemma set_view_spec st d k v :
  store_inv st d -> current_gen st + 2 <= U64_MAX ->
  exists st' d', set st d k v = Ok (st', d') /\ store_inv st' d' /\
    view st' d' = <[k:=v]> (view st d) /\
    let u := uncompacted st + old_len (bt_to_map (index st) !! k) in
    if COMPACTION_THRESHOLD <? u
    then uncompacted st' = 0 /\ current_gen st' = current_gen st + 2
    else uncompacted st' = u /\ current_gen st' = current_gen st.
Proof.
  intros Hinv Hmax.
  destruct (set_append st d k v Hinv) as (st1 & d1 & -> & Hinv1 & Hview1 & Hcur & _ & Hunc & _).
  rewrite <- Hunc, <- Hview1. cbv zeta. destruct (COMPACTION_THRESHOLD <? uncompacted st1).
  - destruct (compact_view_spec st1 d1 Hinv1) as (st' & d' & Hc & Hinv' & Hv & Hc' & Hu & _); [lia|].
    exists st', d'. rewrite Hv, Hc', Hcur. auto.
  - exists st1, d1. auto.
Qed.

(** C7: [set] binds the key in the view and keeps the invariant, compacting
    when the dead bytes pass the threshold (then [uncompacted] is reset
    and the generation advances by two). *)
Theorem set_view st d k v :
  store_inv st d -> current_gen st + 2 <= U64_MAX ->
  exists st' d', set st d k v = Ok (st', d') /\ store_inv st' d' /\
    view st' d' = <[k:=v]> (view st d) /\
    let u := uncompacted st + old_len (bt_to_map (index st) !! k) in
    if COMPACTION_THRESHOLD <? u
    then uncompacted st' = 0 /\ current_gen st' = current_gen st + 2
    else uncompacted st' = u /\ current_gen st' = current_gen st.
Proof. exact (set_view_spec st d k v). Qed.

(** ** [open] on an empty directory *)

(** [open] on an empty directory creates [1.log] and an empty store that
    satisfies the invariant. *)
Lemma open_empty_spec :
  open ∅ = Ok (fresh_store, fresh_dir) /\ store_inv fresh_store fresh_dir /\
  view fresh_store fresh_dir = ∅.
Proof.
  split; [vm_compute; reflexivity|]. split; [|done].
  split; cbn [readers writer current_gen index fresh_store writer_new writer_path
    writer_buf writer_pos]; try done.
  - constructor.
  - exists []. split; [apply lookup_singleton_eq|done].
  - intros g r (<- & <-)%lookup_singleton_Some. split_and!; [done| |lia].
    unfold fresh_dir. by rewrite lookup_singleton_eq.
  - intros g Hg. apply lookup_singleton_ne. apply log_name_ne; unfold U64_MAX in *; lia.
Qed.

(** ** Concrete stores *)

Lemma fresh_inv : store_inv fresh_store fresh_dir.
Proof. apply open_empty_spec. Qed.

Lemma one_state_inv :
  store_inv one_state.1 one_state.2 /\ view one_state.1 one_state.2 = {[bstr "a" := bstr "1"]}.
Proof.
  destruct (set_view_spec fresh_store fresh_dir (bstr "a") (bstr "1") fresh_inv)
    as (st & d & Hs & Hinv & Hv & _); [unfold U64_MAX; cbn; lia|].
  unfold one_state. rewrite Hs. cbn [fst snd]. split; [done|].
  rewrite Hv, (proj2 (proj2 open_empty_spec)). apply insert_empty.
Qed.

(** ** Witnesses *)

Lemma get_view_witness :
  store_inv one_state.1 one_state.2 /\
  exists st', get one_state.1 one_state.2 (bstr "a") =
                Ok (view one_state.1 one_state.2 !! bstr "a", st') /\
    store_inv st' one_state.2 /\ index st' = index one_state.1 /\
    current_gen st' = current_gen one_state.1.
Proof. split; [apply one_state_inv|]. apply get_view. apply one_state_inv. Defined.

Lemma set_view_witness :
  store_inv fresh_store fresh_dir /\ current_gen fresh_store + 2 <= U64_MAX /\
  exists st' d', set fresh_store fresh_dir (bstr "a") (bstr "1") = Ok (st', d') /\
    store_inv st' d' /\ view st' d' = <[bstr "a" := bstr "1"]> (view fresh_store fresh_dir) /\
    let u := uncompacted fresh_store + old_len (bt_to_map (index fresh_store) !! bstr "a") in
    if COMPACTION_THRESHOLD <? u
    then uncompacted st' = 0 /\ current_gen st' = current_gen fresh_store + 2
    else uncompacted st' = u /\ current_gen st' = current_gen fresh_store.
Proof.
  split; [apply fresh_inv|]. split; [vm_compute; discriminate|].
  apply set_view; [apply fresh_inv|vm_compute; discriminate].
Defined.

Lemma remove_view_witness :
  store_inv one_state.1 one_state.2 /\ is_Some (view one_state.1 one_state.2 !! bstr "a") /\
  exists st' d', remove one_state.1 one_state.2 (bstr "a") = Ok (st', d') /\
    store_inv st' d' /\ view st' d' = delete (bstr "a") (view one_state.1 one_state.2) /\
    current_gen st' = current_gen one_state.1 /\ uncompacted st' = uncompacted one_state.1 /\
    exists f, one_state.2 !! log_name (current_gen one_state.1) = Some f /\
      d' = <[log_name (current_gen one_state.1) := f ++ encode_op (OpRm (bstr "a"))]> one_state.2.
Proof.
  split; [apply one_state_inv|]. split; [vm_compute; eexists; reflexivity|].
  apply remove_view; [apply one_state_inv|vm_compute; eexists; reflexivity].
Defined.

Lemma remove_absent_witness :
  store_inv fresh_store fresh_dir /\ view fresh_store fresh_dir !! bstr "a" = None /\
  remove fresh_store fresh_dir (bstr "a") = Err (Msg "UH").
Proof.
  split; [apply fresh_inv|]. split; [vm_compute; reflexivity|].
  apply remove_absent; [apply fresh_inv|vm_compute; reflexivity].
Defined.

Lemma compact_view_witness :
  store_inv one_state.1 one_state.2 /\ current_gen one_state.1 + 2 <= U64_MAX /\
  exists st' d', compact one_state.1 one_state.2 = Ok (st', d') /\ store_inv st' d' /\
    view st' d' = view one_state.1 one_state.2 /\
    current_gen st' = current_gen one_state.1 + 2 /\ uncompacted st' = 0 /\
    d' !! log_name (current_gen one_state.1 + 1) =
      Some (index one_state.1 ≫= (fun e => chunk one_state.2 e.2)) /\
    d' !! log_name (current_gen one_state.1 + 2) = Some [] /\
    (forall g, is_Some (readers one_state.1 !! g) -> d' !! log_name g = None).
Proof.
  split; [apply one_state_inv|]. split; [vm_compute; discriminate|].
  apply compact_view; [apply one_state_inv|vm_compute; discriminate].
Defined.

End EngineInv.
