(* ===== verification/Replay.v ===== *)
(** * Replay: what [open] rebuilds from a directory

    The directory stands for the map [dir_view]: the records of its log
    files, generation by generation in ascending order, each file up to
    its first record that does not decode ([log_ops]), applied to the
    empty map.  [load_loop_replay] shows that [load] extends the index the
    way replaying one file extends the map, and [open_view] that [open] on
    a directory whose log names are canonical builds a store satisfying
    [store_inv] whose [view] is [dir_view]. *)

From S2P Require Import KvPrelude LogName Codec Index PosIO Engine EngineInv.
Import LogName Codec Index PosIO KvStore EngineInv.

Module Replay.

Local Open Scope N_scope.

(** One record applied to the map: [Set] binds, [Rm] unbinds. *)
Definition apply_op (m : gmap bytes bytes) (op : Operation) : gmap bytes bytes :=
  match op with
  | OpSet k v => <[k:=v]> m
  | OpRm k => delete k m
  end.

Definition replay (m : gmap bytes bytes) (ops : list Operation) : gmap bytes bytes :=
  foldl apply_op m ops.

(** The contents of the file of generation [g] ([[]] when there is none). *)
Definition file_of (d : Dir) (g : N) : bytes := default [] (d !! log_name g).

Definition replay_gens (d : Dir) (m : gmap bytes bytes) (gens : list N) : gmap bytes bytes :=
  foldl (fun m g => replay m (log_ops (file_of d g))) m gens.

(** The map a directory stands for. *)
Definition dir_view (d : Dir) : gmap bytes bytes := replay_gens d ∅ (sorted_gen_list d).

(** Every name [sorted_gen_list] reads as a generation is the [log_path]
    name of that generation, and the generation is below [u64::MAX]. *)
Definition canonical (d : Dir) : Prop :=
  forall name c g, d !! name = Some c -> gen_of_name name = Some g ->
    name = log_name g /\ g < U64_MAX.

(** A directory holding one log file with one record. *)
Definition sample_dir : Dir := {[log_name 1 := encode_op (OpSet (bstr "a") (bstr "1"))]}.

(** An index under construction: sorted, each entry at a [Set] record of
    its key. *)
Definition idx_ok (d : Dir) (idx : list (bytes * CommandPos)) : Prop :=
  bt_wf idx /\ forall k cp, bt_to_map idx !! k = Some cp -> entry_at d k cp.

Definition idx_view (d : Dir) (idx : list (bytes * CommandPos)) : gmap bytes bytes :=
  omap (entry_value d) (bt_to_map idx).

(** ** [load] *)

Lemma from_slice_nil : from_slice [] = Err JsonError.
Proof. reflexivity. Qed.

Lemma replay_cons m op ops : replay m (op :: ops) = replay (apply_op m op) ops.
Proof. reflexivity. Qed.

(** A record found at [blen p] in the file of [gen] is an entry there. *)
Lemma entry_at_chunk d gen p c rest k v :
  d !! log_name gen = Some (p ++ c ++ rest) -> from_slice c = Ok (OpSet k v) ->
  let cp := {| cp_id := gen; cp_pos := blen p; cp_len := blen c |} in
  entry_at d k cp /\ entry_value d cp = Some v.
Proof.
  intros Hf Hc cp. unfold entry_at, entry_value. cbn [cp_id cp_pos cp_len cp].
  rewrite Hf. cbn [mbind option_bind]. rewrite slice_app_exact, Hc. split; [|done].
  exists (p ++ c ++ rest), v. rewrite !blen_app, slice_app_exact. split_and!; [done|lia|done].
Qed.

Section Load.
Context (d : Dir) (gen : N) (f : bytes).
Hypothesis Hf : d !! log_name gen = Some f.

(** [load]'s loop extends the index as replaying the rest of the file
    extends the map; each new entry belongs to [gen]. *)
Lemma load_loop_replay fuel p s pos idx unc :
  f = p ++ s -> pos = blen p -> (length s <= fuel)%nat -> idx_ok d idx ->
  let idx' := (load_loop fuel gen f s pos idx unc).1 in
  idx_ok d idx' /\ idx_view d idx' = replay (idx_view d idx) (stream_ops fuel s) /\
  (forall k cp, bt_to_map idx' !! k = Some cp -> bt_to_map idx !! k = Some cp \/ cp_id cp = gen).
Proof.
  revert p s pos idx unc. induction fuel as [|fuel IH]; intros p s pos idx unc Hfp -> Hlen Hidx idx'.
  { split_and!; [done|done|auto]. }
  subst idx'. cbn [load_loop stream_ops].
  destruct (stream_next s) as [[[cmd rest]|]|] eqn:Hn; [|split_and!; by auto..].
  destruct (stream_next_chunk_spec _ _ _ Hn) as (c & -> & Hc).
  assert (c <> []) by (intros ->; by rewrite from_slice_nil in Hc).
  replace (blen f - blen rest) with (blen (p ++ c)) by (rewrite Hfp, !blen_app; lia).
  assert (Hf' : d !! log_name gen = Some (p ++ c ++ rest)) by (by rewrite <- Hfp).
  assert (Hfp' : f = (p ++ c) ++ rest) by (by rewrite Hfp, app_assoc).
  destruct Hidx as [Hwf Hent].
  assert (length rest <= fuel)%nat.
  { rewrite length_app in Hlen. destruct c; [done|]. cbn in Hlen. lia. }
  destruct cmd as [k v|k].
  - replace (blen (p ++ c) - blen p) with (blen c) by (rewrite blen_app; lia).
    destruct (entry_at_chunk d gen p c rest k v Hf' Hc) as [Hnew Hval].
    destruct (bt_insert_spec k {| cp_id := gen; cp_pos := blen p; cp_len := blen c |} idx Hwf)
      as (Hwf1 & Hmap & _).
    destruct (bt_insert _ _ idx) as [idx1 old]. cbn [fst snd] in Hwf1, Hmap.
    destruct (IH (p ++ c) rest (blen (p ++ c)) idx1 (unc + old_len old)) as (Hok & Hv & Hor);
      [done|done|done| |].
    { split; [done|]. intros j cp. rewrite Hmap. intros [[<- <-]|[_ ?]]%lookup_insert_Some; auto. }
    split_and!; [done| |].
    + rewrite Hv, replay_cons. cbn [apply_op]. unfold idx_view. rewrite Hmap.
      by rewrite (omap_insert_Some _ _ _ _ v).
    + intros j cp [Hj|Hj]%Hor; [|by right]. rewrite Hmap in Hj.
      apply lookup_insert_Some in Hj as [[<- <-]|[_ ?]]; auto.
  - destruct (bt_remove_spec k idx Hwf) as (Hwf1 & Hmap & _).
    destruct (bt_remove k idx) as [idx1 old]. cbn [fst snd] in Hwf1, Hmap.
    destruct (IH (p ++ c) rest (blen (p ++ c)) idx1
                 (unc + old_len old + (blen (p ++ c) - blen p))) as (Hok & Hv & Hor);
      [done|done|done| |].
    { split; [done|]. intros j cp. rewrite Hmap. intros [_ ?]%lookup_delete_Some. auto. }
    split_and!; [done| |].
    + rewrite Hv, replay_cons. cbn [apply_op]. unfold idx_view. by rewrite Hmap, omap_delete.
    + intros j cp [Hj|Hj]%Hor; [|by right]. rewrite Hmap in Hj.
      apply lookup_delete_Some in Hj as [_ ?]. auto.
Qed.

End Load.

(** [load] on the reader of [gen]: the index grows by the file's records
    and the reader is left at the end of the file. *)
Lemma load_replay d gen f r idx :
  d !! log_name gen = Some f -> reader_path r = log_name gen -> idx_ok d idx ->
  exists idx' unc, load gen d r idx =
    Ok (idx', unc, {| reader_path := log_name gen; reader_pos := blen f |}) /\
    idx_ok d idx' /\ idx_view d idx' = replay (idx_view d idx) (log_ops f) /\
    (forall k cp, bt_to_map idx' !! k = Some cp -> bt_to_map idx !! k = Some cp \/ cp_id cp = gen).
Proof.
  intros Hf Hp Hidx. unfold load, file_open, reader_seek. cbn [reader_path]. rewrite Hp, Hf.
  cbn [res_bind of_option].
  destruct (load_loop_replay d gen f Hf (length f) [] f 0 idx 0) as (Hok & Hv & Hor);
    [done|done|done|done|].
  destruct (load_loop (length f) gen f f 0 idx 0) as [idx' unc] eqn:E.
  exists idx', unc. by split_and!.
Qed.

(** The loop of [open] over the generations [gens]: each file is loaded
    in turn and gets a reader. *)
Lemma open_loop_replay d gens rs idx unc :
  (forall g, g ∈ gens -> is_Some (d !! log_name g)) -> idx_ok d idx ->
  (forall k cp, bt_to_map idx !! k = Some cp -> is_Some (rs !! cp_id cp)) ->
  exists rs' idx' unc', open_loop d gens rs idx unc = Ok (rs', idx', unc') /\
    idx_ok d idx' /\ idx_view d idx' = replay_gens d (idx_view d idx) gens /\
    (forall k cp, bt_to_map idx' !! k = Some cp -> is_Some (rs' !! cp_id cp)) /\
    (forall g, is_Some (rs !! g) \/ g ∈ gens -> is_Some (rs' !! g)) /\
    (forall g r, rs' !! g = Some r -> rs !! g = Some r \/ (g ∈ gens /\ reader_path r = log_name g)).
Proof.
  revert rs idx unc. induction gens as [|g gens IH]; intros rs idx unc Hfiles Hidx Hrd.
  { exists rs, idx, unc. split_and!; try done. - intros g [?|?%elem_of_nil]; done. - auto. }
  destruct (Hfiles g) as [f Hf]; [by left|].
  cbn [open_loop]. unfold reader_new at 1, file_open at 1. rewrite Hf. cbn [res_bind of_option].
  destruct (load_replay d g f {| reader_path := log_name g; reader_pos := 0 |} idx Hf)
    as (idx1 & u & -> & Hidx1 & Hv1 & Hor1); [done|done|]. cbn [res_bind].
  destruct (IH (<[g := {| reader_path := log_name g; reader_pos := blen f |}]> rs) idx1 (unc + u))
    as (rs' & idx' & unc' & Hrun & Hok & Hv & Hrd' & Hkeep & Hnew); [set_solver|done| |].
  { intros k cp [Hk| ->]%Hor1; rewrite lookup_insert_is_Some'; [right; by eapply Hrd|by left]. }
  exists rs', idx', unc'. split_and!; [done|done| | | |].
  - rewrite Hv, Hv1. cbn [replay_gens foldl]. unfold file_of at 2. by rewrite Hf.
  - done.
  - intros g' Hg'. apply Hkeep. rewrite lookup_insert_is_Some'. set_solver.
  - intros g' r Hr. destruct (Hnew g' r Hr) as [Hr'|[Hin Hp]]; [|set_solver].
    apply lookup_insert_Some in Hr' as [[<- <-]|[_ ?]]; [|auto]. right. set_solver.
Qed.

(** ** [open] *)

(** A new file under a name no entry reads changes no entry. *)
Lemma entry_at_fresh d n x k cp :
  d !! n = None -> entry_at d k cp ->
  entry_at (<[n:=x]> d) k cp /\ entry_value (<[n:=x]> d) cp = entry_value d cp.
Proof.
  intros Hn (f & v & Hf & Hb & Hs). assert (n <> log_name (cp_id cp)) by congruence.
  unfold entry_at, entry_value. rewrite !lookup_insert_ne by done. split; [|done]. eauto.
Qed.

(** What [open] finds in a canonical directory: every generation listed
    has its file and fits, and no file lies after the last one. *)
Section OpenLast.
Context (d : Dir).
Hypothesis Hcan : canonical d.

Lemma open_files g :
  g ∈ sorted_gen_list d -> is_Some (d !! log_name g) /\ g < U64_MAX.
Proof.
  intros (name & c & Hn & Hg)%(proj2 (sorted_gen_list_elem d)).
  destruct (Hcan _ _ _ Hn Hg) as [-> Hlt]. eauto.
Qed.

Lemma open_last_max g :
  g ∈ sorted_gen_list d -> g <= default 0 (last (sorted_gen_list d)).
Proof. intros. apply sorted_last_max; [apply sorted_gen_list_elem|done]. Qed.

Lemma open_last_fits : default 0 (last (sorted_gen_list d)) + 1 <= U64_MAX.
Proof.
  destruct (last (sorted_gen_list d)) as [g|] eqn:E; cbn [default id]; [|unfold U64_MAX; lia].
  destruct (open_files g) as [_ ?]; [by eapply last_Some_elem_of|lia].
Qed.

Lemma open_fresh g :
  default 0 (last (sorted_gen_list d)) < g <= U64_MAX -> d !! log_name g = None.
Proof.
  intros Hg. destruct (d !! log_name g) as [c|] eqn:E; [|done]. exfalso.
  assert (g ∈ sorted_gen_list d) as ?%open_last_max; [|lia].
  apply sorted_gen_list_elem. exists (log_name g), c. split; [done|].
  apply gen_of_log_name_spec. lia.
Qed.

End OpenLast.

(** [open] on a directory whose log names are canonical succeeds; the
    store satisfies the invariant, stands for [dir_view], and writes to
    the new empty generation after the last one found. *)
Lemma open_view_spec d :
  canonical d ->
  exists st d', open d = Ok (st, d') /\ store_inv st d' /\ view st d' = dir_view d /\
    current_gen st = default 0 (last (sorted_gen_list d)) + 1 /\
    d' = <[log_name (current_gen st) := []]> d /\
    (forall g, g ∈ sorted_gen_list d -> is_Some (readers st !! g)).
Proof.
  intros Hcan. pose proof (open_files d Hcan) as Hfiles.
  pose proof (open_last_max d) as Hlast. pose proof (open_fresh d) as Hfresh.
  pose proof (open_last_fits d Hcan) as Hcur.
  set (gens := sorted_gen_list d) in *.
  unfold open. fold gens.
  destruct (open_loop_replay d gens ∅ [] 0) as (rs & idx & unc & Hrun & Hok & Hv & Hrd & Hkeep & Hrs);
    [by intros; apply Hfiles|split; [constructor|done]|done|].
  rewrite Hrun. cbn [res_bind].
  set (last_g := default 0 (last gens)) in *.
  unfold checked_add. rewrite (proj2 (N.leb_le (last_g + 1) U64_MAX)) by exact Hcur.
  cbn [of_option res_bind].
  rewrite new_log_file_fresh by (apply Hfresh; lia). cbn [res_bind].
  eexists _, _. split; [reflexivity|]. cbn [current_gen readers writer index].
  split_and!; [split| |done|done|]; cbn [current_gen readers writer index writer_new
    writer_path writer_buf writer_pos]; try done.
  - apply Hok.
  - exists []. by rewrite lookup_insert_eq.
  - rewrite lookup_insert_is_Some'. by left.
  - intros g r [[<- <-]|[Hne [Hr|[Hg Hp]]%Hrs]]%lookup_insert_Some.
    + split_and!; [done| |lia]. rewrite lookup_insert_eq. by eexists.
    + by rewrite lookup_empty in Hr.
    + destruct (Hfiles g Hg) as [Hf _]. pose proof (Hlast g Hg).
      split_and!; [done| |lia]. by rewrite lookup_insert_ne by (apply log_name_ne; lia).
  - intros g Hg. rewrite lookup_insert_ne by (apply log_name_ne; lia). apply Hfresh. lia.
  - intros k cp Hk. split.
    + rewrite lookup_insert_is_Some'. right. by eapply Hrd.
    + destruct (entry_at_fresh d (log_name (last_g + 1)) [] k cp) as [? _];
        [apply Hfresh; lia|by apply Hok|done].
  - unfold view. cbn [index]. transitivity (idx_view d idx).
    + apply omap_ext. intros k cp Hk.
      destruct (entry_at_fresh d (log_name (last_g + 1)) [] k cp) as [_ ->];
        [apply Hfresh; lia|by apply Hok|done].
    + rewrite Hv. unfold dir_view. by fold gens.
  - intros g Hg. rewrite lookup_insert_is_Some'. right. apply Hkeep. by right.
Qed.

(** C4: [open] on a directory whose log names are canonical succeeds; the
    store satisfies the invariant, stands for [dir_view] (the replay of
    the generations in ascending order), and writes to a new empty
    generation after the last one found. *)
Theorem open_view d :
  canonical d ->
  exists st d', open d = Ok (st, d') /\ store_inv st d' /\ view st d' = dir_view d /\
    current_gen st = default 0 (last (sorted_gen_list d)) + 1 /\
    d' = <[log_name (current_gen st) := []]> d.
Proof.
  intros Hcan. destruct (open_view_spec d Hcan) as (st & d' & ? & ? & ? & ? & ? & _).
  by exists st, d'.
Qed.

(** ** Witnesses *)

Lemma sample_dir_canonical : canonical sample_dir.
Proof.
  unfold sample_dir. intros name c g [<- _]%lookup_singleton_Some Hg.
  vm_compute in Hg. injection Hg as <-.
  split; [done|vm_compute; reflexivity].
Qed.

Lemma open_view_witness :
  canonical sample_dir /\
  exists st d', open sample_dir = Ok (st, d') /\ store_inv st d' /\
    view st d' = dir_view sample_dir /\
    current_gen st = default 0 (last (sorted_gen_list sample_dir)) + 1 /\
    d' = <[log_name (current_gen st) := []]> sample_dir.
Proof. split; [apply sample_dir_canonical|]. apply open_view. apply sample_dir_canonical. Defined.

End Replay.
