(* ===== verification/Durable.v ===== *)
(** * Durability: reopening the directory gives the store back

    [durable st d] says that the directory alone determines the store's
    contents: its log names are canonical, the replay of its files
    ([dir_view]) is the store's [view], the active file is a sequence of
    whole records, no file belongs to a generation above the active one,
    and every log file has a reader (so [compact] unlinks all of them).
    [set], [remove], [get] and [compact] keep it, [open] establishes it,
    and together with [open_view] it gives persistence: reopening a
    durable store's directory yields a store with the same contents. *)

From S2P Require Import KvPrelude LogName Codec Index PosIO Engine EngineInv Replay.
Import LogName Codec Index PosIO KvStore EngineInv Replay.

Module Durable.

Local Open Scope N_scope.

(** A client's run of requests on an open store, in order: each [set]
    and [remove] is the [KvStore] method, and the first error ends it. *)
Fixpoint run_ops (st : KvStore) (d : Dir) (ops : list Operation) : result (KvStore * Dir) :=
  match ops with
  | [] => Ok (st, d)
  | OpSet k v :: ops => let? '(st, d) := set st d k v in run_ops st d ops
  | OpRm k :: ops => let? '(st, d) := remove st d k in run_ops st d ops
  end.

(** Every [remove] of the run finds its key, starting from contents [m]. *)
Fixpoint rm_present (m : gmap bytes bytes) (ops : list Operation) : bool :=
  match ops with
  | [] => true
  | OpSet k v :: ops => rm_present (<[k:=v]> m) ops
  | OpRm k :: ops => bool_decide (is_Some (m !! k)) && rm_present (delete k m) ops
  end.

(** Two names of the directory denoting the same generation are equal. *)
Definition names_inj (d : Dir) : Prop :=
  forall n1 n2 c1 c2 g, d !! n1 = Some c1 -> d !! n2 = Some c2 ->
    gen_of_name n1 = Some g -> gen_of_name n2 = Some g -> n1 = n2.

Record durable (st : KvStore) (d : Dir) : Prop := {
  dur_canonical : canonical d;
  dur_view : dir_view d = view st d;
  dur_active : exists ops, d !! log_name (current_gen st) = Some (ops ≫= encode_op);
  dur_max : forall name c g, d !! name = Some c -> gen_of_name name = Some g ->
    g <= current_gen st;
  dur_readers : forall g, g <= current_gen st -> is_Some (d !! log_name g) ->
    is_Some (readers st !! g);
}.

(** ** The generation list *)

Lemma NoDup_omap_inj {A B} (f : A -> option B) (l : list A) :
  NoDup l -> (forall x y b, x ∈ l -> y ∈ l -> f x = Some b -> f y = Some b -> x = y) ->
  NoDup (omap f l).
Proof.
  induction 1 as [|x l Hx Hl IH]; intros Hinj; [constructor|].
  cbn [omap list_omap]. destruct (f x) as [b|] eqn:Hfx.
  - constructor; [|apply IH; intros; eapply Hinj; eauto; by right].
    intros (y & Hy & Hfy)%list_elem_of_omap. assert (x = y) as <-; [|done].
    eapply Hinj; [by left|by right|done|done].
  - apply IH. intros; eapply Hinj; eauto; by right.
Qed.

Lemma elem_of_names (d : Dir) n : n ∈ (map_to_list d).*1 <-> is_Some (d !! n).
Proof.
  rewrite list_elem_of_fmap. split.
  - intros ([n' c] & -> & Hin%elem_of_map_to_list). by eexists.
  - intros [c Hc]. exists (n, c). split; [done|]. by apply elem_of_map_to_list.
Qed.

Lemma sorted_gen_list_NoDup d : names_inj d -> NoDup (sorted_gen_list d).
Proof.
  intros Hinj. unfold sorted_gen_list. rewrite merge_sort_Permutation.
  apply NoDup_omap_inj; [apply NoDup_fst_map_to_list|].
  intros x y g [cx Hx]%elem_of_names [cy Hy]%elem_of_names. eauto.
Qed.

(** A sorted list without duplicates holding the generations the names
    denote is [sorted_gen_list]. *)
Lemma sorted_gen_list_eq d l :
  names_inj d -> Sorted (≤) l -> NoDup l ->
  (forall g, g ∈ l <-> exists name c, d !! name = Some c /\ gen_of_name name = Some g) ->
  sorted_gen_list d = l.
Proof.
  intros Hinj Hs Hnd Hl. destruct (sorted_gen_list_elem d) as [Hs' Hm].
  apply (Sorted_unique (≤)); [done|done|].
  apply NoDup_Permutation; [by apply sorted_gen_list_NoDup|done|].
  intros g. by rewrite Hm, Hl.
Qed.

Lemma canonical_names_inj d : canonical d -> names_inj d.
Proof.
  intros Hc n1 n2 c1 c2 g H1 H2 G1 G2.
  by rewrite (proj1 (Hc _ _ _ H1 G1)), (proj1 (Hc _ _ _ H2 G2)).
Qed.

(** Rewriting a file that exists changes no name. *)
Lemma names_insert_existing (d : Dir) n c name g :
  is_Some (d !! n) ->
  (exists c', <[n:=c]> d !! name = Some c' /\ gen_of_name name = Some g) <->
  (exists c', d !! name = Some c' /\ gen_of_name name = Some g).
Proof.
  intros [c0 Hn]. destruct (decide (name = n)) as [->|Hne].
  - rewrite lookup_insert_eq, Hn. naive_solver.
  - by rewrite lookup_insert_ne.
Qed.

Lemma canonical_insert_existing d n c :
  canonical d -> is_Some (d !! n) -> canonical (<[n:=c]> d).
Proof.
  intros Hc Hn name c' g Hname Hg.
  destruct (proj1 (names_insert_existing d n c name g Hn) (ex_intro _ c' (conj Hname Hg)))
    as (c0 & H0 & _).
  eauto.
Qed.

Lemma sorted_gen_list_insert_existing d n c :
  canonical d -> is_Some (d !! n) -> sorted_gen_list (<[n:=c]> d) = sorted_gen_list d.
Proof.
  intros Hc Hn. destruct (sorted_gen_list_elem d) as [Hs Hm].
  apply sorted_gen_list_eq; [by apply canonical_names_inj, canonical_insert_existing
                            |done|by apply sorted_gen_list_NoDup, canonical_names_inj|].
  intros g. rewrite Hm. split; intros (name & c' & H1 & H2).
  - destruct (proj2 (names_insert_existing d n c name g Hn) (ex_intro _ c' (conj H1 H2)))
      as (c0 & ? & ?). eauto.
  - destruct (proj1 (names_insert_existing d n c name g Hn) (ex_intro _ c' (conj H1 H2)))
      as (c0 & ? & ?). eauto.
Qed.

(** The largest element of a sorted list without duplicates is its last. *)
Lemma sorted_split_last (l : list N) x :
  Sorted (≤) l -> NoDup l -> x ∈ l -> (forall y, y ∈ l -> y <= x) ->
  exists l', l = l' ++ [x] /\ x ∉ l'.
Proof.
  intros Hs Hnd Hx Hmax. apply list_elem_of_split in Hx as (l1 & l2 & ->).
  apply (Sorted_StronglySorted _) in Hs.
  destruct l2 as [|y l2].
  - exists l1. split; [done|]. apply NoDup_app in Hnd as (_ & Hd & _). set_solver.
  - exfalso. apply StronglySorted_app_1_r, StronglySorted_cons in Hs as [Hall _].
    apply Forall_cons in Hall as [Hxy _].
    assert (y <= x) by (apply Hmax; set_solver). assert (x = y) as <- by lia.
    apply NoDup_app in Hnd as (_ & _ & Hnd). apply NoDup_cons in Hnd as [Hn _]. set_solver.
Qed.

Lemma sorted_snoc (l : list N) x :
  Sorted (≤) l -> (forall y, y ∈ l -> y <= x) -> Sorted (≤) (l ++ [x]).
Proof.
  induction l as [|y l IH]; intros Hs Hx; cbn [app]; [by repeat constructor|].
  apply Sorted_inv in Hs as [Hs Hd]. constructor; [apply IH; [done|set_solver]|].
  destruct l as [|z l]; cbn [app]; constructor; [apply Hx; set_solver|by inversion Hd].
Qed.

(** Creating a file under a new name adds that name only. *)
Lemma names_insert_new (d : Dir) n c name g :
  d !! n = None ->
  (exists c', <[n:=c]> d !! name = Some c' /\ gen_of_name name = Some g) <->
  (name = n /\ gen_of_name n = Some g) \/ (exists c', d !! name = Some c' /\ gen_of_name name = Some g).
Proof.
  intros Hn. destruct (decide (name = n)) as [->|Hne].
  - rewrite lookup_insert_eq, Hn. naive_solver.
  - rewrite lookup_insert_ne by done. naive_solver.
Qed.

(** ** Replay of the generations *)

Lemma replay_app m l1 l2 : replay m (l1 ++ l2) = replay (replay m l1) l2.
Proof. apply foldl_app. Qed.

Lemma replay_gens_app d m g1 g2 :
  replay_gens d m (g1 ++ g2) = replay_gens d (replay_gens d m g1) g2.
Proof. apply foldl_app. Qed.

Lemma replay_gens_ext d1 d2 m gens :
  (forall g, g ∈ gens -> file_of d1 g = file_of d2 g) ->
  replay_gens d1 m gens = replay_gens d2 m gens.
Proof.
  revert m. induction gens as [|g gens IH]; intros m Hf; [done|].
  cbn [replay_gens foldl]. rewrite Hf by (by left). apply IH. intros; apply Hf. by right.
Qed.

Lemma log_ops_records ops : log_ops (ops ≫= encode_op) = ops.
Proof. by rewrite <- (app_nil_r (ops ≫= encode_op)), log_ops_app_spec, app_nil_r. Qed.

(** The generations of a canonical directory are below [u64::MAX]. *)
Lemma canonical_gen d g : canonical d -> g ∈ sorted_gen_list d -> g < U64_MAX.
Proof.
  intros Hc Hg. apply sorted_gen_list_elem in Hg as (name & c & Hn & Hg).
  by destruct (Hc _ _ _ Hn Hg).
Qed.

(** In a durable store the active generation is the last one. *)
Lemma gens_split_active st d :
  store_inv st d -> durable st d ->
  exists gens', sorted_gen_list d = gens' ++ [current_gen st] /\ current_gen st ∉ gens'.
Proof.
  intros Hinv Hdur. destruct (sorted_gen_list_elem d) as [Hs Hm].
  destruct (dur_active _ _ Hdur) as [ops Hops].
  apply sorted_split_last; [done|by apply sorted_gen_list_NoDup, canonical_names_inj, Hdur| |].
  - apply Hm. exists (log_name (current_gen st)), (ops ≫= encode_op). split; [exact Hops|].
    apply gen_of_log_name_spec, (inv_gen_max _ _ Hinv).
  - intros y (name & c & Hn & Hg)%Hm. by eapply (dur_max _ _ Hdur).
Qed.

(** Appending whole records to the active file replays them after the
    rest of the directory. *)
Lemma dir_view_append st d f ops' :
  store_inv st d -> durable st d -> d !! log_name (current_gen st) = Some f ->
  dir_view (<[log_name (current_gen st) := f ++ (ops' ≫= encode_op)]> d) =
  replay (dir_view d) ops'.
Proof.
  intros Hinv Hdur Hf. destruct (gens_split_active st d Hinv Hdur) as (gens' & Hsplit & Hnot).
  destruct (dur_active _ _ Hdur) as [ops Hops]. rewrite Hf in Hops. injection Hops as ->.
  unfold dir_view. rewrite sorted_gen_list_insert_existing by (apply Hdur || by eexists).
  rewrite Hsplit, !replay_gens_app. cbn [replay_gens foldl].
  rewrite (replay_gens_ext _ d).
  - unfold file_of. rewrite lookup_insert_eq, Hf. cbn [default id].
    by rewrite log_ops_app_spec, !log_ops_records, replay_app.
  - intros g Hg. unfold file_of. rewrite lookup_insert_ne; [done|].
    assert (g ∈ sorted_gen_list d) as Hgl by (rewrite Hsplit; set_solver).
    pose proof (canonical_gen d g (dur_canonical _ _ Hdur) Hgl).
    pose proof (inv_gen_max _ _ Hinv).
    apply log_name_ne; [lia|lia|]. intros E. apply Hnot. by rewrite E.
Qed.

(** ** [set] and [remove] without compaction, and [get] *)

(** Appending one record to the active file, with the view changing as
    that record says, keeps durability. *)
Lemma durable_append st d st1 d1 f op :
  store_inv st d -> durable st d -> d !! log_name (current_gen st) = Some f ->
  d1 = <[log_name (current_gen st) := f ++ encode_op op]> d ->
  view st1 d1 = apply_op (view st d) op ->
  current_gen st1 = current_gen st -> readers st1 = readers st ->
  durable st1 d1.
Proof.
  intros Hinv Hdur Hf -> Hv Hcur Hrd.
  assert (Hin : is_Some (d !! log_name (current_gen st))) by (by eexists).
  destruct (dur_active _ _ Hdur) as [ops Hops]. rewrite Hf in Hops. injection Hops as ->.
  split; rewrite ?Hcur, ?Hrd.
  - by apply canonical_insert_existing; [apply Hdur|].
  - rewrite Hv, <- (dur_view _ _ Hdur), <- (app_nil_r (encode_op op)).
    change (encode_op op ++ []) with ([op] ≫= encode_op).
    by rewrite (dir_view_append st d).
  - exists (ops ++ [op]). by rewrite lookup_insert_eq, bind_app, bind_singleton.
  - intros name c g Hn Hg.
    destruct (proj1 (names_insert_existing d _ _ name g Hin) (ex_intro _ c (conj Hn Hg)))
      as (c0 & Hn0 & _). eauto using dur_max.
  - intros g Hg [c Hc]. destruct (proj1 (names_insert_existing d _ _ (log_name g) g Hin)
      (ex_intro _ c (conj Hc (gen_of_log_name_spec g ltac:(pose proof (inv_gen_max _ _ Hinv); lia)))))
      as (c0 & Hn0 & _).
    eapply (dur_readers _ _ Hdur); [done|by eexists].
Qed.

(** [get] moves a reader: the files, the view and the generations stay. *)
Lemma durable_get st d st' :
  durable st d -> index st' = index st -> current_gen st' = current_gen st ->
  (forall g, is_Some (readers st !! g) -> is_Some (readers st' !! g)) -> durable st' d.
Proof.
  intros [Hc Hv Ha Hm Hr] Hidx Hcur Hrd.
  split; rewrite ?Hcur; try done.
  - by rewrite Hv; unfold view; rewrite Hidx.
  - intros g Hg Hs. by apply Hrd, Hr.
Qed.

(** ** [compact] *)

(** The file [compact] writes, replayed onto [m], adds the values its
    entries point at. *)
Lemma replay_chunks d (idx : list (bytes * CommandPos)) m :
  NoDup idx.*1 -> (forall k cp, (k, cp) ∈ idx -> entry_at d k cp) ->
  replay m (log_ops (idx ≫= (fun e => chunk d e.2))) =
  omap (entry_value d) (list_to_map idx) ∪ m.
Proof.
  revert m. induction idx as [|[k cp] idx IH]; intros m Hnd Hent.
  { by rewrite list_to_map_nil, omap_empty, (left_id_L ∅ (∪)). }
  apply NoDup_cons in Hnd as [Hk Hnd].
  destruct (Hent k cp) as (f & v & Hf & _ & Hd); [by left|].
  rewrite bind_cons. cbn [fst snd]. unfold chunk at 1. rewrite Hf. cbn [default id].
  rewrite (log_ops_chunk_spec _ _ _ Hd), replay_cons, IH; [|done|intros; apply Hent; by right].
  rewrite list_to_map_cons, (omap_insert_Some _ _ _ _ v)
    by (unfold entry_value; rewrite Hf; cbn [mbind option_bind]; by rewrite Hd).
  cbn [apply_op]. rewrite <- insert_union_l, <- insert_union_r; [done|].
  rewrite lookup_omap, not_elem_of_list_to_map_1 by done. done.
Qed.

Section Compact.
Context (st : KvStore) (d : Dir) (st' : KvStore) (d' : Dir).
Hypothesis Hinv : store_inv st d.
Hypothesis Hdur : durable st d.
Hypothesis Hcmp : compacted st d st' d'.
Hypothesis Hmax : current_gen st + 2 <= U64_MAX.

(** After [compact] the only log files are the two new generations: every
    old one had a reader and was unlinked. *)
Lemma compacted_gen_names name c g :
  d' !! name = Some c -> gen_of_name name = Some g ->
  g = current_gen st + 1 /\ name = log_name g \/ g = current_gen st + 2 /\ name = log_name g.
Proof.
  intros Hn Hg.
  destruct (decide (name = log_name (current_gen st + 1))) as [->|H1].
  { rewrite gen_of_log_name_spec in Hg by lia. injection Hg as <-. by left. }
  destruct (decide (name = log_name (current_gen st + 2))) as [->|H2].
  { rewrite gen_of_log_name_spec in Hg by lia. injection Hg as <-. by right. }
  exfalso. destruct (d !! name) as [c0|] eqn:Hd.
  - destruct (dur_canonical _ _ Hdur _ _ _ Hd Hg) as [-> _].
    pose proof (dur_max _ _ Hdur _ _ _ Hd Hg).
    assert (is_Some (readers st !! g)) as Hr by (eapply (dur_readers _ _ Hdur); [done|by eexists]).
    by rewrite (cmp_stale _ _ _ _ Hcmp g Hr) in Hn.
  - rewrite (cmp_other _ _ _ _ Hcmp) in Hn; [congruence|done|done|].
    intros g' [r Hr] ->. destruct (inv_readers _ _ Hinv g' r Hr) as (_ & [c1 Hc1] & _). congruence.
Qed.

Lemma compacted_gen_list :
  current_gen st + 3 <= U64_MAX ->
  sorted_gen_list d' = [current_gen st + 1; current_gen st + 2].
Proof.
  intros Hmax3. apply sorted_gen_list_eq.
  - intros n1 n2 c1 c2 g H1 H2 G1 G2.
    destruct (compacted_gen_names _ _ _ H1 G1) as [[_ ->]|[_ ->]],
      (compacted_gen_names _ _ _ H2 G2) as [[_ ->]|[_ ->]]; done.
  - repeat constructor; lia.
  - apply NoDup_cons; split; [|apply NoDup_singleton]. set_solver by lia.
  - intros g. rewrite !elem_of_cons, elem_of_nil. split.
    + intros [->|[->|[]]].
      * exists (log_name (current_gen st + 1)), (index st ≫= (fun e => chunk d e.2)).
        split; [apply Hcmp|by apply gen_of_log_name_spec; lia].
      * exists (log_name (current_gen st + 2)), [].
        split; [apply Hcmp|by apply gen_of_log_name_spec; lia].
    + intros (name & c & Hn & Hg). destruct (compacted_gen_names _ _ _ Hn Hg) as [[-> _]|[-> _]]; auto.
Qed.

(** The directory [compact] leaves replays to the view it keeps. *)
Lemma compact_durable :
  current_gen st + 3 <= U64_MAX -> current_gen st' = current_gen st + 2 ->
  view st' d' = view st d -> durable st' d'.
Proof.
  intros Hmax3 Hcur Hv. split; rewrite ?Hcur.
  - intros name c g Hn Hg.
    destruct (compacted_gen_names _ _ _ Hn Hg) as [[-> ->]|[-> ->]]; split; done || lia.
  - unfold dir_view. rewrite compacted_gen_list, Hv by done. cbn [replay_gens foldl].
    unfold file_of. rewrite (cmp_copy _ _ _ _ Hcmp), (cmp_active _ _ _ _ Hcmp). cbn [default id].
    change (log_ops []) with (@nil Operation). unfold replay at 1. cbn [foldl].
    rewrite replay_chunks, (right_id_L ∅ (∪)); [done|by apply bt_wf_NoDup, Hinv|].
    intros k cp Hin. apply (inv_entries _ _ Hinv), bt_wf_elem; [apply Hinv|done].
  - exists []. exact (cmp_active _ _ _ _ Hcmp).
  - intros name c g Hn Hg. destruct (compacted_gen_names _ _ _ Hn Hg) as [[-> _]|[-> _]]; lia.
  - intros g Hg [c Hc]. apply (cmp_readers _ _ _ _ Hcmp).
    destruct (compacted_gen_names _ _ _ Hc (gen_of_log_name_spec g ltac:(lia))) as [[? _]|[? _]]; auto.
Qed.

End Compact.

(** ** [open] *)

(** In a durable store the active generation is the last of the list. *)
Lemma durable_last st d :
  store_inv st d -> durable st d -> default 0 (last (sorted_gen_list d)) = current_gen st.
Proof.
  intros Hinv Hdur. destruct (gens_split_active st d Hinv Hdur) as (gens & -> & _).
  by rewrite last_app.
Qed.

(** The directory [open] leaves: a new empty file for generation [cur],
    above every generation of the directory. *)
Section OpenDir.
Context (d : Dir) (cur : N).
Hypothesis Hcan : canonical d.
Hypothesis Hlt : forall g, g ∈ sorted_gen_list d -> g < cur.
Hypothesis Hcur : cur < U64_MAX.

Lemma open_new_absent : d !! log_name cur = None.
Proof.
  destruct (d !! log_name cur) as [c|] eqn:E; [|done].
  assert (cur ∈ sorted_gen_list d) as ?%Hlt; [|lia].
  apply sorted_gen_list_elem. exists (log_name cur), c. split; [done|].
  apply gen_of_log_name_spec. lia.
Qed.

Lemma open_names name c g :
  <[log_name cur := []]> d !! name = Some c -> gen_of_name name = Some g ->
  (name = log_name cur /\ g = cur) \/ (name = log_name g /\ g ∈ sorted_gen_list d).
Proof.
  intros Hn Hg.
  destruct (proj1 (names_insert_new d _ [] name g open_new_absent) (ex_intro _ c (conj Hn Hg)))
    as [[-> Hg']|(c' & Hc' & _)].
  - rewrite gen_of_log_name_spec in Hg' by lia. injection Hg' as <-. by left.
  - right. destruct (Hcan _ _ _ Hc' Hg) as [-> _]. split; [done|].
    apply sorted_gen_list_elem. eauto.
Qed.

Lemma open_canonical : canonical (<[log_name cur := []]> d).
Proof.
  intros name c g Hn Hg. destruct (open_names _ _ _ Hn Hg) as [[-> ->]|[-> ?%Hlt]]; split; done || lia.
Qed.

Lemma open_gen_list : sorted_gen_list (<[log_name cur := []]> d) = sorted_gen_list d ++ [cur].
Proof.
  destruct (sorted_gen_list_elem d) as [Hs Hm].
  apply sorted_gen_list_eq; [by apply canonical_names_inj, open_canonical| | |].
  - apply sorted_snoc; [done|]. intros y ?%Hlt. lia.
  - apply NoDup_app. split_and!; [by apply sorted_gen_list_NoDup, canonical_names_inj| |apply NoDup_singleton].
    intros z Hz ->%list_elem_of_singleton. specialize (Hlt _ Hz). lia.
  - intros g. rewrite elem_of_app, list_elem_of_singleton. split.
    + intros [Hg| ->].
      * destruct (proj1 (Hm g) Hg) as (name & c & Hn & Hgn).
        destruct (Hcan _ _ _ Hn Hgn) as [-> _]. exists (log_name g), c.
        by rewrite lookup_insert_ne by (pose proof (Hlt g Hg); apply log_name_ne; lia).
      * exists (log_name cur), []. rewrite lookup_insert_eq. split; [done|].
        apply gen_of_log_name_spec. lia.
    + intros (name & c & Hn & Hg). destruct (open_names _ _ _ Hn Hg) as [[_ ->]|[_ ?]]; auto.
Qed.

(** The new empty file replays to nothing. *)
Lemma open_dir_view : dir_view (<[log_name cur := []]> d) = dir_view d.
Proof.
  unfold dir_view. rewrite open_gen_list, replay_gens_app. cbn [replay_gens foldl].
  unfold file_of at 1. rewrite lookup_insert_eq. cbn [default id].
  change (log_ops []) with (@nil Operation). unfold replay at 1. cbn [foldl].
  apply replay_gens_ext. intros g Hg. unfold file_of. rewrite lookup_insert_ne; [done|].
  pose proof (Hlt g Hg). apply log_name_ne; lia.
Qed.

End OpenDir.

(** [open] leaves a durable store, when the generation it creates is
    below [u64::MAX]. *)
Lemma open_durable d :
  canonical d -> default 0 (last (sorted_gen_list d)) + 2 <= U64_MAX ->
  exists st d', open d = Ok (st, d') /\ store_inv st d' /\ durable st d' /\
    view st d' = dir_view d /\ current_gen st = default 0 (last (sorted_gen_list d)) + 1.
Proof.
  intros Hcan Hmax.
  destruct (open_view_spec d Hcan) as (st & d' & Ho & Hinv & Hv & Hcur & -> & Hrd).
  exists st, (<[log_name (current_gen st) := []]> d). split_and!; try done.
  assert (Hlt : forall g, g ∈ sorted_gen_list d -> g < current_gen st).
  { intros g Hg. pose proof (sorted_last_max _ g (proj1 (sorted_gen_list_elem d)) Hg). lia. }
  assert (current_gen st < U64_MAX) by lia.
  split; [by apply open_canonical| |exists []; by rewrite lookup_insert_eq| |].
  - by rewrite Hv, open_dir_view.
  - intros name c g Hn Hg. destruct (open_names _ _ Hcan Hlt ltac:(done) _ _ _ Hn Hg)
      as [[_ ->]|[_ ?%Hlt]]; lia.
  - intros g Hg [c Hc].
    destruct (open_names _ _ Hcan Hlt ltac:(done) _ _ _ Hc (gen_of_log_name_spec g ltac:(lia)))
      as [[_ ->]|[_ ?]]; [apply Hinv|by apply Hrd].
Qed.

(** ** The operations keep durability *)

(** [set] keeps durability, through the compaction it may run. *)
Lemma set_durable st d k v :
  store_inv st d -> durable st d -> current_gen st + 3 <= U64_MAX ->
  exists st' d', set st d k v = Ok (st', d') /\ store_inv st' d' /\ durable st' d' /\
    view st' d' = <[k:=v]> (view st d) /\ current_gen st' <= current_gen st + 2.
Proof.
  intros Hinv Hdur Hmax.
  destruct (set_append st d k v Hinv)
    as (st1 & d1 & -> & Hinv1 & Hv1 & Hcur1 & Hrd1 & _ & f & Hf & Hd1).
  assert (Hdur1 : durable st1 d1) by exact (durable_append st d st1 d1 f (OpSet k v)
    Hinv Hdur Hf Hd1 Hv1 Hcur1 Hrd1).
  destruct (_ <? _).
  - destruct (compact_view_spec st1 d1 Hinv1) as (st' & d' & Hc & Hinv' & Hv' & Hcur' & _ & Hcmp);
      [lia|].
    exists st', d'. split_and!; [done|done| |congruence|lia].
    apply (compact_durable st1 d1 st' d'); done || lia.
  - exists st1, d1. split_and!; done || lia.
Qed.

(** [remove] of a present key keeps durability. *)
Lemma remove_durable st d k :
  store_inv st d -> durable st d -> is_Some (view st d !! k) ->
  exists st' d', remove st d k = Ok (st', d') /\ store_inv st' d' /\ durable st' d' /\
    view st' d' = delete k (view st d) /\ current_gen st' = current_gen st.
Proof.
  intros Hinv Hdur Hk.
  destruct (remove_view_spec st d k Hinv Hk)
    as (st' & d' & Hr & Hinv' & Hv' & Hcur & _ & Hrd & f & Hf & Hd').
  exists st', d'. split_and!; try done.
  exact (durable_append st d st' d' f (OpRm k) Hinv Hdur Hf Hd' Hv' Hcur Hrd).
Qed.

(** Reopening the directory of a durable store. *)
Lemma reopen_spec st d :
  store_inv st d -> durable st d -> current_gen st + 2 <= U64_MAX ->
  exists st' d', open d = Ok (st', d') /\ store_inv st' d' /\ durable st' d' /\
    view st' d' = view st d /\ current_gen st' = current_gen st + 1.
Proof.
  intros Hinv Hdur Hmax. rewrite <- (durable_last st d) in Hmax |- * by done.
  destruct (open_durable d) as (st' & d' & ? & ? & ? & Hv & ?); [apply Hdur|done|].
  exists st', d'. split_and!; try done. by rewrite Hv, (dur_view _ _ Hdur).
Qed.

(** A run of requests keeps the store durable and its contents are the
    requests replayed on the contents it started from. *)
Lemma run_ops_durable ops st d :
  store_inv st d -> durable st d -> rm_present (view st d) ops = true ->
  current_gen st + 2 * N.of_nat (length ops) + 3 <= U64_MAX ->
  exists st' d', run_ops st d ops = Ok (st', d') /\ store_inv st' d' /\ durable st' d' /\
    view st' d' = replay (view st d) ops /\
    current_gen st' <= current_gen st + 2 * N.of_nat (length ops).
Proof.
  revert st d. induction ops as [|[k v|k] ops IH]; intros st d Hinv Hdur Hrm Hmax.
  { exists st, d. split_and!; try done. cbn. lia. }
  all: cbn [length] in Hmax; rewrite Nat2N.inj_succ in Hmax.
  - destruct (set_durable st d k v Hinv Hdur) as (st1 & d1 & Hs & Hinv1 & Hdur1 & Hv1 & Hc1); [lia|].
    cbn [rm_present] in Hrm. rewrite <- Hv1 in Hrm.
    destruct (IH st1 d1 Hinv1 Hdur1 Hrm) as (st2 & d2 & Hr & ? & ? & Hv2 & Hc2); [lia|].
    exists st2, d2. cbn [run_ops]. rewrite Hs. cbn [res_bind].
    split_and!; try done; [by rewrite Hv2, Hv1|cbn [length]; lia].
  - cbn [rm_present] in Hrm. apply andb_true_iff in Hrm as [Hk%bool_decide_eq_true Hrm].
    destruct (remove_durable st d k Hinv Hdur Hk) as (st1 & d1 & Hs & Hinv1 & Hdur1 & Hv1 & Hc1).
    rewrite <- Hv1 in Hrm.
    destruct (IH st1 d1 Hinv1 Hdur1 Hrm) as (st2 & d2 & Hr & ? & ? & Hv2 & Hc2); [lia|].
    exists st2, d2. cbn [run_ops]. rewrite Hs. cbn [res_bind].
    split_and!; try done; [by rewrite Hv2, Hv1|cbn [length]; lia].
Qed.

(** C5: Persistence: open a directory whose log names are canonical,
    run any sequence of [set]s and [remove]s of present keys on the store,
    and open the directory it leaves: every request succeeds, and the
    reopened store holds exactly the contents the files stood for with
    the requests applied in order, the contents the running store had. *)
Theorem reopen_view d ops :
  canonical d -> rm_present (dir_view d) ops = true ->
  default 0 (last (sorted_gen_list d)) + 2 * N.of_nat (length ops) + 4 <= U64_MAX ->
  exists st1 d1 st2 d2 st3 d3,
    open d = Ok (st1, d1) /\ run_ops st1 d1 ops = Ok (st2, d2) /\ open d2 = Ok (st3, d3) /\
    view st3 d3 = replay (dir_view d) ops /\ view st2 d2 = view st3 d3.
Proof.
  intros Hcan Hrm Hmax.
  destruct (open_durable d Hcan) as (st1 & d1 & Ho1 & Hinv1 & Hdur1 & Hv1 & Hc1); [lia|].
  rewrite <- Hv1 in Hrm.
  destruct (run_ops_durable ops st1 d1 Hinv1 Hdur1 Hrm) as (st2 & d2 & Hr & Hinv2 & Hdur2 & Hv2 & Hc2);
    [lia|].
  destruct (reopen_spec st2 d2 Hinv2 Hdur2) as (st3 & d3 & Ho3 & _ & _ & Hv3 & _); [lia|].
  exists st1, d1, st2, d2, st3, d3. split_and!; try done; congruence.
Qed.

(** C6: Idempotent replay: opening a directory twice in succession, with
    no mutation in between, gives the same contents both times: those
    the files replay to; both stores are durable. *)
Theorem open_twice d :
  canonical d -> default 0 (last (sorted_gen_list d)) + 3 <= U64_MAX ->
  exists st1 d1 st2 d2, open d = Ok (st1, d1) /\ open d1 = Ok (st2, d2) /\
    durable st1 d1 /\ durable st2 d2 /\
    view st1 d1 = dir_view d /\ view st2 d2 = view st1 d1.
Proof.
  intros Hcan Hmax.
  destruct (open_durable d Hcan) as (st1 & d1 & Ho1 & Hinv1 & Hdur1 & Hv1 & Hc1); [lia|].
  destruct (reopen_spec st1 d1 Hinv1 Hdur1) as (st2 & d2 & Ho2 & _ & Hdur2 & Hv2 & _); [lia|].
  by exists st1, d1, st2, d2.
Qed.

(** The sample directory binds [a]; remove it and set [b]. *)
Lemma reopen_view_witness :
  canonical sample_dir /\
  rm_present (dir_view sample_dir) [OpRm (bstr "a"); OpSet (bstr "b") (bstr "2")] = true /\
  default 0 (last (sorted_gen_list sample_dir)) + 2 * 2 + 4 <= U64_MAX /\
  exists st1 d1 st2 d2 st3 d3,
    open sample_dir = Ok (st1, d1) /\
    run_ops st1 d1 [OpRm (bstr "a"); OpSet (bstr "b") (bstr "2")] = Ok (st2, d2) /\
    open d2 = Ok (st3, d3) /\
    view st3 d3 = replay (dir_view sample_dir) [OpRm (bstr "a"); OpSet (bstr "b") (bstr "2")] /\
    view st2 d2 = view st3 d3.
Proof.
  split; [apply sample_dir_canonical|]. split; [vm_compute; reflexivity|].
  split; [vm_compute; discriminate|].
  apply reopen_view; [apply sample_dir_canonical|vm_compute; reflexivity|vm_compute; discriminate].
Defined.

Lemma open_twice_witness :
  canonical sample_dir /\ default 0 (last (sorted_gen_list sample_dir)) + 3 <= U64_MAX /\
  exists st1 d1 st2 d2, open sample_dir = Ok (st1, d1) /\ open d1 = Ok (st2, d2) /\
    durable st1 d1 /\ durable st2 d2 /\
    view st1 d1 = dir_view sample_dir /\ view st2 d2 = view st1 d1.
Proof.
  split; [apply sample_dir_canonical|]. split; [vm_compute; discriminate|].
  apply open_twice; [apply sample_dir_canonical|vm_compute; discriminate].
Defined.

End Durable.
