(* ===== verification/MemStore.v ===== *)
(** * The in-memory store of project 1 ([project-1-self/src/kv.rs])

    [KvStore] wraps a [HashMap<String, String>]: [set] inserts, [get]
    clones the value out, [remove] removes (a missing key is no error).
    It is the specification the log-structured store of project 2 is
    compared against in [Refine]. *)

From S2P Require Import KvPrelude.

Module MemStore.

(** [pub struct KvStore { kv: HashMap<String, String> }]. *)
Record KvStore := { kv : gmap bytes bytes }.

(** [KvStore::new()]: [kv: Default::default()]. *)
Definition new : KvStore := {| kv := ∅ |}.

(** [KvStore::set(k, v)]: [self.kv.insert(k, v)]. *)
Definition set (s : KvStore) (k v : bytes) : KvStore := {| kv := <[k:=v]> (kv s) |}.

(** [KvStore::get(k)]: [self.kv.get(&k).cloned()]. *)
Definition get (s : KvStore) (k : bytes) : option bytes := kv s !! k.

(** [KvStore::remove(k)]: [self.kv.remove(&k)], the old value dropped. *)
Definition remove (s : KvStore) (k : bytes) : KvStore := {| kv := delete k (kv s) |}.

End MemStore.
