(* ===== verification/Refine.v ===== *)
(** * The log-structured store refines the in-memory store

    A client sends requests to one open store.  [log_step] runs a request
    on the log-structured store of project 2 (state and directory),
    [mem_step] on the in-memory store of project 1.  The simulation
    relation [refines] says the log store satisfies [store_inv] and its
    [view] is the in-memory map.  Each step preserves it, and the replies
    agree except where project 2 adds an error: removing an absent key is
    [Err "UH"] there and a no-op in project 1 ([expected] spells this
    out).  A failed request leaves the log store as it was: the only
    failure reachable under the invariant is that of [remove], which
    returns before it changes anything. *)

From S2P Require Import KvPrelude LogName Codec Index PosIO Engine EngineInv MemStore.
Import LogName Codec Index PosIO KvStore EngineInv.

Module Refine.

Local Open Scope N_scope.

(** The requests of the command line ([Command::{Set, Get, Rm}]). *)
Inductive Request :=
| RSet (k v : bytes)
| RGet (k : bytes)
| RRm (k : bytes).

Inductive Reply :=
| RUnit
| RValue (o : option bytes)
| RFail (e : error).

Definition LogState : Type := KvStore.KvStore * Dir.

Definition log_step (s : LogState) (q : Request) : LogState * Reply :=
  let '(st, d) := s in
  match q with
  | RSet k v =>
      match set st d k v with Ok (st', d') => ((st', d'), RUnit) | Err e => (s, RFail e) end
  | RGet k =>
      match get st d k with Ok (o, st') => ((st', d), RValue o) | Err e => (s, RFail e) end
  | RRm k =>
      match remove st d k with Ok (st', d') => ((st', d'), RUnit) | Err e => (s, RFail e) end
  end.

Definition mem_step (m : MemStore.KvStore) (q : Request) : MemStore.KvStore * Reply :=
  match q with
  | RSet k v => (MemStore.set m k v, RUnit)
  | RGet k => (m, RValue (MemStore.get m k))
  | RRm k => (MemStore.remove m k, RUnit)
  end.

(** The reply project 2 gives where project 1 is in state [m]. *)
Definition expected (m : MemStore.KvStore) (q : Request) : Reply :=
  match q with
  | RRm k => match MemStore.get m k with Some _ => RUnit | None => RFail (Msg "UH") end
  | _ => (mem_step m q).2
  end.

Fixpoint log_run (s : LogState) (qs : list Request) : LogState * list Reply :=
  match qs with
  | [] => (s, [])
  | q :: qs' =>
      let '(s1, r) := log_step s q in
      let '(s2, rs) := log_run s1 qs' in (s2, r :: rs)
  end.

(** Project 1's run, with project 2's replies. *)
Fixpoint spec_run (m : MemStore.KvStore) (qs : list Request) : MemStore.KvStore * list Reply :=
  match qs with
  | [] => (m, [])
  | q :: qs' =>
      let '(m2, rs) := spec_run (mem_step m q).1 qs' in (m2, expected m q :: rs)
  end.

Definition refines (s : LogState) (m : MemStore.KvStore) : Prop :=
  store_inv s.1 s.2 /\ view s.1 s.2 = MemStore.kv m.

(** ** Simulation *)

(** The store [open] makes in an empty directory is related to
    [MemStore.new]. *)
Lemma refines_fresh : refines (fresh_store, fresh_dir) MemStore.new.
Proof. split; apply open_empty_spec. Qed.

(** One request keeps the relation, gives the [expected] reply, and moves
    the generation on by at most two. *)
Lemma log_step_refines_spec s m q :
  refines s m -> current_gen s.1 + 2 <= U64_MAX ->
  refines (log_step s q).1 (mem_step m q).1 /\ (log_step s q).2 = expected m q /\
  current_gen (log_step s q).1.1 <= current_gen s.1 + 2.
Proof.
  destruct s as [st d]. intros [Hinv Hv] Hmax. cbn [fst snd] in *.
  destruct q as [k v|k|k]; cbn [log_step mem_step expected fst snd]; unfold refines.
  - destruct (set_view_spec st d k v Hinv Hmax) as (st' & d' & -> & Hinv' & Hv' & Hu).
    cbv zeta in Hu. cbn [fst snd MemStore.kv MemStore.set MemStore.remove]. split_and!; [done|by rewrite Hv', Hv|done|].
    destruct (_ <? _); lia.
  - destruct (get_view_spec st d k Hinv) as (st' & -> & Hinv' & Hidx & Hcur & _).
    unfold MemStore.get. cbn [fst snd MemStore.kv MemStore.set MemStore.remove]. split_and!; [done| |by rewrite Hv|lia].
    unfold view. by rewrite Hidx.
  - unfold MemStore.get, MemStore.remove. cbn [MemStore.kv]. rewrite <- Hv.
    destruct (view st d !! k) eqn:Hk.
    + destruct (remove_view_spec st d k Hinv) as (st' & d' & -> & Hinv' & Hv' & Hcur & _); [by eexists|].
      cbn [fst snd MemStore.kv MemStore.set MemStore.remove]. split_and!; [done|done|done|lia].
    + rewrite remove_absent_spec by done. cbn [fst snd MemStore.kv].
      rewrite delete_id by done. split_and!; [done|done|done|lia].
Qed.

(** C3: One request keeps the relation, gives the [expected] reply, and moves
    the generation on by at most two. *)
Theorem log_step_refines s m q :
  refines s m -> current_gen s.1 + 2 <= U64_MAX ->
  refines (log_step s q).1 (mem_step m q).1 /\ (log_step s q).2 = expected m q /\
  current_gen (log_step s q).1.1 <= current_gen s.1 + 2.
Proof. exact (log_step_refines_spec s m q). Qed.

(** C1: A whole run: while the generations fit, the log store answers as
    [spec_run] says and ends in the state project 1 ends in. *)
Theorem log_run_refines qs s m :
  refines s m -> current_gen s.1 + 2 * N.of_nat (length qs) <= U64_MAX ->
  refines (log_run s qs).1 (spec_run m qs).1 /\ (log_run s qs).2 = (spec_run m qs).2.
Proof.
  revert s m. induction qs as [|q qs IH]; intros s m Hr Hmax; [done|].
  cbn [log_run spec_run length] in *.
  destruct (log_step_refines_spec s m q Hr) as (Hr1 & Hrep & Hcur); [lia|].
  destruct (log_step s q) as [s1 r] eqn:Hs. cbn [fst snd] in *.
  destruct (IH s1 (mem_step m q).1 Hr1) as [Hr2 Hrs]; [lia|].
  destruct (log_run s1 qs) as [s2 rs], (spec_run (mem_step m q).1 qs) as [m2 rs'].
  cbn [fst snd] in *. subst. done.
Qed.

(** ** Dead bytes of a set/remove workload *)

(** [set] of a key that is not in the store adds no dead bytes and does
    not compact while [uncompacted] is at most the threshold. *)
Lemma set_fresh_key st d k v :
  store_inv st d -> view st d !! k = None -> uncompacted st <= COMPACTION_THRESHOLD ->
  current_gen st + 2 <= U64_MAX ->
  exists st' d', set st d k v = Ok (st', d') /\ store_inv st' d' /\
    view st' d' = <[k:=v]> (view st d) /\
    current_gen st' = current_gen st /\ uncompacted st' = uncompacted st.
Proof.
  intros Hinv Hk Hu Hmax.
  destruct (set_view_spec st d k v Hinv Hmax) as (st' & d' & Hs & Hinv' & Hv & Hc).
  assert (bt_to_map (index st) !! k = None) as Hi.
  { destruct (bt_to_map (index st) !! k) eqn:E; [|done].
    destruct (proj2 (view_lookup_index st d k Hinv)) as [? Hx]; [by eexists|congruence]. }
  rewrite Hi in Hc. cbn [old_len] in Hc. rewrite N.add_0_r in Hc.
  rewrite (proj2 (N.ltb_ge _ _)) in Hc by done. exists st', d'. naive_solver.
Qed.

(** C21: Repeating [set k v; rm k] on a key the store does not hold never
    compacts: each round appends both records to the active file, yet
    [uncompacted] and the generation stay where they were. *)
Theorem set_rm_cycle_no_compaction n st d k v :
  store_inv st d -> view st d !! k = None -> uncompacted st <= COMPACTION_THRESHOLD ->
  current_gen st + 2 <= U64_MAX ->
  let s' := (log_run (st, d) (concat (replicate n [RSet k v; RRm k]))).1 in
  store_inv s'.1 s'.2 /\ view s'.1 s'.2 = view st d /\
  current_gen s'.1 = current_gen st /\ uncompacted s'.1 = uncompacted st.
Proof.
  revert st d. induction n as [|n IH]; intros st d Hinv Hk Hu Hmax; [done|].
  destruct (set_fresh_key st d k v Hinv Hk Hu Hmax) as (st1 & d1 & Hs & Hinv1 & Hv1 & Hc1 & Hu1).
  destruct (remove_view_spec st1 d1 k Hinv1) as (st2 & d2 & Hr & Hinv2 & Hv2 & Hc2 & Hu2 & _).
  { rewrite Hv1, lookup_insert_eq. by eexists. }
  assert (view st2 d2 = view st d) as Hv by (by rewrite Hv2, Hv1, delete_insert_id).
  cbn [replicate concat app log_run log_step]. rewrite Hs. cbn [log_step]. rewrite Hr.
  destruct (IH st2 d2) as (HI & HV & HC & HU); [done|by rewrite Hv|lia|lia|].
  destruct (log_run (st2, d2) _) as [s' rs]. cbn [fst snd] in *. split_and!; [done|congruence|lia|lia].
Qed.

(** ** Witnesses *)

Lemma log_step_refines_witness :
  refines (fresh_store, fresh_dir) MemStore.new /\
  current_gen (fresh_store, fresh_dir).1 + 2 <= U64_MAX /\
  refines (log_step (fresh_store, fresh_dir) (RSet (bstr "a") (bstr "1"))).1
    (mem_step MemStore.new (RSet (bstr "a") (bstr "1"))).1 /\
  (log_step (fresh_store, fresh_dir) (RSet (bstr "a") (bstr "1"))).2 =
    expected MemStore.new (RSet (bstr "a") (bstr "1")) /\
  current_gen (log_step (fresh_store, fresh_dir) (RSet (bstr "a") (bstr "1"))).1.1 <=
    current_gen (fresh_store, fresh_dir).1 + 2.
Proof.
  split; [apply refines_fresh|]. split; [vm_compute; discriminate|].
  apply log_step_refines; [apply refines_fresh|vm_compute; discriminate].
Defined.

Definition sample_requests : list Request :=
  [RSet (bstr "a") (bstr "1"); RGet (bstr "a"); RRm (bstr "a"); RRm (bstr "a"); RGet (bstr "a")].

Lemma log_run_refines_witness :
  refines (fresh_store, fresh_dir) MemStore.new /\
  current_gen (fresh_store, fresh_dir).1 + 2 * N.of_nat (length sample_requests) <= U64_MAX /\
  refines (log_run (fresh_store, fresh_dir) sample_requests).1
    (spec_run MemStore.new sample_requests).1 /\
  (log_run (fresh_store, fresh_dir) sample_requests).2 =
    (spec_run MemStore.new sample_requests).2.
Proof.
  split; [apply refines_fresh|]. split; [vm_compute; discriminate|].
  apply log_run_refines; [apply refines_fresh|vm_compute; discriminate].
Defined.

Lemma set_rm_cycle_no_compaction_witness :
  store_inv fresh_store fresh_dir /\ view fresh_store fresh_dir !! bstr "a" = None /\
  uncompacted fresh_store <= COMPACTION_THRESHOLD /\ current_gen fresh_store + 2 <= U64_MAX /\
  let s' := (log_run (fresh_store, fresh_dir)
               (concat (replicate 3 [RSet (bstr "a") (bstr "1"); RRm (bstr "a")]))).1 in
  store_inv s'.1 s'.2 /\ view s'.1 s'.2 = view fresh_store fresh_dir /\
  current_gen s'.1 = current_gen fresh_store /\ uncompacted s'.1 = uncompacted fresh_store.
Proof.
  split; [apply fresh_inv|]. split; [vm_compute; reflexivity|].
  split; [vm_compute; discriminate|]. split; [vm_compute; discriminate|].
  apply set_rm_cycle_no_compaction;
    [apply fresh_inv|vm_compute; reflexivity|vm_compute; discriminate|vm_compute; discriminate].
Defined.

End Refine.
