(* ===== verification/Cli.v ===== *)
(** * The command line of project 2 ([project-2-self/src/bin/kvs.rs])

    [main] opens the store in the current directory (an error there is
    returned from [main]: the process exits with status 1), runs one
    subcommand and lets the store drop.  What it prints on standard output
    is a list of [Line]s; the outcome records the directory afterwards and
    the exit status.  Argument parsing by [clap] ([Cli::parse]) is not
    modelled: [main] receives the parsed [Command]. *)

From S2P Require Import KvPrelude LogName Codec Index PosIO Engine EngineInv.
Import PosIO KvStore EngineInv.

Module Cli.

Local Open Scope N_scope.

(** [enum Command { Get { key }, Set { key, value }, Rm { key } }]
    ([Set] is a keyword of Rocq, so the constructors carry a [C]). *)
Inductive Command :=
| CGet (key : bytes)
| CSet (key value : bytes)
| CRm (key : bytes).

(** A line of standard output: [println!("{value}")],
    [println!("Key not found")] or [println!("{e}")]. *)
Inductive Line :=
| LValue (v : bytes)
| LKeyNotFound
| LError (e : error).

Record Outcome := {
  out_dir : Dir;
  stdout : list Line;
  exit_code : nat;
}.

Definition outcome (d : Dir) (ls : list Line) (code : nat) : Outcome :=
  {| out_dir := d; stdout := ls; exit_code := code |}.

(** [fn main() -> Result<()>]; a failed [set] leaves the files as [open]
    left them. *)
Definition main (d : Dir) (c : Command) : Outcome :=
  match open d with
  | Err _ => outcome d [] 1
  | Ok (kvs, d) =>
      match c with
      | CGet key =>
          match get kvs d key with
          | Ok (Some value, _) => outcome d [LValue value] 0
          | Ok (None, _) => outcome d [LKeyNotFound] 0
          | Err _ => outcome d [LKeyNotFound] 0
          end
      | CSet key value =>
          match set kvs d key value with
          | Ok (_, d') => outcome d' [] 0
          | Err e => outcome d [LError e] 0
          end
      | CRm key =>
          match remove kvs d key with
          | Ok (_, d') => outcome d' [] 0
          | Err _ => outcome d [LKeyNotFound] 1
          end
      end
  end.

(** The binary of project 1 ([project-1-self/src/bin/kvs.rs]) has the
    same subcommands; every one prints [unimplemented] on standard error
    and exits with status 1. *)
Definition main_p1 (c : Command) : list string * nat :=
  match c with
  | CGet _ => (["unimplemented"%string], 1%nat)
  | CSet _ _ => (["unimplemented"%string], 1%nat)
  | CRm _ => (["unimplemented"%string], 1%nat)
  end.

(** ** One run of the program on a directory [open] accepts *)

(** C23: [kvs get k] prints the value the store holds for [k], or
    [Key not found], and exits with 0; it changes no file. *)
Theorem cli_get d st d1 k :
  open d = Ok (st, d1) -> store_inv st d1 ->
  main d (CGet k) =
    outcome d1 [match view st d1 !! k with Some v => LValue v | None => LKeyNotFound end] 0.
Proof.
  intros Ho Hinv. unfold main. rewrite Ho.
  destruct (get_view_spec st d1 k Hinv) as (st' & -> & _). by destruct (view st d1 !! k).
Qed.

(** C24: [kvs set k v] prints nothing and exits with 0; the directory it
    leaves is that of a store satisfying the invariant whose view binds
    [k] to [v]. *)
Theorem cli_set d st d1 k v :
  open d = Ok (st, d1) -> store_inv st d1 -> current_gen st + 2 <= U64_MAX ->
  exists st' d', main d (CSet k v) = outcome d' [] 0 /\ store_inv st' d' /\
    view st' d' = <[k:=v]> (view st d1).
Proof.
  intros Ho Hinv Hmax. unfold main. rewrite Ho.
  destruct (set_view_spec st d1 k v Hinv Hmax) as (st' & d' & -> & Hinv' & Hv & _).
  by exists st', d'.
Qed.

(** [kvs rm k] on a key the store holds prints nothing and exits with 0;
    the store left behind no longer holds [k]. *)
Theorem cli_rm_present d st d1 k :
  open d = Ok (st, d1) -> store_inv st d1 -> is_Some (view st d1 !! k) ->
  exists st' d', main d (CRm k) = outcome d' [] 0 /\ store_inv st' d' /\
    view st' d' = delete k (view st d1).
Proof.
  intros Ho Hinv Hk. unfold main. rewrite Ho.
  destruct (remove_view_spec st d1 k Hinv Hk) as (st' & d' & -> & Hinv' & Hv & _).
  by exists st', d'.
Qed.

(** C22: [kvs rm k] on a key the store does not hold prints [Key not found]
    and exits with 1, leaving the files as [open] left them. *)
Theorem cli_rm_missing d st d1 k :
  open d = Ok (st, d1) -> store_inv st d1 -> view st d1 !! k = None ->
  main d (CRm k) = outcome d1 [LKeyNotFound] 1.
Proof. intros Ho Hinv Hk. unfold main. rewrite Ho. by rewrite remove_absent_spec. Qed.

(** ** Witnesses: the program on an empty directory *)

Lemma cli_get_witness :
  open ∅ = Ok (fresh_store, fresh_dir) /\ store_inv fresh_store fresh_dir /\
  main ∅ (CGet (bstr "a")) =
    outcome fresh_dir
      [match view fresh_store fresh_dir !! bstr "a" with
       | Some v => LValue v | None => LKeyNotFound end] 0.
Proof.
  split; [vm_compute; reflexivity|]. split; [apply fresh_inv|].
  apply (cli_get ∅ fresh_store fresh_dir); [vm_compute; reflexivity|apply fresh_inv].
Defined.

Lemma cli_set_witness :
  open ∅ = Ok (fresh_store, fresh_dir) /\ store_inv fresh_store fresh_dir /\
  current_gen fresh_store + 2 <= U64_MAX /\
  exists st' d', main ∅ (CSet (bstr "a") (bstr "1")) = outcome d' [] 0 /\ store_inv st' d' /\
    view st' d' = <[bstr "a" := bstr "1"]> (view fresh_store fresh_dir).
Proof.
  split; [vm_compute; reflexivity|]. split; [apply fresh_inv|].
  split; [vm_compute; discriminate|].
  apply (cli_set ∅ fresh_store fresh_dir); [vm_compute; reflexivity|apply fresh_inv|vm_compute; discriminate].
Defined.

Lemma cli_rm_missing_witness :
  open ∅ = Ok (fresh_store, fresh_dir) /\ store_inv fresh_store fresh_dir /\
  view fresh_store fresh_dir !! bstr "a" = None /\
  main ∅ (CRm (bstr "a")) = outcome fresh_dir [LKeyNotFound] 1.
Proof.
  split; [vm_compute; reflexivity|]. split; [apply fresh_inv|].
  split; [vm_compute; reflexivity|].
  apply (cli_rm_missing ∅ fresh_store fresh_dir); [vm_compute; reflexivity|apply fresh_inv|vm_compute; reflexivity].
Defined.

End Cli.
