(* ===== verification/Session.v ===== *)
(** * A shell session: [kvs] run once per command on one directory

    Each command of project 2's command line is a process of its own
    ([project-2-self/src/bin/kvs.rs]): it opens the store in the
    directory, runs the command and exits; the next process finds only
    the files.  [session] runs [Cli.main] on a list of commands, each on
    the directory the previous one left.  [mem_session] runs the same
    commands on project 1's in-memory map ([MemStore]), printing what
    project 2 prints.  [session_refines]: as long as the generation
    numbers fit, the processes print and exit as the in-memory map says,
    and the directory left behind replays to the map project 1 ends in. *)

From S2P Require Import KvPrelude LogName Codec Index PosIO Engine EngineInv Replay Durable MemStore Cli.
Import LogName Codec Index PosIO KvStore EngineInv Replay Durable Cli.

Module Session.

Local Open Scope N_scope.

(** The generation [open] finds last in the directory. *)
Definition last_gen (d : Dir) : N := default 0 (last (sorted_gen_list d)).

(** One process per command, each on the directory the previous left. *)
Fixpoint session (d : Dir) (cs : list Command) : Dir * list Outcome :=
  match cs with
  | [] => (d, [])
  | c :: cs' =>
      let o := main d c in
      let '(d', os) := session (out_dir o) cs' in (d', o :: os)
  end.

(** What project 2 prints and its exit status, for project 1's map [m]. *)
Definition mem_cmd (m : MemStore.KvStore) (c : Command) : MemStore.KvStore * (list Line * nat) :=
  match c with
  | CGet k =>
      (m, ([match MemStore.get m k with Some v => LValue v | None => LKeyNotFound end], 0%nat))
  | CSet k v => (MemStore.set m k v, ([], 0%nat))
  | CRm k =>
      match MemStore.get m k with
      | Some _ => (MemStore.remove m k, ([], 0%nat))
      | None => (m, ([LKeyNotFound], 1%nat))
      end
  end.

Fixpoint mem_session (m : MemStore.KvStore) (cs : list Command)
    : MemStore.KvStore * list (list Line * nat) :=
  match cs with
  | [] => (m, [])
  | c :: cs' =>
      let '(m1, r) := mem_cmd m c in
      let '(m2, rs) := mem_session m1 cs' in (m2, r :: rs)
  end.

Definition printed (o : Outcome) : list Line * nat := (stdout o, exit_code o).

(** The commands of a short session. *)
Definition sample_commands : list Command :=
  [CSet (bstr "a") (bstr "1"); CGet (bstr "a"); CRm (bstr "a"); CRm (bstr "a"); CGet (bstr "a")].

(** ** One process *)

(** One run of [kvs] on a canonical directory standing for [m]: it
    prints what [mem_cmd] says, and leaves a canonical directory standing
    for the new map, at most three generations further on. *)
Lemma main_step d m c :
  canonical d -> dir_view d = MemStore.kv m -> last_gen d + 4 <= U64_MAX ->
  printed (main d c) = (mem_cmd m c).2 /\ canonical (out_dir (main d c)) /\
  dir_view (out_dir (main d c)) = MemStore.kv (mem_cmd m c).1 /\
  last_gen (out_dir (main d c)) <= last_gen d + 3.
Proof.
  intros Hcan Hm Hmax. unfold last_gen in *.
  destruct (open_durable d Hcan) as (st & d1 & Ho & Hinv & Hdur & Hv & Hcur); [lia|].
  rewrite Hm in Hv. unfold main. rewrite Ho.
  pose proof (durable_last st d1 Hinv Hdur) as Hl1.
  destruct c as [k|k v|k]; cbn [mem_cmd fst snd]; unfold MemStore.get, MemStore.set, MemStore.remove;
    cbn [MemStore.kv]; rewrite <- Hv.
  - destruct (get_view_spec st d1 k Hinv) as (st' & -> & _).
    destruct (view st d1 !! k); cbn [outcome out_dir printed stdout exit_code];
      (split_and!; [done|exact (dur_canonical _ _ Hdur)|exact (dur_view _ _ Hdur)|lia]).
  - destruct (set_durable st d1 k v Hinv Hdur) as (st' & d' & -> & Hinv' & Hdur' & Hv' & Hc');
      [lia|].
    cbn [outcome out_dir printed stdout exit_code]. split_and!; [done|exact (dur_canonical _ _ Hdur')| |].
    + by rewrite (dur_view _ _ Hdur').
    + rewrite (durable_last st' d') by done. lia.
  - destruct (view st d1 !! k) as [x|] eqn:Hk.
    + destruct (remove_durable st d1 k Hinv Hdur) as (st' & d' & -> & Hinv' & Hdur' & Hv' & Hc');
        [by eexists|].
      cbn [outcome out_dir printed stdout exit_code]. split_and!; [done|exact (dur_canonical _ _ Hdur')| |].
      * by rewrite (dur_view _ _ Hdur').
      * rewrite (durable_last st' d') by done. lia.
    + rewrite remove_absent_spec by done. cbn [outcome out_dir printed stdout exit_code].
      split_and!; [done|exact (dur_canonical _ _ Hdur)|cbn [fst]; by rewrite (dur_view _ _ Hdur), Hv|lia].
Qed.

(** ** The session *)

(** C2: A session of [kvs] processes on one directory behaves as project
    1's in-memory map: every process prints and exits as the map says,
    and the directory left at the end replays to the final map, as long
    as the generation numbers fit (three per process). *)
Theorem session_refines cs d m :
  canonical d -> dir_view d = MemStore.kv m ->
  last_gen d + 3 * N.of_nat (length cs) + 1 <= U64_MAX ->
  printed <$> (session d cs).2 = (mem_session m cs).2 /\
  canonical (session d cs).1 /\ dir_view (session d cs).1 = MemStore.kv (mem_session m cs).1.
Proof.
  revert d m. induction cs as [|c cs IH]; intros d m Hcan Hm Hmax; [done|].
  cbn [length] in Hmax.
  destruct (main_step d m c Hcan Hm) as (Hp & Hcan1 & Hm1 & Hl1); [lia|].
  destruct (IH (out_dir (main d c)) (mem_cmd m c).1 Hcan1 Hm1) as (Hps & Hcan2 & Hm2); [lia|].
  cbn [session mem_session].
  destruct (session (out_dir (main d c)) cs) as [d2 os], (mem_cmd m c) as [m1 r],
    (mem_session m1 cs) as [m2 rs] eqn:Ems.
  cbn [fst snd] in *. rewrite Ems in Hps, Hm2. cbn [fst snd] in *.
  rewrite fmap_cons, Hp, Hps. by split_and!.
Qed.

(** ** Witness: a session on an empty directory *)

Lemma empty_canonical : canonical ∅.
Proof. intros ? ? ? []%lookup_empty_Some. Qed.

Lemma session_refines_witness :
  canonical ∅ /\ dir_view ∅ = MemStore.kv MemStore.new /\
  last_gen ∅ + 3 * N.of_nat (length sample_commands) + 1 <= U64_MAX /\
  printed <$> (session ∅ sample_commands).2 = (mem_session MemStore.new sample_commands).2 /\
  canonical (session ∅ sample_commands).1 /\
  dir_view (session ∅ sample_commands).1 = MemStore.kv (mem_session MemStore.new sample_commands).1.
Proof.
  split; [apply empty_canonical|]. split; [reflexivity|]. split; [vm_compute; discriminate|].
  apply session_refines; [apply empty_canonical|reflexivity|vm_compute; discriminate].
Defined.

End Session.
