(* ===== verification/ThreadPool.v ===== *)
(** * The round-robin thread pool ([building-blocks/bb_4_threadpool/src/main.rs])

    [ThreadPool::new(n)] starts [n] worker threads, each owning the
    receiving end of a channel; the pool keeps the sending ends
    ([channels]), the join handles ([threads]) and a counter ([index]).
    [spawn] sends the job to channel [index % channels.len()] and then
    increments [index], under two separate acquisitions of the lock.
    A worker loops on [rx.recv()?]: it runs the jobs of its channel in
    order and returns [Err(RecvError)] once its channel is empty and all
    senders are dropped.  [wait] drops the senders ([channels.clear()])
    and joins the threads from the last to the first.  [main] starts 4
    workers, spawns 1000 jobs printing [HELLO! i] and waits.

    The concurrent system is a state [Sys] (pool, workers, standard
    output) with the worker threads' steps as a relation [wstep] and the
    main thread's operations as functions into [result] (a panic is an
    error value).  [main] is the relation [step] over a program counter
    [Pc].  Each printed line carries the index of the worker that printed
    it: a ghost tag, standard output is the lines without it.  Integer
    overflow of [index] panics, as in a debug build. *)

From Stdlib Require Import Wellfounded.
From S2P Require Import KvPrelude.

Module ThreadPool.

(** [usize::MAX] on a 64-bit target. *)
Definition USIZE_MAX : N := 18446744073709551615.

(** [type Job = Box<dyn FnOnce() + Send>]: a job prints [HELLO! {arg}]
    (the closures of [main]) or panics. *)
Record Job := { job_arg : nat; job_panics : bool }.

(** The closure [move || println!("HELLO! {i}")] of [main]. *)
Definition hello (i : nat) : Job := {| job_arg := i; job_panics := false |}.

(** A line of standard output; [LHello w i] was printed by worker [w]. *)
Inductive Line :=
| LHello (w : nat) (i : nat)
| LWorld.

(** A worker thread: the messages buffered in its channel, and whether
    it runs ([loop]), has returned [Err(RecvError)], or has panicked
    (dropping its receiver and the buffered jobs). *)
Inductive Status := Running | Exited | Panicked.

Record Worker := { rx : list Job; status : Status }.

(** [struct ThreadPool]: the sender of worker [w] is represented by [w]. *)
Record ThreadPool := { channels : list nat; threads : list nat; index : N }.

Record Sys := { pool : ThreadPool; workers : list Worker; out : list Line }.

Definition with_pool (s : Sys) (p : ThreadPool) : Sys :=
  {| pool := p; workers := workers s; out := out s |}.

(** Worker [w] becomes [wk]; the lines [ls] are printed. *)
Definition set_worker (s : Sys) (w : nat) (wk : Worker) (ls : list Line) : Sys :=
  {| pool := pool s; workers := <[w := wk]> (workers s); out := out s ++ ls |}.

(** ** The main thread's operations *)

Definition worker_new : Worker := {| rx := []; status := Running |}.

(** [ThreadPool::new(threads)]: one channel and one worker per thread,
    [index] at [0].  (A failure of [thread::spawn] is not modelled.) *)
Definition new (threads : N) : Sys :=
  let n := N.to_nat threads in
  {| pool := {| channels := seq 0 n; threads := seq 0 n; index := 0 |};
     workers := replicate n worker_new; out := [] |}.

(** [tx.send(job).unwrap()]: the job is buffered while the receiver
    lives; a send to a dropped receiver is [Err(SendError)]. *)
Definition send (ws : list Worker) (w : nat) (j : Job) : result (list Worker) :=
  match ws !! w with
  | Some {| rx := q; status := Running |} => Ok (<[w := {| rx := q ++ [j]; status := Running |}]> ws)
  | _ => Err (Panic "called `Result::unwrap()` on an `Err` value: SendError")
  end.

(** The first statement of [spawn]:
    [self.channels[*self.index.lock().unwrap() % self.channels.len()].send(..).unwrap()]. *)
Definition spawn_send (s : Sys) (j : Job) : result Sys :=
  let p := pool s in
  let len := length (channels p) in
  if decide (len = 0%nat) then Err (Panic "attempt to calculate the remainder with a divisor of zero")
  else
    let i := N.to_nat (index p mod N.of_nat len) in
    match channels p !! i with
    | None => Err (Panic "index out of bounds")
    | Some w =>
        let? ws := send (workers s) w j in
        Ok {| pool := p; workers := ws; out := out s |}
    end.

(** The second statement: [*self.index.lock().unwrap() += 1]. *)
Definition spawn_incr (s : Sys) : result Sys :=
  let p := pool s in
  if decide (index p + 1 <= USIZE_MAX)%N
  then Ok (with_pool s {| channels := channels p; threads := threads p; index := index p + 1 |})
  else Err (Panic "attempt to add with overflow").

Definition spawn (s : Sys) (j : Job) : result Sys :=
  let? s1 := spawn_send s j in spawn_incr s1.

(** [self.channels.clear()], the first statement of [wait]. *)
Definition clear (s : Sys) : Sys :=
  with_pool s {| channels := []; threads := threads (pool s); index := index (pool s) |}.

(** One iteration of [while let Some(j) = self.threads.pop() { j.join().unwrap(); }]:
    [None] while the last thread still runs ([join] blocks) or when
    there is no thread left; a thread that returned is popped, one that
    panicked makes [unwrap] panic. *)
Definition join_last (s : Sys) : option (result Sys) :=
  match last (threads (pool s)) with
  | None => None
  | Some w =>
      match workers s !! w with
      | Some {| status := Exited |} =>
          Some (Ok (with_pool s {| channels := channels (pool s);
                                   threads := removelast (threads (pool s));
                                   index := index (pool s) |}))
      | Some {| status := Panicked |} =>
          Some (Err (Panic "called `Result::unwrap()` on an `Err` value: Any"))
      | _ => None
      end
  end.

(** ** The worker threads *)

(** One step of a worker's [loop { let f: Job = rx.recv()?; f(); }]:
    run the next buffered job, or return [Err(RecvError)] when the
    channel is empty and its sender has been dropped. *)
Inductive wstep : Sys -> Sys -> Prop :=
| ws_run s w q j :
    workers s !! w = Some {| rx := j :: q; status := Running |} -> job_panics j = false ->
    wstep s (set_worker s w {| rx := q; status := Running |} [LHello w (job_arg j)])
| ws_panic s w q j :
    workers s !! w = Some {| rx := j :: q; status := Running |} -> job_panics j = true ->
    wstep s (set_worker s w {| rx := []; status := Panicked |} [])
| ws_exit s w :
    workers s !! w = Some {| rx := []; status := Running |} -> w ∉ channels (pool s) ->
    wstep s (set_worker s w {| rx := []; status := Exited |} []).

(** ** [main] *)

(** Where the main thread is: in the loop [for i in 0..njobs] before
    spawning job [i], inside [wait] after [clear], returned [Ok(())], or
    panicked. *)
Inductive Pc :=
| Spawning (i : nat)
| Joining
| Finished
| Aborted (e : error).

(** [main] after [ThreadPool::new], with [for i in 0..njobs] ([njobs =
    1000] in the source); the worker threads run concurrently with the
    main thread, at any point. *)
Inductive step (njobs : nat) : Sys * Pc -> Sys * Pc -> Prop :=
| st_worker s s' pc : wstep s s' -> step njobs (s, pc) (s', pc)
| st_spawn s s' i : (i < njobs)%nat -> spawn s (hello i) = Ok s' ->
    step njobs (s, Spawning i) (s', Spawning (S i))
| st_spawn_panic s e i : (i < njobs)%nat -> spawn s (hello i) = Err e ->
    step njobs (s, Spawning i) (s, Aborted e)
| st_wait s : step njobs (s, Spawning njobs) (clear s, Joining)
| st_join s s' : join_last s = Some (Ok s') -> step njobs (s, Joining) (s', Joining)
| st_join_panic s e : join_last s = Some (Err e) -> step njobs (s, Joining) (s, Aborted e)
| st_end s : threads (pool s) = [] ->
    step njobs (s, Joining)
      ({| pool := pool s; workers := workers s; out := out s ++ [LWorld] |}, Finished).

(** [let mut tp = ThreadPool::new(nthreads)?] ([nthreads = 4] in the source). *)
Definition main_init (nthreads : N) : Sys * Pc := (new nthreads, Spawning 0).

(** The loop [for i in js { tp.spawn(move || println!("HELLO! {i}")); }]
    run by the main thread alone. *)
Fixpoint spawn_jobs (s : Sys) (js : list nat) : result Sys :=
  match js with
  | [] => Ok s
  | i :: js' => let? s' := spawn s (hello i) in spawn_jobs s' js'
  end.

(** ** A schedule *)

(** Worker [w] takes its next step, if it can. *)
Definition worker_next (s : Sys) (w : nat) : option Sys :=
  match workers s !! w with
  | Some {| rx := j :: q; status := Running |} =>
      Some (if job_panics j then set_worker s w {| rx := []; status := Panicked |} []
            else set_worker s w {| rx := q; status := Running |} [LHello w (job_arg j)])
  | Some {| rx := []; status := Running |} =>
      if decide (w ∈ channels (pool s)) then None
      else Some (set_worker s w {| rx := []; status := Exited |} [])
  | _ => None
  end.

(** One step of [main] in which the main thread goes first, and the
    thread it is joining runs while it is blocked. *)
Definition next (njobs : nat) (x : Sys * Pc) : option (Sys * Pc) :=
  let '(s, pc) := x in
  match pc with
  | Spawning i =>
      if decide (i < njobs)%nat then
        Some (match spawn s (hello i) with Ok s' => (s', Spawning (S i)) | Err e => (s, Aborted e) end)
      else if decide (i = njobs) then Some (clear s, Joining) else None
  | Joining =>
      match last (threads (pool s)) with
      | None => Some ({| pool := pool s; workers := workers s; out := out s ++ [LWorld] |}, Finished)
      | Some w =>
          match join_last s with
          | Some (Ok s') => Some (s', Joining)
          | Some (Err e) => Some (s, Aborted e)
          | None => (fun s' => (s', Joining)) <$> worker_next s w
          end
      end
  | _ => None
  end.

Fixpoint run_main (fuel njobs : nat) (x : Sys * Pc) : Sys * Pc :=
  match fuel with
  | O => x
  | S f => match next njobs x with Some y => run_main f njobs y | None => x end
  end.

(** ** What [main] should print *)

(** The jobs of [0..i] that round-robin dispatch sends to worker [w] of [n]. *)
Definition sent (n w i : nat) : list nat := filter (fun j => j mod n = w) (seq 0 i).

(** The numbers worker [w] has printed, in order. *)
Definition printed (w : nat) (o : list Line) : list nat :=
  omap (fun l => match l with LHello w' i => if decide (w' = w) then Some i else None | LWorld => None end) o.

(** The numbers of all [HELLO!] lines, in order. *)
Definition hellos (o : list Line) : list nat :=
  omap (fun l => match l with LHello _ i => Some i | LWorld => None end) o.

(** Worker [w] has printed a prefix of the jobs sent to it and holds the
    rest in its channel, in order. *)
Definition worker_ok (sentw : list nat) (o : list Line) (w : nat) (wk : Worker) : Prop :=
  exists l, rx wk = hello <$> l /\ printed w o ++ l = sentw.

(** The invariant of [main] with [n] workers and [k] jobs. *)
Definition main_inv (n k : nat) (x : Sys * Pc) : Prop :=
  let '(s, pc) := x in
  length (workers s) = n /\ (forall w i, LHello w i ∈ out s -> (w < n)%nat) /\
  match pc with
  | Spawning i =>
      (i <= k)%nat /\ channels (pool s) = seq 0 n /\ threads (pool s) = seq 0 n /\
      index (pool s) = N.of_nat i /\ LWorld ∉ out s /\
      forall w wk, workers s !! w = Some wk -> status wk = Running /\ worker_ok (sent n w i) (out s) w wk
  | Joining =>
      channels (pool s) = [] /\ LWorld ∉ out s /\
      exists m, (m <= n)%nat /\ threads (pool s) = seq 0 m /\
      forall w wk, workers s !! w = Some wk ->
        status wk <> Panicked /\ worker_ok (sent n w k) (out s) w wk /\
        (status wk = Exited -> rx wk = []) /\ ((m <= w)%nat -> status wk = Exited)
  | Finished =>
      exists o, out s = o ++ [LWorld] /\ LWorld ∉ o /\
      forall w wk, workers s !! w = Some wk -> status wk = Exited /\ printed w o = sent n w k
  | Aborted _ => False
  end.

(** The work left: the jobs buffered, the workers still running, the
    threads not yet joined, and the main thread's own steps. *)
Definition wload (wk : Worker) : nat :=
  length (rx wk) + match status wk with Running => 1 | _ => 0 end.

Definition measure (njobs : nat) (x : Sys * Pc) : nat :=
  let '(s, pc) := x in
  sum_list_with wload (workers s) + length (threads (pool s)) +
  match pc with
  | Spawning i => 2 * (njobs - i) + 2
  | Joining => 1
  | _ => 0
  end.

(** ** [spawn] *)

Lemma index_mod_seq n i :
  (0 < n)%nat -> seq 0 n !! N.to_nat (N.of_nat i mod N.of_nat (length (seq 0 n))) = Some (i mod n).
Proof.
  intros Hn. rewrite length_seq, <- Nat2N.inj_mod, Nat2N.id.
  apply lookup_seq. split; [done|]. apply Nat.mod_upper_bound. lia.
Qed.

(** [spawn] on a pool whose channels are those [new] made: the job is
    appended to the queue of worker [index mod n], and [index] grows by one. *)
Lemma spawn_seq_spec s n i j q :
  channels (pool s) = seq 0 n -> (0 < n)%nat -> index (pool s) = N.of_nat i ->
  (N.of_nat i + 1 <= USIZE_MAX)%N ->
  workers s !! (i mod n) = Some {| rx := q; status := Running |} ->
  spawn s j = Ok {| pool := {| channels := seq 0 n; threads := threads (pool s); index := N.of_nat (S i) |};
                    workers := <[i mod n := {| rx := q ++ [j]; status := Running |}]> (workers s);
                    out := out s |}.
Proof.
  intros Hc Hn Hi Hmax Hw. unfold spawn, spawn_send. rewrite Hc, Hi.
  rewrite decide_False by (rewrite length_seq; lia).
  rewrite index_mod_seq by done. unfold send. rewrite Hw. cbn [res_bind].
  unfold spawn_incr. cbn [pool index channels threads]. rewrite Hi, Hc.
  rewrite decide_True by done. unfold with_pool. cbn [workers out].
  by rewrite Nat2N.inj_succ, <- N.add_1_r.
Qed.

(** The lock is taken twice: a [spawn] that runs between the two
    statements of another one reads the same [index]. *)
Lemma spawn_send_pool s j s' : spawn_send s j = Ok s' -> pool s' = pool s.
Proof.
  unfold spawn_send. case_decide; [done|].
  destruct (channels (pool s) !! _); [|done]. intros ?%res_bind_Ok. naive_solver.
Qed.

Lemma spawn_send_target s j s' :
  spawn_send s j = Ok s' ->
  exists w q, channels (pool s) !! N.to_nat (index (pool s) mod N.of_nat (length (channels (pool s)))) = Some w /\
    workers s !! w = Some {| rx := q; status := Running |} /\
    workers s' = <[w := {| rx := q ++ [j]; status := Running |}]> (workers s).
Proof.
  unfold spawn_send. case_decide; [done|].
  destruct (channels (pool s) !! _) as [w|]; [|done]. intros (ws & Hs & [= <-])%res_bind_Ok.
  unfold send in Hs. destruct (workers s !! w) as [[q []]|] eqn:Hw; try done.
  injection Hs as <-. by exists w, q.
Qed.

(** ** Output and dispatch bookkeeping *)

Lemma printed_app w o1 o2 : printed w (o1 ++ o2) = printed w o1 ++ printed w o2.
Proof. apply omap_app. Qed.

Lemma printed_hello w w' i : printed w [LHello w' i] = if decide (w' = w) then [i] else [].
Proof. unfold printed. cbn [omap list_omap]. by case_decide. Qed.

Lemma hellos_app o1 o2 : hellos (o1 ++ o2) = hellos o1 ++ hellos o2.
Proof. apply omap_app. Qed.

Lemma sent_S n w i : sent n w (S i) = sent n w i ++ (if decide (i mod n = w) then [i] else []).
Proof.
  unfold sent. by rewrite seq_S, filter_app.
Qed.

(** Printing by another worker leaves [w]'s account as it is. *)
Lemma worker_ok_other sw o w w' i wk :
  w' <> w -> worker_ok sw o w wk -> worker_ok sw (o ++ [LHello w' i]) w wk.
Proof.
  intros Hne (l & Hl & Hp). exists l. split; [done|].
  by rewrite printed_app, printed_hello, decide_False, app_nil_r.
Qed.

(** What one worker step does to the accounts: the pool and the number of
    workers stay, at most one line is printed (by a worker), the stepping
    worker runs on or exits (a job of [main] does not panic), and every
    worker keeps its account. *)
Lemma wstep_ok sf s s' :
  wstep s s' -> (forall w wk, workers s !! w = Some wk -> worker_ok (sf w) (out s) w wk) ->
  pool s' = pool s /\ length (workers s') = length (workers s) /\
  (out s' = out s \/ exists w i, (w < length (workers s))%nat /\ out s' = out s ++ [LHello w i]) /\
  forall w wk', workers s' !! w = Some wk' -> worker_ok (sf w) (out s') w wk' /\
    exists wk, workers s !! w = Some wk /\
      (wk' = wk \/ (status wk = Running /\ status wk' = Running) \/
       (status wk = Running /\ wk' = {| rx := []; status := Exited |} /\ w ∉ channels (pool s))).
Proof.
  intros Hst Hok.
  destruct Hst as [s w q j Hw Hj|s w q j Hw Hj|s w Hw Hc]; unfold set_worker; cbn [pool workers out];
    (split_and!; [done|by rewrite length_insert| |]).
  - right. exists w, (job_arg j). split; [by eapply lookup_lt_Some|done].
  - intros w' wk' [(<- & <- & _)|(Hne & Hw')]%list_lookup_insert_Some.
    + destruct (Hok w _ Hw) as ([|i l] & Hl & Hp); [done|]. injection Hl as -> ->.
      split; [|eexists; split; [done|naive_solver]].
      exists l. split; [done|]. by rewrite printed_app, printed_hello, decide_True, <- app_assoc.
    + split; [by apply worker_ok_other, Hok|]. eauto.
  - left. by rewrite app_nil_r.
  - destruct (Hok w _ Hw) as ([|i l] & Hl & Hp); [done|]. injection Hl as -> ->. done.
  - left. by rewrite app_nil_r.
  - rewrite app_nil_r. intros w' wk' [(<- & <- & _)|(Hne & Hw')]%list_lookup_insert_Some.
    + split; [|eexists; split; [done|naive_solver]].
      destruct (Hok w _ Hw) as (l & Hl & Hp). exists l. by split; [destruct l|].
    + split; [by apply Hok|]. eauto.
Qed.

Lemma concat_map_app {A B} (f g : A -> list B) xs :
  concat (map (fun x => f x ++ g x) xs) ≡ₚ concat (map f xs) ++ concat (map g xs).
Proof. induction xs as [|x xs IH]; [done|]. cbn [map concat]. rewrite IH. solve_Permutation. Qed.

Lemma concat_map_nil {A B} (xs : list A) : concat (map (fun _ => @nil B) xs) = [].
Proof. by induction xs. Qed.

(** Exactly one element of [xs] is [a]. *)
Lemma concat_map_indicator {B} (xs : list nat) a (b : B) :
  NoDup xs -> concat (map (fun x => if decide (a = x) then [b] else []) xs) =
              if decide (a ∈ xs) then [b] else [].
Proof.
  induction 1 as [|x xs Hx Hnd IH]; [done|]. cbn [map concat]. rewrite IH.
  repeat case_decide; subst; set_solver.
Qed.

(** Every line is printed by one of the [n] workers: the [HELLO!] lines
    are the workers' outputs put together. *)
Lemma hellos_perm n o :
  (forall w i, LHello w i ∈ o -> (w < n)%nat) ->
  hellos o ≡ₚ concat (map (fun w => printed w o) (seq 0 n)).
Proof.
  induction o as [|l o IH]; intros Ho.
  { by rewrite (map_ext _ (fun _ => [])), concat_map_nil. }
  change (l :: o) with ([l] ++ o). rewrite hellos_app.
  rewrite (map_ext _ (fun w => printed w [l] ++ printed w o)) by (intros; apply printed_app).
  rewrite concat_map_app, <- IH by (intros; eapply Ho; by right). f_equiv.
  destruct l as [w i|]; cbn [hellos omap list_omap].
  - rewrite (map_ext _ (fun x => if decide (w = x) then [i] else [])) by (intros; apply printed_hello).
    rewrite concat_map_indicator, decide_True by (apply NoDup_seq || (apply elem_of_seq;
      split; [lia|]; eapply Ho; by left)). done.
  - by rewrite (map_ext _ (fun _ => [])), concat_map_nil.
Qed.

(** Round-robin dispatch of [0..k] to [n] workers hands out every job once. *)
Lemma sent_perm n k : (0 < n)%nat -> concat (map (fun w => sent n w k) (seq 0 n)) ≡ₚ seq 0 k.
Proof.
  intros Hn. induction k as [|k IH].
  { by rewrite (map_ext _ (fun _ => [])), concat_map_nil. }
  rewrite (map_ext _ (fun w => sent n w k ++ (if decide (k mod n = w) then [k] else [])))
    by (intros; apply sent_S).
  rewrite concat_map_app, IH, concat_map_indicator by apply NoDup_seq.
  rewrite decide_True, seq_S; [done|].
  apply elem_of_seq. split; [lia|]. apply Nat.mod_upper_bound. lia.
Qed.

(** ** The invariant of [main] *)

Lemma out_step n o o' :
  (o' = o \/ exists w i, (w < n)%nat /\ o' = o ++ [LHello w i]) ->
  (forall w i, LHello w i ∈ o -> (w < n)%nat) -> LWorld ∉ o ->
  (forall w i, LHello w i ∈ o' -> (w < n)%nat) /\ LWorld ∉ o'.
Proof.
  intros [->|(w & i & Hw & ->)] Ho Hl; [done|]. split.
  - intros w' i' [Hin|[= -> ->]%list_elem_of_singleton]%elem_of_app; eauto.
  - intros [?|?%list_elem_of_singleton]%elem_of_app; [done|discriminate].
Qed.

Section MainInv.
Context (n k : nat).
Hypothesis Hn : (0 < n)%nat.
Hypothesis Hk : (N.of_nat k <= USIZE_MAX)%N.

Lemma inv_init : main_inv n k (main_init (N.of_nat n)).
Proof.
  unfold main_init, new. rewrite Nat2N.id. cbn [main_inv workers out pool channels threads index].
  rewrite length_replicate. split_and!; try done; [set_solver|lia|set_solver|].
  intros w wk [-> _]%lookup_replicate. split; [done|]. exists []. split; [done|].
  unfold sent. cbn. done.
Qed.

Lemma inv_worker s pc s' : main_inv n k (s, pc) -> wstep s s' -> main_inv n k (s', pc).
Proof.
  intros Hinv Hst. destruct pc as [i| | |e]; cbn [main_inv] in Hinv |- *.
  - destruct Hinv as (Hlen & Hw & Hi & Hc & Ht & Hx & Hl & Hall).
    destruct (wstep_ok (fun w => sent n w i) s s' Hst) as (Hp & Hlen' & Ho & Hall');
      [intros; by apply Hall|].
    rewrite Hp, Hlen'. rewrite Hlen in Ho. destruct (out_step n _ _ Ho Hw Hl) as [Hw' Hl'].
    split_and!; try done. intros w wk' Hwk'. destruct (Hall' w wk' Hwk') as (Hok & wk & Hwk & Hcase).
    split; [|done]. destruct (Hall w wk Hwk) as [Hr _].
    destruct Hcase as [->|[[_ ?]|(_ & _ & Hnot)]]; [done|done|].
    exfalso. apply Hnot. rewrite Hc. apply elem_of_seq. pose proof (lookup_lt_Some _ _ _ Hwk). lia.
  - destruct Hinv as (Hlen & Hw & Hc & Hl & m & Hm & Ht & Hall).
    destruct (wstep_ok (fun w => sent n w k) s s' Hst) as (Hp & Hlen' & Ho & Hall');
      [intros; by apply Hall|].
    rewrite Hp, Hlen'. rewrite Hlen in Ho. destruct (out_step n _ _ Ho Hw Hl) as [Hw' Hl'].
    split_and!; try done. exists m. split_and!; [done|done|].
    intros w wk' Hwk'. destruct (Hall' w wk' Hwk') as (Hok & wk & Hwk & Hcase).
    destruct (Hall w wk Hwk) as (Hnp & _ & Hex & Hge).
    destruct Hcase as [->|[[Hr Hr']|(_ & -> & _)]]; [done| |done].
    rewrite Hr'. split_and!; try done. intros ?%Hge. congruence.
  - exfalso. destruct Hinv as (_ & _ & o & _ & _ & Hall).
    destruct Hst as [s w q j Hwk _|s w q j Hwk _|s w Hwk _];
      destruct (Hall _ _ Hwk) as [Hs _]; discriminate.
  - by destruct Hinv as (_ & _ & []).
Qed.

(** While spawning, [spawn] does not panic: it appends job [i] to the
    queue of worker [i mod n]. *)
Lemma inv_spawn s i :
  main_inv n k (s, Spawning i) -> (i < k)%nat ->
  exists s', spawn s (hello i) = Ok s' /\ main_inv n k (s', Spawning (S i)).
Proof.
  intros (Hlen & Hw & Hi & Hc & Ht & Hx & Hl & Hall) Hik.
  assert (Hmod : (i mod n < n)%nat) by (apply Nat.mod_upper_bound; lia).
  destruct (lookup_lt_is_Some_2 (workers s) (i mod n)) as [[q st] Hq]; [lia|].
  destruct (Hall _ _ Hq) as [Hr (l & Hl' & Hp)]. cbn [status rx] in Hr, Hl'. subst st.
  eexists. rewrite (spawn_seq_spec s n i (hello i) q) by (done || lia). split; [done|].
  cbn [main_inv workers out pool channels threads index]. rewrite length_insert.
  split_and!; try (done || lia).
  intros w wk [(<- & <- & _)|(Hne & Hwk)]%list_lookup_insert_Some.
  - split; [done|]. exists (l ++ [i]). rewrite Hl', fmap_app, sent_S, decide_True by done.
    by rewrite <- Hp, app_assoc.
  - destruct (Hall w wk Hwk) as [Hr' Hok]. split; [done|]. by rewrite sent_S, decide_False, app_nil_r.
Qed.

Lemma inv_wait s : main_inv n k (s, Spawning k) -> main_inv n k (clear s, Joining).
Proof.
  intros (Hlen & Hw & _ & Hc & Ht & _ & Hl & Hall).
  cbn [main_inv clear with_pool workers out pool channels threads].
  split_and!; try done. exists n. split_and!; [done|done|].
  intros w wk Hwk. destruct (Hall w wk Hwk) as [Hr Hok]. rewrite Hr.
  split_and!; try done. intros Hge. pose proof (lookup_lt_Some _ _ _ Hwk). lia.
Qed.

(** While joining, [join] does not panic: a thread that is joined has
    returned. *)
Lemma inv_join s r :
  main_inv n k (s, Joining) -> join_last s = Some r ->
  exists s', r = Ok s' /\ main_inv n k (s', Joining).
Proof.
  intros (Hlen & Hw & Hc & Hl & m & Hm & Ht & Hall). unfold join_last. rewrite Ht.
  destruct m as [|m]; [done|]. rewrite seq_S, last_snoc. cbn [Nat.add].
  destruct (workers s !! m) as [[q st]|] eqn:Hq; [|done].
  destruct (Hall _ _ Hq) as (Hnp & _ & _ & _). cbn [status] in Hnp.
  destruct st; try done. intros [= <-]. eexists. split; [done|].
  cbn [main_inv with_pool workers out pool channels threads].
  rewrite removelast_last. split_and!; try done. exists m. split_and!; [lia|done|].
  intros w wk Hwk. destruct (Hall w wk Hwk) as (? & ? & ? & Hge). split_and!; try done.
  intros Hmw. destruct (decide (w = m)) as [->|]; [|apply Hge; lia].
  rewrite Hq in Hwk. by injection Hwk as <-.
Qed.

Lemma inv_end s :
  main_inv n k (s, Joining) -> threads (pool s) = [] ->
  main_inv n k ({| pool := pool s; workers := workers s; out := out s ++ [LWorld] |}, Finished).
Proof.
  intros (Hlen & Hw & Hc & Hl & m & Hm & Ht & Hall) Hnil. rewrite Ht in Hnil.
  destruct m; [|done]. cbn [main_inv workers out]. split_and!; [done| |].
  - intros w i [Hin|Hin%list_elem_of_singleton]%elem_of_app; [eauto|discriminate].
  - exists (out s). split_and!; [done|done|]. intros w wk Hwk.
    destruct (Hall w wk Hwk) as (_ & (l & Hrx & Hp) & Hex & Hge).
    specialize (Hge ltac:(lia)). split; [done|].
    rewrite (Hex Hge) in Hrx. destruct l; [|done]. by rewrite <- Hp, app_nil_r.
Qed.

(** Every step of [main] keeps the invariant (so no step panics). *)
Lemma inv_step x y : main_inv n k x -> step k x y -> main_inv n k y.
Proof.
  intros Hinv Hst.
  destruct Hst as [s s' pc Hs|s s' i Hi Hsp|s e i Hi Hsp|s|s s' Hj|s e Hj|s Ht].
  - by eapply inv_worker.
  - destruct (inv_spawn s i Hinv Hi) as (s1 & Hs1 & Hinv1). congruence.
  - destruct (inv_spawn s i Hinv Hi) as (s1 & Hs1 & _). congruence.
  - by apply inv_wait.
  - destruct (inv_join s _ Hinv Hj) as (s1 & [= <-] & ?). done.
  - by destruct (inv_join s _ Hinv Hj) as (s1 & ? & _).
  - by apply inv_end.
Qed.

Lemma inv_rtc x y : main_inv n k x -> rtc (step k) x y -> main_inv n k y.
Proof. intros Hx Hr. induction Hr as [|x y z Hxy _ IH]; [done|]. apply IH. by eapply inv_step. Qed.

Lemma inv_reachable x : rtc (step k) (main_init (N.of_nat n)) x -> main_inv n k x.
Proof. apply inv_rtc, inv_init. Qed.

End MainInv.

(** ** Termination *)

Lemma sum_list_insert {A} (f : A -> nat) (l : list A) i x y :
  l !! i = Some y -> sum_list_with f (<[i:=x]> l) + f y = sum_list_with f l + f x.
Proof.
  revert i. induction l as [|z l IH]; intros [|i] Hi; try done.
  - injection Hi as ->. cbn [sum_list_with insert list_insert]. lia.
  - cbn [lookup list_lookup] in Hi. specialize (IH i Hi). simpl. lia.
Qed.

(** A worker step takes one unit of work off its worker. *)
Lemma wstep_load s s' :
  wstep s s' -> sum_list_with wload (workers s') < sum_list_with wload (workers s) /\ pool s' = pool s.
Proof.
  destruct 1 as [s w q j Hw _|s w q j Hw _|s w Hw _]; unfold set_worker; cbn [workers pool];
    (split; [|done]);
    match goal with |- context [<[w := ?x]> _] => pose proof (sum_list_insert wload _ _ x _ Hw) as Hs end;
    unfold wload in *; cbn [rx status length] in Hs |- *; lia.
Qed.

Lemma removelast_length {A} (l : list A) x : last l = Some x -> length (removelast l) < length l.
Proof.
  intros Hl. destruct l as [|y l] using rev_ind; [done|].
  rewrite removelast_last, length_app. cbn. lia.
Qed.

(** Every step of [main] does some of the work left. *)
Lemma step_measure njobs x y : step njobs x y -> measure njobs y < measure njobs x.
Proof.
  destruct 1 as [s s' pc Hs|s s' i Hi Hsp|s e i Hi _|s|s s' Hj|s e _|s _]; cbn [measure].
  - destruct (wstep_load s s' Hs) as [Hl ->]. destruct pc; lia.
  - unfold spawn in Hsp. apply res_bind_Ok in Hsp as (s1 & Hs1 & Hi1).
    destruct (spawn_send_target s _ s1 Hs1) as (w & q & _ & Hw & Hws).
    pose proof (spawn_send_pool s _ s1 Hs1) as Hp.
    unfold spawn_incr in Hi1. case_decide; [|done]. injection Hi1 as <-. unfold with_pool.
    cbn [workers pool threads]. rewrite Hws, Hp.
    pose proof (sum_list_insert wload _ _ {| rx := q ++ [hello i]; status := Running |} _ Hw) as Hsum.
    assert (wload {| rx := q ++ [hello i]; status := Running |} = S (wload {| rx := q; status := Running |}))
      as Hq by (unfold wload; cbn [rx status]; rewrite length_app; cbn; lia).
    rewrite Hq in Hsum. lia.
  - lia.
  - unfold clear, with_pool. cbn [workers pool threads]. lia.
  - unfold join_last in Hj. destruct (last (threads (pool s))) as [w|] eqn:Hl; [|done].
    destruct (workers s !! w) as [[q []]|]; try done. injection Hj as <-.
    unfold with_pool. cbn [workers pool threads]. pose proof (removelast_length _ _ Hl). lia.
  - lia.
  - cbn [workers pool]. lia.
Qed.

Lemma step_wf njobs : well_founded (fun y x => step njobs x y).
Proof.
  apply (wf_incl _ _ (fun y x => measure njobs y < measure njobs x)).
  - intros y x. apply step_measure.
  - apply (wf_inverse_image _ _ lt), lt_wf.
Qed.

(** ** Progress and completion of [main] *)

Section MainRun.
Context (n k : nat).
Hypothesis Hn : (0 < n)%nat.
Hypothesis Hk : (N.of_nat k <= USIZE_MAX)%N.

(** Under the invariant [main] has returned or some thread can step. *)
Lemma inv_progress x : main_inv n k x -> snd x = Finished \/ exists y, step k x y.
Proof.
  destruct x as [s [i| | |e]]; intros Hinv; cbn [snd]; [right|right|by left|by destruct Hinv as (_ & _ & [])].
  - destruct (decide (i < k)%nat).
    + destruct (inv_spawn n k Hn Hk s i Hinv) as (s' & Hs' & _); [done|]. eexists. by apply st_spawn.
    + destruct Hinv as (_ & _ & Hi & _). assert (i = k) as -> by lia. eexists. apply st_wait.
  - destruct Hinv as (Hlen & Hw & Hc & Hl & m & Hm & Ht & Hall).
    destruct m as [|m]; [eexists; by apply st_end|].
    destruct (lookup_lt_is_Some_2 (workers s) m) as [[q st] Hq]; [lia|].
    destruct (Hall _ _ Hq) as (Hnp & (l & Hrx & _) & _ & _). cbn [status rx] in Hnp, Hrx. subst q.
    destruct st; [|eexists; apply st_join; unfold join_last; rewrite Ht, seq_S, last_snoc; cbn [Nat.add]; by rewrite Hq|done].
    destruct l as [|i l]; eexists; apply st_worker.
    + apply ws_exit; [done|]. rewrite Hc. apply not_elem_of_nil.
    + by eapply ws_run.
Qed.

(** From any state satisfying the invariant, [main] runs to its end. *)
Lemma inv_completes x : main_inv n k x -> exists y, rtc (step k) x y /\ snd y = Finished.
Proof.
  induction x as [x IH] using (well_founded_induction (step_wf k)). intros Hinv.
  destruct (inv_progress x Hinv) as [Hf|[y Hxy]]; [by exists x|].
  destruct (IH y Hxy) as (z & Hyz & Hz); [by eapply (inv_step n k Hn Hk)|].
  exists z. split; [by eapply rtc_l|done].
Qed.

(** When [main] has returned, it has printed every [HELLO! i] for [i]
    below [k] once, each worker its own jobs in the order they were
    spawned, and [Hello, world!] last. *)
Lemma inv_output y :
  main_inv n k y -> snd y = Finished ->
  exists o, out (fst y) = o ++ [LWorld] /\ hellos o ≡ₚ seq 0 k /\
    forall w, (w < n)%nat -> printed w o = sent n w k.
Proof.
  destruct y as [s pc]. cbn [fst snd]. intros Hinv ->.
  destruct Hinv as (Hlen & Hw & o & Ho & Hl & Hall). exists o.
  assert (Hp : forall w, (w < n)%nat -> printed w o = sent n w k).
  { intros w Hlt. destruct (lookup_lt_is_Some_2 (workers s) w) as [wk Hwk]; [lia|].
    apply (Hall w wk Hwk). }
  split_and!; [done| |done].
  rewrite (hellos_perm n) by (intros w i Hin; apply (Hw w i); rewrite Ho; set_solver).
  rewrite (map_ext_in _ (fun w => sent n w k)); [by apply sent_perm|].
  intros w ?%list_elem_of_In%elem_of_seq. apply Hp. lia.
Qed.

End MainRun.

(** ** The schedule is one of the interleavings *)

Lemma worker_next_step s w s' : worker_next s w = Some s' -> wstep s s'.
Proof.
  unfold worker_next. destruct (workers s !! w) as [[[|j q] []]|] eqn:Hw; try done.
  - case_decide; [done|]. intros [= <-]. by apply ws_exit.
  - destruct (job_panics j) eqn:Hj; intros [= <-]; [by eapply ws_panic|by eapply ws_run].
Qed.

Lemma next_step njobs x y : next njobs x = Some y -> step njobs x y.
Proof.
  destruct x as [s [i| | |e]]; cbn [next]; try done.
  - case_decide.
    + destruct (spawn s (hello i)) eqn:Hs; intros [= <-]; [by apply st_spawn|by apply st_spawn_panic].
    + case_decide; [subst; intros [= <-]; apply st_wait|done].
  - destruct (last (threads (pool s))) as [w|] eqn:Hl.
    + destruct (join_last s) as [[s'|e]|] eqn:Hj.
      * intros [= <-]. by apply st_join.
      * intros [= <-]. by apply st_join_panic.
      * destruct (worker_next s w) as [s'|] eqn:Hw; [|done]. intros [= <-].
        by apply st_worker, (worker_next_step s w).
    + intros [= <-]. apply st_end. by apply last_None.
Qed.

Lemma run_main_rtc fuel njobs x : rtc (step njobs) x (run_main fuel njobs x).
Proof.
  revert x. induction fuel as [|f IH]; intros x; cbn [run_main]; [done|].
  destruct (next njobs x) as [y|] eqn:Hn; [|done]. eapply rtc_l; [by apply next_step|apply IH].
Qed.

(** ** The spawning loop alone *)

Lemma spawn_out s j s' : spawn s j = Ok s' -> out s' = out s.
Proof.
  unfold spawn. intros (s1 & Hs1 & Hi)%res_bind_Ok. unfold spawn_incr in Hi.
  case_decide; [|done]. injection Hi as <-. unfold spawn_send in Hs1.
  case_decide; [done|]. destruct (channels (pool s) !! _); [|done].
  apply res_bind_Ok in Hs1 as (ws & _ & [= <-]). done.
Qed.

Lemma spawn_jobs_app s js1 js2 :
  spawn_jobs s (js1 ++ js2) = let? s1 := spawn_jobs s js1 in spawn_jobs s1 js2.
Proof.
  revert s. induction js1 as [|i js1 IH]; intros s; [done|]. cbn [app spawn_jobs].
  destruct (spawn s (hello i)); cbn [res_bind]; [apply IH|done].
Qed.

Lemma spawn_jobs_inv n k i :
  (0 < n)%nat -> (N.of_nat k <= USIZE_MAX)%N -> (i <= k)%nat ->
  exists s, spawn_jobs (new (N.of_nat n)) (seq 0 i) = Ok s /\ main_inv n k (s, Spawning i) /\ out s = [].
Proof.
  intros Hn Hk. induction i as [|i IH]; intros Hi.
  { exists (new (N.of_nat n)). split; [done|split; [apply (inv_init n k Hn Hk)|done]]. }
  destruct IH as (s & Hs & Hinv & Ho); [lia|].
  destruct (inv_spawn n k Hn Hk s i Hinv) as (s' & Hs' & Hinv'); [lia|].
  exists s'. rewrite seq_S, spawn_jobs_app, Hs. cbn [res_bind spawn_jobs Nat.add]. rewrite Hs'.
  split_and!; [done|done|]. by rewrite (spawn_out _ _ _ Hs').
Qed.

(** ** How long [main] runs *)

Lemma measure_init n k : measure k (main_init (N.of_nat n)) = (2 * n + 2 * k + 2)%nat.
Proof.
  unfold measure, main_init, new. cbn [workers pool threads]. rewrite Nat2N.id, length_seq.
  assert (sum_list_with wload (replicate n worker_new) = n) as ->; [|lia].
  induction n as [|n IH]; [done|]. cbn [replicate sum_list_with]. rewrite IH. done.
Qed.

Lemma nsteps_measure njobs m x y : nsteps (step njobs) m x y -> (m + measure njobs y <= measure njobs x)%nat.
Proof. induction 1 as [|m x y z Hxy _ IH]; [lia|]. pose proof (step_measure _ _ _ Hxy). lia. Qed.

(** ** Properties of [main] and of [spawn] *)

(** C12: [main] with at least one worker never panics: no [spawn] and no
    [join] fails, whatever the interleaving of the threads. *)
Theorem main_never_panics nthreads njobs x :
  (0 < N.to_nat nthreads)%nat -> (N.of_nat njobs <= USIZE_MAX)%N ->
  rtc (step njobs) (main_init nthreads) x -> forall e, snd x <> Aborted e.
Proof.
  intros Hn Hk Hr e He. rewrite <- (N2Nat.id nthreads) in Hr.
  destruct x as [s pc]. cbn [snd] in He. subst pc.
  by destruct (inv_reachable _ _ Hn Hk _ Hr) as (_ & _ & []).
Qed.

(** C13: Liveness: from every state [main] can reach, it can run on to
    return from [main] (and since it cannot run forever, every run does). *)
Theorem main_completes nthreads njobs x :
  (0 < N.to_nat nthreads)%nat -> (N.of_nat njobs <= USIZE_MAX)%N ->
  rtc (step njobs) (main_init nthreads) x -> exists y, rtc (step njobs) x y /\ snd y = Finished.
Proof.
  intros Hn Hk Hr. rewrite <- (N2Nat.id nthreads) in Hr.
  apply (inv_completes _ _ Hn Hk), (inv_reachable _ _ Hn Hk _ Hr).
Qed.

(** C11: When [main] returns it has printed [HELLO! i] once for every [i]
    below [njobs], in some order, each worker [w] the jobs [i] with
    [i mod nthreads = w] in increasing order, and [Hello, world!] last. *)
Theorem main_output nthreads njobs y :
  (0 < N.to_nat nthreads)%nat -> (N.of_nat njobs <= USIZE_MAX)%N ->
  rtc (step njobs) (main_init nthreads) y -> snd y = Finished ->
  exists o, out (fst y) = o ++ [LWorld] /\ hellos o ≡ₚ seq 0 njobs /\
    forall w, (w < N.to_nat nthreads)%nat -> printed w o = sent (N.to_nat nthreads) w njobs.
Proof.
  intros Hn Hk Hr Hf. rewrite <- (N2Nat.id nthreads) in Hr.
  apply (inv_output _ _ Hn Hk); [apply (inv_reachable _ _ Hn Hk _ Hr)|done].
Qed.

(** C14: Termination with a bound: every run of [main] with [n] workers
    and [k] jobs has at most [2n + 2k + 2] steps, over all interleavings. *)
Theorem main_steps_bounded nthreads njobs m y :
  nsteps (step njobs) m (main_init nthreads) y -> (m <= 2 * N.to_nat nthreads + 2 * njobs + 2)%nat.
Proof.
  intros Hs. rewrite <- (N2Nat.id nthreads) in Hs.
  pose proof (nsteps_measure _ _ _ _ Hs). rewrite measure_init in *. lia.
Qed.

(** C15: Round robin: the spawning loop alone sends job [i] to worker
    [i mod n]; each worker's channel holds its jobs in spawn order, and
    [index] counts the jobs. *)
Theorem spawn_round_robin nthreads njobs :
  (0 < N.to_nat nthreads)%nat -> (N.of_nat njobs <= USIZE_MAX)%N ->
  exists s, spawn_jobs (new nthreads) (seq 0 njobs) = Ok s /\ index (pool s) = N.of_nat njobs /\
    forall w, (w < N.to_nat nthreads)%nat ->
      workers s !! w = Some {| rx := hello <$> sent (N.to_nat nthreads) w njobs; status := Running |}.
Proof.
  intros Hn Hk. rewrite <- (N2Nat.id nthreads). rewrite Nat2N.id.
  destruct (spawn_jobs_inv _ njobs njobs Hn Hk) as (s & Hs & Hinv & Ho); [done|].
  destruct Hinv as (Hlen & _ & _ & _ & _ & Hi & _ & Hall).
  exists s. split_and!; [done|done|]. intros w Hw.
  destruct (lookup_lt_is_Some_2 (workers s) w) as [[q st] Hq]; [lia|].
  destruct (Hall _ _ Hq) as [Hr (l & Hl & Hp)]. cbn [rx status] in Hr, Hl. subst.
  rewrite Hq, Ho in *. by rewrite <- Hp.
Qed.

(** ** Witnesses: [main] as in the source, 4 workers and 1000 jobs *)

Definition main_run : Sys * Pc := run_main 3000 1000 (main_init 4).

Lemma main_never_panics_witness :
  (0 < N.to_nat 4)%nat /\ (N.of_nat 1000 <= USIZE_MAX)%N /\
  rtc (step 1000) (main_init 4) main_run /\
  forall e, snd main_run <> Aborted e.
Proof.
  split; [vm_compute; lia|]. split; [vm_compute; discriminate|]. split; [apply run_main_rtc|].
  apply (main_never_panics 4 1000); [vm_compute; lia|vm_compute; discriminate|apply run_main_rtc].
Defined.

Lemma main_completes_witness :
  (0 < N.to_nat 4)%nat /\ (N.of_nat 1000 <= USIZE_MAX)%N /\
  rtc (step 1000) (main_init 4) (main_init 4) /\
  exists y, rtc (step 1000) (main_init 4) y /\ snd y = Finished.
Proof.
  split; [vm_compute; lia|]. split; [vm_compute; discriminate|]. split; [apply rtc_refl|].
  apply (main_completes 4 1000); [vm_compute; lia|vm_compute; discriminate|apply rtc_refl].
Defined.

Lemma main_output_witness :
  (0 < N.to_nat 4)%nat /\ (N.of_nat 1000 <= USIZE_MAX)%N /\
  rtc (step 1000) (main_init 4) main_run /\ snd main_run = Finished /\
  exists o, out (fst main_run) = o ++ [LWorld] /\ hellos o ≡ₚ seq 0 1000 /\
    forall w, (w < N.to_nat 4)%nat -> printed w o = sent (N.to_nat 4) w 1000.
Proof.
  split; [vm_compute; lia|]. split; [vm_compute; discriminate|]. split; [apply run_main_rtc|].
  split; [vm_compute; reflexivity|].
  apply (main_output 4 1000); [vm_compute; lia|vm_compute; discriminate|apply run_main_rtc|].
  vm_compute. reflexivity.
Defined.

Lemma main_steps_bounded_witness :
  nsteps (step 1000) 1 (main_init 4) (run_main 1 1000 (main_init 4)) /\ (1 <= 2 * N.to_nat 4 + 2 * 1000 + 2)%nat.
Proof.
  assert (Hs : nsteps (step 1000) 1 (main_init 4) (run_main 1 1000 (main_init 4))).
  { eapply nsteps_l; [apply next_step; vm_compute; reflexivity|]. vm_compute. apply nsteps_O. }
  split; [exact Hs|]. exact (main_steps_bounded 4 1000 1 _ Hs).
Defined.

Lemma spawn_round_robin_witness :
  (0 < N.to_nat 4)%nat /\ (N.of_nat 1000 <= USIZE_MAX)%N /\
  exists s, spawn_jobs (new 4) (seq 0 1000) = Ok s /\ index (pool s) = N.of_nat 1000 /\
    forall w, (w < N.to_nat 4)%nat ->
      workers s !! w = Some {| rx := hello <$> sent (N.to_nat 4) w 1000; status := Running |}.
Proof.
  split; [vm_compute; lia|]. split; [vm_compute; discriminate|].
  apply spawn_round_robin; [vm_compute; lia|vm_compute; discriminate].
Defined.

End ThreadPool.
