(* ===== verification/Serialize.v ===== *)
(** * The serialization demos ([building-blocks/serialize_{json,ron,bson}])

    Each program derives [Serialize] and [Deserialize] for
    [struct Move { x: i32, y: i32 }] and pushes a value through a serde
    back end: [serialize_json] writes one [Move] to [test.json] and reads
    it back; [serialize_ron] turns one into JSON bytes, checks they are
    UTF-8 and prints its RON form; [serialize_bson] writes five BSON
    documents to [test.bson] and reads them back until a document fails
    to decode.

    The back ends are libraries: they are modelled on the shapes they
    produce and read for [Move] (the compact JSON object [{"x":1,"y":2}],
    RON's [(x:1,y:2)], a BSON document of two [int32] elements); JSON
    with whitespace inside the object and BSON elements of other types
    are not modelled.  An [i32] is a [Z] between [I32_MIN] and [I32_MAX];
    its BSON form is the little-endian bytes of its two's complement,
    written with [Z.land] and [Z.shiftr]. *)

From Stdlib Require Import ZArith.
From S2P Require Import KvPrelude LogName Codec PosIO.
Import LogName Codec PosIO.

Module Serialize.

Local Open Scope Z_scope.

Definition I32_MIN : Z := -2147483648.
Definition I32_MAX : Z := 2147483647.

Definition i32_ok (z : Z) : bool := (I32_MIN <=? z) && (z <=? I32_MAX).

(** [#[derive(Debug, Serialize, Deserialize)] struct Move { x: i32, y: i32 }]. *)
Record Move := { x : Z; y : Z }.

Definition move_ok (m : Move) : bool := i32_ok (x m) && i32_ok (y m).

(** ** JSON ([serde_json]) *)

(** [itoa] on an [i32]: a minus sign, then the decimal digits. *)
Definition json_i32 (z : Z) : bytes :=
  if z <? 0 then "-"%char :: dec_u64 (Z.to_N (- z)) else dec_u64 (Z.to_N z).

(** [serde_json::to_writer] / [to_vec] on a [Move]: the compact object. *)
Definition json_move (m : Move) : bytes :=
  bstr "{" ++ json_string (bstr "x") ++ bstr ":" ++ json_i32 (x m) ++ bstr "," ++
  json_string (bstr "y") ++ bstr ":" ++ json_i32 (y m) ++ bstr "}".

Fixpoint span_digits (s : bytes) : bytes * bytes :=
  match s with
  | c :: s' =>
      if digit_value c then let '(ds, r) := span_digits s' in (c :: ds, r) else ([], s)
  | [] => ([], [])
  end.

(** [parse_integer] and [deserialize_i32]: an optional minus, no leading
    zero, digits accumulated as a [u64]; a fraction or exponent makes a
    float, which an [i32] rejects, as it rejects a value out of range. *)
Definition parse_i32 (s : bytes) : option (Z * bytes) :=
  let '(neg, s) :=
    match s with
    | c :: s' => if Ascii.eqb c "-" then (true, s') else (false, s)
    | [] => (false, s)
    end in
  let '(ds, rest) := span_digits s in
  match ds with
  | [] => None
  | d0 :: d1 :: _ => if Ascii.eqb d0 "0" then None else Some tt
  | _ => Some tt
  end;;
  match rest with
  | c :: _ => if Ascii.eqb c "." || Ascii.eqb c "e" || Ascii.eqb c "E" then None else Some tt
  | [] => Some tt
  end;;
  n ← parse_digits ds 0;
  let z := if neg then - Z.of_N n else Z.of_N n in
  if i32_ok z then Some (z, rest) else None.

(** [Move::deserialize] on the compact object, fields in the order the
    encoder writes them. *)
Definition parse_move (s : bytes) : option (Move * bytes) :=
  s ← strip_prefix (bstr "{") s;
  s ← parse_key (bstr "x") s;
  '(a, s) ← parse_i32 s;
  s ← strip_prefix (bstr ",") s;
  s ← parse_key (bstr "y") s;
  '(b, s) ← parse_i32 s;
  s ← strip_prefix (bstr "}") s;
  Some ({| x := a; y := b |}, s).

(** [serde_json::from_reader::<_, Move>]: one value, then only whitespace. *)
Definition json_from_slice (s : bytes) : result Move :=
  match parse_move (skip_ws s) with
  | Some (m, rest) => if decide (skip_ws rest = []) then Ok m else Err JsonError
  | None => Err JsonError
  end.

(** What [serialize_json] prints: [Writing {a:#?}] and [Reading {b:#?}]. *)
Inductive JLine := Writing (m : Move) | Reading (m : Move).

(** [main] of [serialize_json] with the value [a] of its literal
    [Move { x: 1, y: 2 }]: [File::create] replaces [test.json], the
    [BufWriter] is flushed when it is dropped at the end of the block. *)
Definition json_main (a : Move) (d : Dir) : result (Dir * list JLine) :=
  let d := <[bstr "test.json" := json_move a]> d in
  let? f := of_option (IoNotFound (bstr "test.json")) (d !! bstr "test.json") in
  let? b := json_from_slice f in
  Ok (d, [Writing a; Reading b]).

(** ** RON and UTF-8 ([serialize_ron]) *)

(** [ron::to_string] on a [Move], default configuration. *)
Definition ron_move (m : Move) : bytes :=
  bstr "(x:" ++ json_i32 (x m) ++ bstr ",y:" ++ json_i32 (y m) ++ bstr ")".

Definition byte_in (lo hi : N) (c : ascii) : bool := (lo <=? N_of_ascii c)%N && (N_of_ascii c <=? hi)%N.

(** [std::str::from_utf8]'s validation: each sequence is a byte below
    [0x80] or a lead byte with the continuation bytes its range allows
    (no overlong forms, no surrogates, nothing above [U+10FFFF]). *)
Fixpoint utf8_valid (s : bytes) : bool :=
  match s with
  | [] => true
  | c :: s1 =>
      if byte_in 0 127 c then utf8_valid s1
      else if byte_in 194 223 c then
        match s1 with c1 :: s2 => byte_in 128 191 c1 && utf8_valid s2 | [] => false end
      else if byte_in 224 239 c then
        let lo := if byte_in 224 224 c then 160%N else 128%N in
        let hi := if byte_in 237 237 c then 159%N else 191%N in
        match s1 with
        | c1 :: c2 :: s3 => byte_in lo hi c1 && byte_in 128 191 c2 && utf8_valid s3
        | _ => false
        end
      else if byte_in 240 244 c then
        let lo := if byte_in 240 240 c then 144%N else 128%N in
        let hi := if byte_in 244 244 c then 143%N else 191%N in
        match s1 with
        | c1 :: c2 :: c3 :: s4 =>
            byte_in lo hi c1 && byte_in 128 191 c2 && byte_in 128 191 c3 && utf8_valid s4
        | _ => false
        end
      else false
  end.

Definition from_utf8 (v : bytes) : result bytes :=
  if utf8_valid v then Ok v else Err (Msg "Utf8Error").

(** What [serialize_ron] prints: [j vec {v:#?}], [j str {s:#?}],
    [ron str {v:#?}], then [Hello, world!]. *)
Inductive RLine := JVec (v : bytes) | JStr (s : bytes) | RonStr (s : bytes) | RHello.

(** [main] of [serialize_ron] with the value [a] of its literal. *)
Definition ron_main (a : Move) : result (list RLine) :=
  let v := json_move a in
  let? s := from_utf8 v in
  let r := ron_move a in
  Ok [JVec v; JStr s; RonStr r; RHello].

(** ** BSON ([serialize_bson]) *)

Definition NUL : ascii := ascii_of_N 0.

(** The [n] low bytes of [u], least significant first. *)
Definition le_bytes (n : nat) (u : Z) : bytes :=
  map (fun k => ascii_of_N (Z.to_N (Z.land (Z.shiftr u (8 * Z.of_nat k)) 255))) (seq 0 n).

(** An [i32] as BSON writes it: four bytes of its two's complement. *)
Definition i32_le (z : Z) : bytes := le_bytes 4 (z mod 2 ^ 32).

Definition le_value (bs : bytes) : Z :=
  foldr (fun c acc => Z.of_N (N_of_ascii c) + 256 * acc) 0 bs.

(** [i32::from_le_bytes]. *)
Definition i32_of_le (bs : bytes) : Z :=
  let u := le_value bs in if 2 ^ 31 <=? u then u - 2 ^ 32 else u.

(** A BSON value; only [int32] (element type [0x10]) is modelled. *)
Inductive Bson := BInt32 (z : Z).

Definition Document : Type := list (bytes * Bson).

Definition elem_i32 (key : bytes) (z : Z) : bytes := ascii_of_N 16 :: key ++ [NUL] ++ i32_le z.

(** [bson::to_vec(&Move)]: the total length, the elements [x] and [y], a
    terminating zero. *)
Definition bson_move (m : Move) : bytes :=
  let body := elem_i32 (bstr "x") (x m) ++ elem_i32 (bstr "y") (y m) ++ [NUL] in
  i32_le (4 + Z.of_nat (length body)) ++ body.

(** A C string: the bytes up to the first zero. *)
Fixpoint cstring (s : bytes) : option (bytes * bytes) :=
  match s with
  | [] => None
  | c :: s' => if Ascii.eqb c NUL then Some ([], s') else '(k, r) ← cstring s'; Some (c :: k, r)
  end.

(** The elements of a document body, up to the zero that must end it. *)
Fixpoint parse_elems (fuel : nat) (s : bytes) : option Document :=
  match fuel with
  | O => None
  | S f =>
      match s with
      | [] => None
      | t :: s' =>
          if Ascii.eqb t NUL then (if decide (s' = []) then Some [] else None)
          else if Ascii.eqb t (ascii_of_N 16) then
            '(k, r) ← cstring s';
            match r with
            | b0 :: b1 :: b2 :: b3 :: r' =>
                es ← parse_elems f r'; Some ((k, BInt32 (i32_of_le [b0; b1; b2; b3])) :: es)
            | _ => None
            end
          else None
      end
  end.

(** [Document::from_reader] on a cursor: the length (at least 5), then
    that many bytes in all, which must parse as a document. *)
Definition doc_from_reader (s : bytes) : result (Document * bytes) :=
  match s with
  | b0 :: b1 :: b2 :: b3 :: rest =>
      let len := i32_of_le [b0; b1; b2; b3] in
      if len <? 5 then Err (Msg "invalid length")
      else if Z.of_nat (length rest) <? len - 4 then Err (Msg "failed to fill whole buffer")
      else
        let n := Z.to_nat (len - 4) in
        match parse_elems n (take n rest) with
        | Some doc => Ok (doc, drop n rest)
        | None => Err (Msg "malformed document")
        end
  | _ => Err (Msg "failed to fill whole buffer")
  end.

(** serde's [visit_map] for [Move]: unknown keys are skipped, a repeated
    key is an error. *)
Fixpoint move_fields (doc : Document) (ox oy : option Z) : result (option Z * option Z) :=
  match doc with
  | [] => Ok (ox, oy)
  | (k, BInt32 z) :: doc' =>
      if decide (k = bstr "x") then
        match ox with Some _ => Err (Msg "duplicate field `x`") | None => move_fields doc' (Some z) oy end
      else if decide (k = bstr "y") then
        match oy with Some _ => Err (Msg "duplicate field `y`") | None => move_fields doc' ox (Some z) end
      else move_fields doc' ox oy
  end.

(** [bson::from_document::<Move>]. *)
Definition from_document (doc : Document) : result Move :=
  let? '(ox, oy) := move_fields doc None None in
  match ox, oy with
  | Some a, Some b => Ok {| x := a; y := b |}
  | None, _ => Err (Msg "missing field `x`")
  | _, None => Err (Msg "missing field `y`")
  end.

(** [while let Ok(doc) = Document::from_reader(&mut cursor) { if let Ok(v)
    = bson::from_document::<Move>(doc) { moves.push(v) } else { break } }]. *)
Fixpoint read_moves (fuel : nat) (s : bytes) : list Move :=
  match fuel with
  | O => []
  | S f =>
      match doc_from_reader s with
      | Ok (doc, rest) =>
          match from_document doc with
          | Ok v => v :: read_moves f rest
          | Err _ => []
          end
      | Err _ => []
      end
  end.

(** The whole buffer: every document takes at least five bytes. *)
Definition read_all (s : bytes) : list Move := read_moves (length s) s.

(** What [serialize_bson] prints. *)
Inductive BLine := WriteB (m : Move) | Read (ms : list Move) | BHello.

(** The five moves of [for i in 0..5 { let m = Move{x: i, y: i}; .. }]. *)
Definition five_moves : list Move := map (fun i => {| x := Z.of_nat i; y := Z.of_nat i |}) (seq 0 5).

(** [main] of [serialize_bson]: the documents written through a
    [BufWriter] (each fits its buffer, so [write] takes it whole) and
    flushed, then the file read to its end and decoded. *)
Definition bson_main (d : Dir) : result (Dir * list BLine) :=
  let fname := bstr "test.bson" in
  let d := <[fname := five_moves ≫= bson_move]> d in
  let? buffer := of_option (IoNotFound fname) (d !! fname) in
  Ok (d, (WriteB <$> five_moves) ++ [Read (read_all buffer); BHello]).

(** ** Little-endian [i32] *)

Lemma byte_roundtrip (w : Z) : 0 <= w < 256 -> Z.of_N (N_of_ascii (ascii_of_N (Z.to_N w))) = w.
Proof. intros Hw. rewrite N_ascii_embedding by lia. lia. Qed.

Lemma le_bytes_S n u :
  le_bytes (S n) u = ascii_of_N (Z.to_N (u mod 256)) :: le_bytes n (u / 256).
Proof.
  unfold le_bytes. cbn [seq map]. rewrite <- (seq_shift n 0), map_map. f_equal.
  - rewrite Z.shiftr_0_r. change 255 with (Z.ones 8). by rewrite Z.land_ones.
  - apply map_ext. intros k.
    rewrite Nat2Z.inj_succ, Z.mul_succ_r, Z.add_comm, <- Z.shiftr_shiftr by lia.
    rewrite (Z.shiftr_div_pow2 u 8) by lia. done.
Qed.

(** The [n] bytes read back give [u] modulo [2^(8n)]. *)
Lemma le_value_bytes n u : le_value (le_bytes n u) = u mod 2 ^ (8 * Z.of_nat n).
Proof.
  revert u. induction n as [|n IH]; intros u; [by rewrite Z.mod_1_r|].
  rewrite le_bytes_S. cbn [le_value foldr]. fold (le_value (le_bytes n (u / 256))).
  rewrite IH, byte_roundtrip by (apply Z.mod_pos_bound; lia).
  rewrite Nat2Z.inj_succ, Z.mul_succ_r, Z.pow_add_r by lia.
  replace (2 ^ (8 * Z.of_nat n) * 2 ^ 8) with (256 * 2 ^ (8 * Z.of_nat n)) by ring.
  rewrite Z.rem_mul_r by lia. lia.
Qed.

Lemma i32_le_length z : length (i32_le z) = 4%nat.
Proof. done. Qed.

(** Reading back the four bytes of an [i32] gives it back. *)
Lemma i32_of_le_le z : i32_ok z = true -> i32_of_le (i32_le z) = z.
Proof.
  unfold i32_ok, I32_MIN, I32_MAX. intros [H1 H2]%andb_true_iff.
  apply Z.leb_le in H1, H2. unfold i32_of_le, i32_le.
  rewrite le_value_bytes, Zmod_mod. change (2 ^ (8 * Z.of_nat 4)) with (2 ^ 32).
  destruct (Z.leb_spec 0 z).
  - rewrite Z.mod_small by lia. destruct (Z.leb_spec (2 ^ 31) z); lia.
  - replace (z mod 2 ^ 32) with (z + 2 ^ 32).
    + destruct (Z.leb_spec (2 ^ 31) (z + 2 ^ 32)); lia.
    + apply (Z.mod_unique _ _ (-1)); lia.
Qed.

Lemma i32_le_shape z : exists b0 b1 b2 b3, i32_le z = [b0; b1; b2; b3].
Proof. by do 4 eexists. Qed.

(** ** BSON documents *)

Lemma doc_from_reader_move m rest :
  move_ok m = true ->
  doc_from_reader (bson_move m ++ rest) =
    Ok ([(bstr "x", BInt32 (x m)); (bstr "y", BInt32 (y m))], rest).
Proof.
  intros [Hx Hy]%andb_true_iff.
  pose proof (i32_of_le_le _ Hx) as Ex. pose proof (i32_of_le_le _ Hy) as Ey.
  destruct (i32_le_shape (x m)) as (a0 & a1 & a2 & a3 & Ha).
  destruct (i32_le_shape (y m)) as (b0 & b1 & b2 & b3 & Hb).
  rewrite Ha in Ex. rewrite Hb in Ey.
  unfold bson_move, elem_i32. rewrite Ha, Hb. simpl.
  replace (i32_of_le _ - 4) with 15 by reflexivity.
  rewrite (proj2 (Z.ltb_ge _ _)) by lia. by rewrite Ex, Ey.
Qed.

Lemma from_document_move m :
  from_document [(bstr "x", BInt32 (x m)); (bstr "y", BInt32 (y m))] = Ok m.
Proof. by destruct m. Qed.

(** Reading documents off the concatenation of encoded moves. *)
Lemma read_moves_app fuel ms t :
  Forall (fun m => move_ok m = true) ms -> (length ms <= fuel)%nat ->
  read_moves fuel ((ms ≫= bson_move) ++ t) = ms ++ read_moves (fuel - length ms) t.
Proof.
  revert fuel. induction ms as [|m ms IH]; intros fuel Hok Hlen; [by rewrite Nat.sub_0_r|].
  apply Forall_cons in Hok as [Hm Hok]. destruct fuel as [|fuel]; [cbn in Hlen; lia|].
  rewrite bind_cons, <- app_assoc. cbn [read_moves].
  rewrite doc_from_reader_move, from_document_move by done.
  rewrite IH by (done || cbn in Hlen; lia). done.
Qed.

Lemma read_moves_nil fuel : read_moves fuel [] = [].
Proof. by destruct fuel. Qed.

Lemma bson_move_length m : length (bson_move m) = 19%nat.
Proof. done. Qed.

Lemma bson_move_split m : exists body, bson_move m = i32_le 19 ++ body /\ length body = 15%nat.
Proof. by eexists. Qed.

(** A document cut short does not decode. *)
Lemma doc_from_reader_prefix m p q :
  p ++ q = bson_move m -> q <> [] -> exists e, doc_from_reader p = Err e.
Proof.
  intros Hpq Hq. destruct (bson_move_split m) as (body & Hb & Hlen). rewrite Hb in Hpq.
  pose proof (f_equal length Hpq) as Hl. rewrite !length_app in Hl. cbn in Hl.
  destruct p as [|c0 [|c1 [|c2 [|c3 p]]]]; try by eexists.
  injection Hpq as -> -> -> -> Hp. unfold doc_from_reader.
  replace (i32_of_le _) with 19 by reflexivity.
  rewrite (proj2 (Z.ltb_ge 19 5)) by lia.
  assert (length q <> 0%nat) by (destruct q; [done|cbn; lia]).
  rewrite (proj2 (Z.ltb_lt _ _)) by (cbn in Hl; lia). by eexists.
Qed.

(** ** JSON numbers *)

Lemma span_digits_app ds c r :
  Forall is_digit ds -> digit_value c = None -> span_digits (ds ++ c :: r) = (ds, c :: r).
Proof.
  induction 1 as [|d ds [v Hd] _ IH]; intros Hc; cbn [app span_digits]; [by rewrite Hc|].
  by rewrite Hd, IH.
Qed.

Lemma digit_char_zero d : (d < 10)%N -> digit_char d = "0"%char -> d = 0%N.
Proof.
  intros Hd Heq. apply (f_equal N_of_ascii) in Heq. unfold digit_char in Heq.
  rewrite N_ascii_embedding in Heq by lia. cbn in Heq. lia.
Qed.

(** The digits of a positive number do not start with [0]. *)
Lemma dec_digits_head fuel n acc :
  (1 <= n)%N -> (n < 10 ^ N.of_nat fuel)%N ->
  exists c r, dec_digits fuel n acc = c :: r /\ c <> "0"%char.
Proof.
  revert n acc. induction fuel as [|fuel IH]; intros n acc H1 Hn; [cbn in Hn; lia|].
  cbn [dec_digits]. destruct (N.ltb_spec n 10).
  - exists (digit_char n), acc. split; [done|]. intros ?%digit_char_zero; lia.
  - apply IH; [apply N.div_le_lower_bound; lia|].
    rewrite Nat2N.inj_succ, N.pow_succ_r' in Hn. apply N.Div0.div_lt_upper_bound. lia.
Qed.

(** serde_json's check against a leading zero passes on printed numbers. *)
Lemma dec_u64_lead n :
  match dec_u64 n with
  | [] => None | d0 :: _ :: _ => if Ascii.eqb d0 "0" then None else Some tt | _ => Some tt
  end = Some tt.
Proof.
  destruct (N.eq_dec n 0%N) as [->|Hn]; [done|].
  destruct (dec_digits_head (S (N.to_nat (N.size n))) n [] ltac:(lia) (dec_fuel_bound n))
    as (c & r & Hd & Hc).
  unfold dec_u64. rewrite Hd. destruct r; [done|].
  by destruct (Ascii.eqb_spec c "0").
Qed.

Lemma parse_digits_dec n : (n <= U64_MAX)%N -> parse_digits (dec_u64 n) 0 = Some n.
Proof.
  intros Hn. rewrite parse_digits_val, dec_u64_val; [done|apply dec_u64_digits|].
  by rewrite dec_u64_val.
Qed.

Lemma i32_ok_bounds z : i32_ok z = true -> I32_MIN <= z <= I32_MAX.
Proof. unfold i32_ok. intros [?%Z.leb_le ?%Z.leb_le]%andb_true_iff. lia. Qed.

(** A printed [i32] followed by a byte that cannot continue a number is
    read back. *)
Lemma parse_i32_json z c r :
  i32_ok z = true -> digit_value c = None ->
  (Ascii.eqb c "." || Ascii.eqb c "e" || Ascii.eqb c "E") = false ->
  parse_i32 (json_i32 z ++ c :: r) = Some (z, c :: r).
Proof.
  intros Hz Hc Hd. pose proof (i32_ok_bounds z Hz) as Hb. unfold I32_MIN, I32_MAX in Hb.
  unfold parse_i32, json_i32. destruct (Z.ltb_spec z 0);
    [cbn [app]; rewrite Ascii.eqb_refl
    |destruct (dec_u64_digits (Z.to_N z)) as [Hne Hall];
     destruct (dec_u64 (Z.to_N z)) as [|d ds] eqn:E; [done|];
     apply Forall_cons in Hall as [Hdig Hall]; cbn [app];
     rewrite (proj2 (digit_not_sign d Hdig)); cbv beta iota;
     change (d :: ds ++ c :: r) with ((d :: ds) ++ c :: r); rewrite <- E].
  all: rewrite span_digits_app by (done || apply dec_u64_digits).
  all: cbn [mbind option_bind]; rewrite dec_u64_lead; cbn [mbind option_bind].
  all: rewrite Hd; cbn [mbind option_bind]; rewrite parse_digits_dec by (unfold U64_MAX; lia).
  all: cbn [mbind option_bind]; rewrite Z2N.id by lia; by rewrite ?Z.opp_involutive, Hz.
Qed.

(** serde_json reads back what it wrote for a [Move]. *)
Lemma json_roundtrip m : move_ok m = true -> json_from_slice (json_move m) = Ok m.
Proof.
  intros [Hx Hy]%andb_true_iff. unfold json_from_slice, json_move.
  change (bstr "{" ++ ?t) with ("{"%char :: t). rewrite skip_ws_nonws by reflexivity.
  unfold parse_move. change ("{"%char :: ?t) with (bstr "{" ++ t).
  rewrite strip_prefix_app. cbn [mbind option_bind].
  rewrite parse_key_json. cbn [mbind option_bind].
  change (bstr "," ++ ?t) with (","%char :: t). rewrite parse_i32_json by done.
  cbn [mbind option_bind]. change (","%char :: ?t) with (bstr "," ++ t).
  rewrite strip_prefix_app. cbn [mbind option_bind].
  rewrite parse_key_json. cbn [mbind option_bind].
  change (bstr "}") with ["}"%char]. rewrite parse_i32_json by done.
  cbn [mbind option_bind]. change ["}"%char] with (bstr "}" ++ []).
  rewrite strip_prefix_app. cbn [mbind option_bind]. by destruct m.
Qed.

(** ** The read loop of [serialize_bson] *)

Lemma bind_bson_length ms : length (ms ≫= bson_move) = (19 * length ms)%nat.
Proof. induction ms as [|m ms IH]; [done|]. rewrite bind_cons, length_app, IH. cbn. lia. Qed.

Lemma read_all_app ms t :
  Forall (fun m => move_ok m = true) ms ->
  read_all ((ms ≫= bson_move) ++ t) = ms ++ read_moves (length ((ms ≫= bson_move) ++ t) - length ms) t.
Proof.
  intros Hok. unfold read_all. apply read_moves_app; [done|].
  rewrite length_app, bind_bson_length. lia.
Qed.

(** ** The three programs *)

(** C16: [serialize_json] writes the [Move] to [test.json] as serde_json's
    compact object and reads the same [Move] back, for every pair of
    [i32]s; it prints [Writing] then [Reading] of that value. *)
Theorem json_main_output a d :
  move_ok a = true ->
  json_main a d = Ok (<[bstr "test.json" := json_move a]> d, [Writing a; Reading a]).
Proof.
  intros Ha. unfold json_main. rewrite lookup_insert_eq. cbn [of_option res_bind].
  by rewrite json_roundtrip.
Qed.

(** C17: The read loop of [serialize_bson] gets back every [Move] written
    as consecutive BSON documents, in order. *)
Theorem read_all_roundtrip ms :
  Forall (fun m => move_ok m = true) ms -> read_all (ms ≫= bson_move) = ms.
Proof.
  intros Hok. rewrite <- (app_nil_r (ms ≫= bson_move)), read_all_app by done.
  by rewrite read_moves_nil, app_nil_r.
Qed.

(** C30: A document cut short at the end of the file ends the loop: the
    complete documents before it are read, and nothing else. *)
Theorem read_all_truncated ms m p q :
  Forall (fun m => move_ok m = true) ms -> p ++ q = bson_move m -> q <> [] ->
  read_all ((ms ≫= bson_move) ++ p) = ms.
Proof.
  intros Hok Hpq Hq. rewrite read_all_app by done.
  destruct (doc_from_reader_prefix m p q Hpq Hq) as [e He].
  destruct (length _ - length ms)%nat; [by rewrite app_nil_r|]. cbn [read_moves].
  by rewrite He, app_nil_r.
Qed.

(** ** Witnesses *)

Definition sample_move : Move := {| x := 1; y := 2 |}.

Lemma json_main_output_witness :
  move_ok sample_move = true /\
  json_main sample_move ∅ = Ok (<[bstr "test.json" := json_move sample_move]> ∅,
                               [Writing sample_move; Reading sample_move]).
Proof. split; [reflexivity|]. apply json_main_output. reflexivity. Defined.

Lemma read_all_roundtrip_witness :
  Forall (fun m => move_ok m = true) five_moves /\ read_all (five_moves ≫= bson_move) = five_moves.
Proof.
  assert (H : Forall (fun m => move_ok m = true) five_moves) by (repeat constructor).
  split; [exact H|]. exact (read_all_roundtrip five_moves H).
Defined.

Lemma read_all_truncated_witness :
  Forall (fun m => move_ok m = true) five_moves /\
  take 7 (bson_move sample_move) ++ drop 7 (bson_move sample_move) = bson_move sample_move /\
  drop 7 (bson_move sample_move) <> [] /\
  read_all ((five_moves ≫= bson_move) ++ take 7 (bson_move sample_move)) = five_moves.
Proof.
  assert (H : Forall (fun m => move_ok m = true) five_moves) by (repeat constructor).
  assert (Hs : take 7 (bson_move sample_move) ++ drop 7 (bson_move sample_move) = bson_move sample_move)
    by apply take_drop.
  assert (Hq : drop 7 (bson_move sample_move) <> []) by (vm_compute; discriminate).
  split_and!; [exact H|exact Hs|exact Hq|].
  exact (read_all_truncated five_moves sample_move _ _ H Hs Hq).
Defined.

End Serialize.
